(** * SRST2 SLURM submission script: read-set discovery and pairing

    A shallow embedding of [get_readFile_components] and [read_file_sets]
    from [scripts/slurm_srst2.py], together with the fragment of [main]
    that consumes the returned dictionary.

    The script is Python 2: a [str] is a byte string, modelled as Rocq's
    [string] (a list of 8-bit [ascii] characters); a [dict] keyed by [str]
    is a [gmap string _]; [print] appends one line to an output log. *)

From Stdlib Require Import Ascii ZArith Lia.
From stdpp Require Import gmap strings list fin_maps pretty.

(** ** Python [str] primitives used by the script *)

Module Py.
Local Open Scope Z_scope.

(** [s.rfind(c)] for a one-character [c]: the highest index at which [c]
    occurs, or [-1]. [rfind_from] carries the index of the head of [s]. *)
Fixpoint rfind_from (c : ascii) (s : string) (i : Z) : Z :=
  match s with
  | EmptyString => -1
  | String a s' =>
      let r := rfind_from c s' (i + 1) in
      if 0 <=? r then r else if Ascii.eqb a c then i else -1
  end.

Definition rfind (c : ascii) (s : string) : Z := rfind_from c s 0.

(** [s[:n]] and [s[n:]] for a non-negative [n]. *)
Fixpoint take (n : nat) (s : string) : string :=
  match n, s with
  | S n', String a s' => String a (take n' s')
  | _, _ => EmptyString
  end.

Fixpoint drop (n : nat) (s : string) : string :=
  match n, s with
  | S n', String _ s' => drop n' s'
  | _, _ => s
  end.

Definition slice_to (i : Z) (s : string) : string := take (Z.to_nat i) s.
Definition slice_from (i : Z) (s : string) : string := drop (Z.to_nat i) s.

(** [s[i]] for an index inside the string. *)
Definition index (i : Z) (s : string) : option ascii :=
  if i <? 0 then None else String.get (Z.to_nat i) s.

(** [c * n]: the character [c] repeated [n] times. *)
Fixpoint times (c : ascii) (n : nat) : string :=
  match n with
  | O => EmptyString
  | S n' => String c (times c n')
  end.

(** [s.rstrip(c)]: drop every trailing occurrence of [c]. *)
Fixpoint rstrip (c : ascii) (s : string) : string :=
  match s with
  | EmptyString => EmptyString
  | String a s' =>
      match rstrip c s' with
      | EmptyString => if Ascii.eqb a c then EmptyString else String a EmptyString
      | r => String a r
      end
  end.

(** [len(s)] *)
Definition len (s : string) : nat := String.length s.

(** Truthiness of a [str]: the empty string is false. *)
Definition truthy (s : string) : bool := negb (String.eqb s EmptyString).

End Py.

(** ** [os.path] (POSIX flavour) *)

Module OsPath.
Local Open Scope Z_scope.

Definition sep : ascii := "/"%char.
Definition extsep : ascii := "."%char.

(** [posixpath.split]:
    i = p.rfind('/') + 1; head, tail = p[:i], p[i:];
    if head and head != '/'*len(head): head = head.rstrip('/') *)
Definition split (p : string) : string * string :=
  let i := Py.rfind sep p + 1 in
  let head := Py.slice_to i p in
  let tail := Py.slice_from i p in
  let head :=
    if Py.truthy head && negb (String.eqb head (Py.times sep (Py.len head)))
    then Py.rstrip sep head else head in
  (head, tail).

(** The [while filenameIndex < dotIndex] loop of [genericpath._splitext]:
    [true] when a character other than the dot is met before [dotIndex];
    [n] bounds the remaining iterations, [dotIndex - filenameIndex]. *)
Fixpoint splitext_loop (p : string) (filenameIndex : Z) (n : nat) : bool :=
  match n with
  | O => false
  | S n' =>
      match Py.index filenameIndex p with
      | Some a =>
          if negb (Ascii.eqb a extsep) then true
          else splitext_loop p (filenameIndex + 1) n'
      | None => false     (* not reached: the index stays below [dotIndex] *)
      end
  end.

(** [posixpath.splitext], i.e. [genericpath._splitext(p, '/', None, '.')]. *)
Definition splitext (p : string) : string * string :=
  let sepIndex := Py.rfind sep p in
  let dotIndex := Py.rfind extsep p in
  if (sepIndex <? dotIndex)
     && splitext_loop p (sepIndex + 1) (Z.to_nat (dotIndex - (sepIndex + 1)))
  then (Py.slice_to dotIndex p, Py.slice_from dotIndex p)
  else (p, EmptyString).

End OsPath.

(** ** The fragment of Python's [re] the script's patterns are written in

    The three patterns of the script use capturing groups without nesting,
    literal characters, [.], the greedy [.*] and a final [$]. No flag is
    passed, so [.] matches every character but the newline and [$] matches
    at the end of the string or just before a newline that ends it. *)

Module Re.

Inductive atom : Type :=
| AChar (c : ascii)   (* a literal character *)
| ADot.               (* [.] *)

Inductive regex : Type :=
| RAtom (a : atom)
| RStar (a : atom)              (* greedy [a*] *)
| REnd                          (* [$] *)
| RSeq (r1 r2 : regex)
| RGroup (r : regex)            (* [( r )], capturing *)
| REmpty.

Definition newline : ascii := "010"%char.

Definition atom_match (a : atom) (c : ascii) : bool :=
  match a with
  | AChar c' => Ascii.eqb c c'
  | ADot => negb (Ascii.eqb c newline)
  end.

(** What a group captured: the part of [s] consumed to reach [rest]. *)
Definition consumed (s rest : string) : string :=
  Py.take (String.length s - String.length rest) s.

(** [a*] followed by the continuation [k]: consume as many characters as
    match [a], then give them back one at a time until [k] succeeds. *)
Fixpoint star {A} (a : atom) (s : string) (k : string -> option A) : option A :=
  match s with
  | String c s' =>
      if atom_match a c then
        match star a s' k with
        | Some x => Some x
        | None => k s
        end
      else k s
  | EmptyString => k s
  end.

(** Backtracking matcher in continuation-passing style: [run r s caps k]
    matches [r] at the head of [s], then hands the rest of the input and
    the groups closed so far to [k]. *)
Fixpoint run (r : regex) (s : string) (caps : list string)
    (k : string -> list string -> option (list string)) : option (list string) :=
  match r with
  | RAtom a =>
      match s with
      | String c s' => if atom_match a c then k s' caps else None
      | EmptyString => None
      end
  | RStar a => star a s (fun s' => k s' caps)
  | REnd =>
      if String.eqb s EmptyString || String.eqb s (String newline EmptyString)
      then k s caps else None
  | RSeq r1 r2 => run r1 s caps (fun s' caps' => run r2 s' caps' k)
  | RGroup r' => run r' s caps (fun s' caps' => k s' (caps' ++ [consumed s s']))
  | REmpty => k s caps
  end.

(** [re.match(pattern, s)]: anchored at the start of [s], free at its end;
    the result stands for [m.groups()], [None] for no match. *)
Definition re_match (r : regex) (s : string) : option (list string) :=
  run r s [] (fun _ caps => Some caps).

(** The literal characters of [d] in sequence. *)
Fixpoint literal (d : string) : regex :=
  match d with
  | EmptyString => REmpty
  | String c d' => RSeq (RAtom (AChar c)) (literal d')
  end.

(** Characters with a special meaning in pattern syntax. *)
Definition special (c : ascii) : bool :=
  existsb (Ascii.eqb c) (String.list_ascii_of_string ".^$*+?{}[]\|()").

Fixpoint plain (d : string) : bool :=
  match d with
  | EmptyString => true
  | String c d' => negb (special c) && plain d'
  end.

(** [m.groups()[i]] *)
Definition group (i : nat) (g : list string) : string := default EmptyString (g !! i).

End Re.

(** ** [get_readFile_components] *)

(** The pattern of the gzip test: a group holding [.*], then [.], [g], [z]. *)
Definition gz_pattern : Re.regex :=
  Re.RSeq (Re.RGroup (Re.RStar Re.ADot))
    (Re.RSeq (Re.RAtom Re.ADot)
       (Re.RSeq (Re.RAtom (Re.AChar "g")) (Re.RAtom (Re.AChar "z")))).

Definition get_readFile_components (full_file_path : string)
    : string * string * string :=
  let '(file_path, file_name) := OsPath.split full_file_path in
  let m1 := Re.re_match gz_pattern file_name in
  let '(ext, file_name) :=
    match m1 with
    | Some g => (".gz", Re.group 0 g)      (* gzipped *)
    | None => ("", file_name)
    end in
  let '(file_name_before_ext, ext2) := OsPath.splitext file_name in
  let full_ext := ext2 +:+ ext in
  (file_path, file_name_before_ext, full_ext).


(** ** [read_file_sets] *)

(** The attributes of the parsed command line that [read_file_sets] reads.
    [nargs='+'] makes a supplied [--input_se] or [--input_pe] a non-empty
    list; an option that was not given is [None], which the function only
    tests for truth, so it is modelled as the empty list. *)
Module Args.
Record t : Type := mk {
  input_se : list string;
  input_pe : list string;
  forward : string;
  reverse : string
}.
End Args.

(** A value stored in [fileSets]: the script stores lists of paths and, on
    two code paths, a bare path. *)
Inductive pyval : Type :=
| PyList (l : list string)
| PyStr (s : string).

(** The local variables of [read_file_sets], and what it printed. *)
Record locals : Type := mkLocals {
  fileSets : gmap string pyval;          (* key = id, value = files of that sample *)
  num_single_readsets : nat;
  num_paired_readsets : nat;
  forward_reads : gmap string string;    (* key = sample, value = full path to file *)
  reverse_reads : gmap string string;
  stdout : list string
}.

Definition set_fileSets (k : string) (v : pyval) (st : locals) : locals :=
  mkLocals (<[k := v]> (fileSets st)) (num_single_readsets st)
    (num_paired_readsets st) (forward_reads st) (reverse_reads st) (stdout st).

Definition incr_single (st : locals) : locals :=
  mkLocals (fileSets st) (S (num_single_readsets st))
    (num_paired_readsets st) (forward_reads st) (reverse_reads st) (stdout st).

Definition incr_paired (st : locals) : locals :=
  mkLocals (fileSets st) (num_single_readsets st)
    (S (num_paired_readsets st)) (forward_reads st) (reverse_reads st) (stdout st).

Definition set_forward_reads (k v : string) (st : locals) : locals :=
  mkLocals (fileSets st) (num_single_readsets st)
    (num_paired_readsets st) (<[k := v]> (forward_reads st)) (reverse_reads st)
    (stdout st).

Definition set_reverse_reads (k v : string) (st : locals) : locals :=
  mkLocals (fileSets st) (num_single_readsets st)
    (num_paired_readsets st) (forward_reads st) (<[k := v]> (reverse_reads st))
    (stdout st).

Definition print (line : string) (st : locals) : locals :=
  mkLocals (fileSets st) (num_single_readsets st)
    (num_paired_readsets st) (forward_reads st) (reverse_reads st)
    (stdout st ++ [line]).

Definition init_locals : locals := mkLocals ∅ 0 0 ∅ ∅ [].

(** The MiSeq file-name pattern: five groups, [.*], then [_S.*], [_L.*],
    [_R.*] and [_.*]. *)
Definition illumina_pattern : Re.regex :=
  let seg (p : string) := Re.RGroup (Re.RSeq (Re.literal p) (Re.RStar Re.ADot)) in
  Re.RSeq (Re.RGroup (Re.RStar Re.ADot))
    (Re.RSeq (seg "_S") (Re.RSeq (seg "_L") (Re.RSeq (seg "_R") (seg "_")))).

(** The pattern text built around a designator [d] that pattern syntax
    reads literally: a group holding [.*], a group holding [d], then [$]. *)
Definition suffix_regex (d : string) : Re.regex :=
  Re.RSeq (Re.RGroup (Re.RStar Re.ADot))
    (Re.RSeq (Re.RGroup (Re.literal d)) Re.REnd).

(** The pattern compiled for a designator [d]. The script pastes [d] into
    the pattern text unescaped. The embedding covers the designators that
    pattern syntax reads as literal text, the default [_1] and [_2] among
    them; for any other designator the pattern is outside the embedded
    fragment of [re] and the result is [None]. *)
Definition designator_pattern (d : string) : option Re.regex :=
  if Re.plain d then Some (suffix_regex d) else None.

Definition msg_undetermined (fastq : string) : string :=
  "Could not determine forward/reverse read status for input file " +:+ fastq.

Definition msg_miseq : string :=
  "  this file appears to match the MiSeq file naming convention (samplename_S1_L001_[R1]_001), but we were expecting [R1] or [R2] to designate read as forward or reverse?".

Definition msg_no_pair (path : string) : string :=
  "Warning, could not find pair for read:" +:+ path.

(** Body of [for fastq in args.input_se]. *)
Definition se_body (st : locals) (fastq : string) : locals :=
  let '(file_path, file_name_before_ext, full_ext) := get_readFile_components fastq in
  let m := Re.re_match illumina_pattern file_name_before_ext in
  let st :=
    match m with
    | None => set_fileSets file_name_before_ext (PyList [fastq]) st
    | Some g => set_fileSets (Re.group 0 g) (PyList [fastq]) st   (* Illumina names *)
    end in
  incr_single st.

(** Body of [for fastq in args.input_pe]; [None] only when a designator
    pattern is needed and lies outside the embedded fragment. *)
Definition pe_body (args : Args.t) (st : locals) (fastq : string) : option locals :=
  let '(file_path, file_name_before_ext, full_ext) := get_readFile_components fastq in
  (* try to match to MiSeq format *)
  let m := Re.re_match illumina_pattern file_name_before_ext in
  match m with
  | None =>
      (* not default Illumina file naming format, expect simple/ENA format *)
      pf ← designator_pattern (Args.forward args);
      match Re.re_match pf file_name_before_ext with
      | Some g =>
          (* store as forward read *)
          let baseName := Re.group 0 g in
          Some (set_forward_reads baseName fastq st)
      | None =>
          pr ← designator_pattern (Args.reverse args);
          match Re.re_match pr file_name_before_ext with
          | Some g =>
              (* store as reverse read *)
              let baseName := Re.group 0 g in
              Some (set_reverse_reads baseName fastq st)
          | None => Some (print (msg_undetermined fastq) st)
          end
      end
  | Some g =>
      (* matches default Illumina file naming format *)
      let baseName := Re.group 0 g in
      let read := Re.group 3 g in
      if String.eqb read "_R1" then Some (set_forward_reads baseName fastq st)
      else if String.eqb read "_R2" then Some (set_reverse_reads baseName fastq st)
      else
        let st := print (msg_undetermined fastq) st in
        let st := print msg_miseq st in
        let st := set_fileSets file_name_before_ext (PyStr fastq) st in
        Some (incr_single st)
  end.

(** [for fastq in args.input_pe: ...] *)
Fixpoint pe_loop (args : Args.t) (st : locals) (l : list string) : option locals :=
  match l with
  | [] => Some st
  | fastq :: l' => st' ← pe_body args st fastq; pe_loop args st' l'
  end.

(** Body of [for sample in forward_reads]; [path] is [forward_reads[sample]]. *)
Definition pair_body (st : locals) (entry : string * string) : locals :=
  let '(sample, path) := entry in
  match reverse_reads st !! sample with
  | Some rpath =>
      let st := set_fileSets sample (PyList [path; rpath]) st in   (* store pair *)
      incr_paired st
  | None =>
      let st := set_fileSets sample (PyList [path]) st in          (* no reverse found *)
      let st := incr_single st in
      print (msg_no_pair path) st
  end.

(** Body of [for sample in reverse_reads]; [path] is [reverse_reads[sample]]. *)
Definition unpaired_reverse_body (st : locals) (entry : string * string) : locals :=
  let '(sample, path) := entry in
  match fileSets st !! sample with
  | None =>
      let st := set_fileSets sample (PyStr path) st in              (* no forward found *)
      let st := incr_single st in
      print (msg_no_pair path) st
  | Some _ => st
  end.

(** The two loops that store the pairs. A Python 2 [dict] is iterated in an
    unspecified order; [map_to_list] fixes one, and [store_pairs_any_order]
    shows that the mapping and the counters do not depend on it. *)
Definition store_pairs (st : locals) : locals :=
  let st := foldl pair_body st (map_to_list (forward_reads st)) in
  foldl unpaired_reverse_body st (map_to_list (reverse_reads st)).

(** The summary lines printed before returning. *)
Definition print_totals (st : locals) : locals :=
  let st :=
    if (0 <? num_paired_readsets st)
    then print ("Total paired readsets found:" +:+ pretty (num_paired_readsets st)) st
    else st in
  if (0 <? num_single_readsets st)
  then print ("Total single reads found:" +:+ pretty (num_single_readsets st)) st
  else st.

(** [read_file_sets(args)]. The function returns [fileSets]; the embedding
    returns all the locals at the [return], so that the counters and the
    printed lines can be spoken about. A non-empty list is true. *)
Definition read_file_sets (args : Args.t) : option locals :=
  let st := init_locals in
  st ←
    match Args.input_se args, Args.input_pe args with
    | _ :: _, _ =>
        (* single end *)
        Some (foldl se_body st (Args.input_se args))
    | [], _ :: _ =>
        (* paired end *)
        st ← pe_loop args st (Args.input_pe args);
        Some (store_pairs st)
    | [], [] => Some st
    end;
  Some (print_totals st).

(** ** The consumer in [main] *)

(** [len(fastq)] *)
Definition py_len (v : pyval) : nat :=
  match v with
  | PyList l => length l
  | PyStr s => String.length s
  end.

(** [fastq[i]]: an element of a list, or the one-character string at
    position [i] of a [str]; [None] stands for [IndexError]. *)
Definition py_item (i : nat) (v : pyval) : option string :=
  match v with
  | PyList l => l !! i
  | PyStr s => (fun c => String c EmptyString) <$> String.get i s
  end.

(** The input options that [main] appends to the command of one sample. *)
Definition main_input_options (args : Args.t) (fastq : pyval) : option string :=
  if (1 <? py_len fastq) then
    f0 ← py_item 0 fastq;
    f1 ← py_item 1 fastq;
    Some (" --input_pe " +:+ f0 +:+ " " +:+ f1
          +:+ " --forward " +:+ Args.forward args
          +:+ " --reverse " +:+ Args.reverse args)
  else
    f0 ← py_item 0 fastq;
    Some (" --input_se " +:+ f0).

(** The command line with the default designators. *)
Definition default_args (se pe : list string) : Args.t := Args.mk se pe "_1" "_2".

(** ** Vocabulary of the properties *)

(** Outcome of a call: the value it returns or the exception it raises. *)
Inductive exception : Type := InvalidPathError.

Inductive outcome (A : Type) : Type :=
| Returned (a : A)
| Raised (e : exception).
Arguments Returned {A} a.
Arguments Raised {A} e.

(** A call of [get_readFile_components] on a [str]. Its body has no [raise],
    and [os.path.split], [re.match] and [os.path.splitext] return on every
    [str]: the call returns on every input. *)
Definition call_get_readFile_components (full_file_path : string)
    : outcome (string * string * string) :=
  Returned (get_readFile_components full_file_path).

(** The basename of a path: the second component of [os.path.split]. *)
Definition basename (p : string) : string := (OsPath.split p).2.

(** The paths an entry of [fileSets] holds. *)
Definition files_of (v : pyval) : list string :=
  match v with
  | PyList l => l
  | PyStr s => [s]
  end.

(** File [f] is among the files stored under key [k]. *)
Definition appears_in (f k : string) (st : locals) : Prop :=
  ∃ v, fileSets st !! k = Some v ∧ f ∈ files_of v.

Definition in_exactly_one_entry (f : string) (st : locals) : Prop :=
  ∃ k, appears_in f k st ∧ ∀ k', appears_in f k' st → k' = k.

(** Every character of [p] matches the atom [a]. *)
Fixpoint all_match (a : Re.atom) (p : string) : bool :=
  match p with
  | EmptyString => true
  | String c p' => Re.atom_match a c && all_match a p'
  end.

(** [strip_prefix d s] is the rest of [s] after a leading [d]. *)
Fixpoint strip_prefix (d s : string) : option string :=
  match d, s with
  | EmptyString, _ => Some s
  | String c d', String a s' =>
      if Ascii.eqb a c then strip_prefix d' s' else None
  | String _ _, EmptyString => None
  end.

(** A string without a newline character. *)
Definition no_newline (s : string) : bool := all_match Re.ADot s.

(** The key under which the single-end loop stores [fastq]. *)
Definition se_key (fastq : string) : string :=
  let '(file_path, file_name_before_ext, full_ext) := get_readFile_components fastq in
  match Re.re_match illumina_pattern file_name_before_ext with
  | None => file_name_before_ext
  | Some g => Re.group 0 g
  end.

(** What the paired-end loop decides for one file: the bucket and the key. *)
Inductive read_class : Type :=
| Forward (sample : string)      (* stored in [forward_reads] *)
| Reverse (sample : string)      (* stored in [reverse_reads] *)
| Ambiguous (stem : string)      (* MiSeq name without R1 or R2, stored in [fileSets] *)
| Undetermined.                  (* reported and stored nowhere *)

(** The decision tree of [pe_body], without the stores. *)
Definition pe_class (args : Args.t) (fastq : string) : option read_class :=
  let '(file_path, file_name_before_ext, full_ext) := get_readFile_components fastq in
  match Re.re_match illumina_pattern file_name_before_ext with
  | None =>
      pf ← designator_pattern (Args.forward args);
      match Re.re_match pf file_name_before_ext with
      | Some g => Some (Forward (Re.group 0 g))
      | None =>
          pr ← designator_pattern (Args.reverse args);
          match Re.re_match pr file_name_before_ext with
          | Some g => Some (Reverse (Re.group 0 g))
          | None => Some Undetermined
          end
      end
  | Some g =>
      if String.eqb (Re.group 3 g) "_R1" then Some (Forward (Re.group 0 g))
      else if String.eqb (Re.group 3 g) "_R2" then Some (Reverse (Re.group 0 g))
      else Some (Ambiguous file_name_before_ext)
  end.

(** The stores and prints of [pe_body] for each decision. *)
Definition apply_class (c : read_class) (fastq : string) (st : locals) : locals :=
  match c with
  | Forward baseName => set_forward_reads baseName fastq st
  | Reverse baseName => set_reverse_reads baseName fastq st
  | Ambiguous stem =>
      incr_single
        (set_fileSets stem (PyStr fastq)
           (print msg_miseq (print (msg_undetermined fastq) st)))
  | Undetermined => print (msg_undetermined fastq) st
  end.

(** What follows the first group of [suffix_regex d], as a function of the
    rest [s'] of the input [s]. *)
Definition suffix_rest (d s s' : string) : option (list string) :=
  match strip_prefix d s' with
  | Some rest =>
      if String.eqb rest "" || String.eqb rest (String Re.newline "")
      then Some [Re.consumed s s'; Re.consumed s' rest]
      else None
  | None => None
  end.

(** [s.endswith(d)] *)
Definition ends_with (d s : string) : bool :=
  (String.length d <=? String.length s)%nat
  && String.eqb (Py.drop (String.length s - String.length d) s) d.

(** Number of entries of [m] that hold [n] files. *)
Definition count_holding (n : nat) (m : gmap string pyval) : nat :=
  length (filter (λ kv, length (files_of kv.2) = n) (map_to_list m)).

(** 1 when [o] is an entry that holds [n] files, 0 otherwise. *)
Definition indicator (n : nat) (o : option pyval) : nat :=
  match o with
  | Some v => if decide (length (files_of v) = n) then 1 else 0
  | None => 0
  end.

(** The entry that the first pairing loop stores for a forward read. *)
Definition pair_value (rev : gmap string string) (sample path : string) : pyval :=
  match rev !! sample with
  | Some rpath => PyList [path; rpath]
  | None => PyList [path]
  end.

(** The stems stored by the paired-end loop for the MiSeq-shaped files of
    [l] whose direction is neither R1 nor R2, in input order. *)
Definition ambiguous_stems (args : Args.t) (l : list string) : list string :=
  omap (λ f, match pe_class args f with
             | Some (Ambiguous stem) => Some stem
             | _ => None
             end) l.

(** The key of the bucket a decision stores into, if any. *)
Definition class_key (c : read_class) : option string :=
  match c with
  | Forward sample | Reverse sample => Some sample
  | Ambiguous stem => Some stem
  | Undetermined => None
  end.

(** ** Vocabulary of the further properties *)

(** The key under which the paired-end loop stores [fastq] in
    [forward_reads], in [reverse_reads], or itself in [fileSets]. *)
Definition forward_key (args : Args.t) (fastq : string) : option string :=
  match pe_class args fastq with
  | Some (Forward sample) => Some sample
  | _ => None
  end.

Definition reverse_key (args : Args.t) (fastq : string) : option string :=
  match pe_class args fastq with
  | Some (Reverse sample) => Some sample
  | _ => None
  end.

Definition ambiguous_key (args : Args.t) (fastq : string) : option string :=
  match pe_class args fastq with
  | Some (Ambiguous stem) => Some stem
  | _ => None
  end.

(** The last file of [l] that [key] sends to [k]. *)
Definition last_with (key : string → option string) (k : string)
    (l : list string) : option string :=
  last (filter (λ f, key f = Some k) l).

(** [c in s] for a one-character [c]. *)
Fixpoint has_char (c : ascii) (s : string) : bool :=
  match s with
  | EmptyString => false
  | String a s' => Ascii.eqb a c || has_char c s'
  end.

(** The stem and the extension that [get_readFile_components] gives for a
    path. *)
Definition stem_of (fastq : string) : string :=
  (get_readFile_components fastq).1.2.

Definition ext_of (fastq : string) : string :=
  (get_readFile_components fastq).2.

(** An input file that the returned mapping keeps. In single-end mode: the
    last input file that derives its key. In paired-end mode: the last
    forward read of its key; or the last reverse read of its key, when a
    forward read has that key or no MiSeq-shaped file of unknown direction
    has it as stem; or the last MiSeq-shaped file of unknown direction with
    its stem, when no forward read has that stem as key. *)
Definition kept (args : Args.t) (f : string) : Prop :=
  match Args.input_se args with
  | _ :: _ =>
      last (filter (λ g, se_key g = se_key f) (Args.input_se args)) = Some f
  | [] =>
      match pe_class args f with
      | Some (Forward k) =>
          last_with (forward_key args) k (Args.input_pe args) = Some f
      | Some (Reverse k) =>
          last_with (reverse_key args) k (Args.input_pe args) = Some f
          ∧ (is_Some (last_with (forward_key args) k (Args.input_pe args))
             ∨ last_with (ambiguous_key args) k (Args.input_pe args) = None)
      | Some (Ambiguous k) =>
          last_with (ambiguous_key args) k (Args.input_pe args) = Some f
          ∧ last_with (forward_key args) k (Args.input_pe args) = None
      | _ => False
      end
  end.

(** What the paired-end loop prints for one file. *)
Definition pe_lines (args : Args.t) (fastq : string) : list string :=
  match pe_class args fastq with
  | Some (Ambiguous _) => [msg_undetermined fastq; msg_miseq]
  | Some Undetermined => [msg_undetermined fastq]
  | _ => []
  end.

(** The summary lines for given counts. *)
Definition totals_lines (paired single : nat) : list string :=
  (if (0 <? paired) then ["Total paired readsets found:" +:+ pretty paired] else [])
  ++ (if (0 <? single) then ["Total single reads found:" +:+ pretty single] else []).

(** ** More of Python's built-ins *)

Module Builtin.

(** [sub in s] for two [str]. *)
Fixpoint contains (sub s : string) : bool :=
  match strip_prefix sub s with
  | Some _ => true
  | None =>
      match s with
      | String _ s' => contains sub s'
      | EmptyString => false
      end
  end.

(** [sep.join(l)] *)
Definition join (sep : string) (l : list string) : string :=
  match l with
  | [] => EmptyString
  | x :: l' => foldl (λ acc y, acc +:+ sep +:+ y) x l'
  end.

Definition is_digit (c : ascii) : bool :=
  (48 <=? nat_of_ascii c)%nat && (nat_of_ascii c <=? 57)%nat.

Definition digit_value (c : ascii) : Z := Z.of_nat (nat_of_ascii c) - 48.

Fixpoint int_from (acc : Z) (s : string) : option Z :=
  match s with
  | EmptyString => Some acc
  | String c s' =>
      if is_digit c then int_from (acc * 10 + digit_value c) s' else None
  end.

(** [int(s)] for a [str] made of decimal digits, a Python integer being
    unbounded. [None] stands for [ValueError] on the empty string, and for
    every other string: the signs, blanks and prefixes that [int] also
    reads are outside the embedding. *)
Definition int (s : string) : option Z :=
  match s with
  | EmptyString => None
  | _ => int_from 0 s
  end.

(** [a >= b] for two triples of integers: the order is lexicographic. *)
Definition tuple3_ge (a b : Z * Z * Z) : bool :=
  let '(a1, a2, a3) := a in
  let '(b1, b2, b3) := b in
  if (a1 =? b1)%Z then
    if (a2 =? b2)%Z then (b3 <=? a3)%Z else (b2 <? a2)%Z
  else (b1 <? a1)%Z.

(** The characters that [str.strip()] and [str.split()] take for blanks:
    space, tab, newline, return, vertical tab and form feed. *)
Definition is_space (c : ascii) : bool :=
  (nat_of_ascii c =? 32)%nat
  || ((9 <=? nat_of_ascii c)%nat && (nat_of_ascii c <=? 13)%nat).

(** [s.lstrip()], [s.rstrip()] and [s.strip()] *)
Fixpoint lstrip (s : string) : string :=
  match s with
  | String c s' => if is_space c then lstrip s' else s
  | EmptyString => EmptyString
  end.

Fixpoint rstrip (s : string) : string :=
  match s with
  | EmptyString => EmptyString
  | String c s' =>
      match rstrip s' with
      | EmptyString => if is_space c then EmptyString else String c EmptyString
      | r => String c r
      end
  end.

Definition strip (s : string) : string := rstrip (lstrip s).

(** [s.split()]: the maximal runs of characters other than blanks.
    [word] holds the characters of the current run, last first. *)
Fixpoint split_from (word : list ascii) (s : string) : list string :=
  let flush := match word with
               | [] => []
               | _ => [String.string_of_list_ascii (rev word)]
               end in
  match s with
  | EmptyString => flush
  | String c s' =>
      if is_space c then flush ++ split_from [] s'
      else split_from (c :: word) s'
  end.

Definition split (s : string) : list string := split_from [] s.

End Builtin.

(** ** The fragment of [re] that [utils.py] and [main] use

    Besides what [read_file_sets] uses, the patterns of [utils.py] and of
    [main] have the digit class, the greedy one-or-more and the lazy
    zero-or-more repetitions, and they are used with [search], which tries
    every start position from the left. *)

Module Re2.

Inductive atom : Type :=
| AChar (c : ascii)   (* a literal character *)
| ADot                (* [.] *)
| ADigit.             (* the class of the decimal digits *)

Inductive regex : Type :=
| RAtom (a : atom)
| RStar (a : atom)              (* greedy [a*] *)
| RLazy (a : atom)              (* lazy [a*?] *)
| RPlus (a : atom)              (* greedy [a+] *)
| REnd                          (* [$] *)
| RSeq (r1 r2 : regex)
| RGroup (r : regex)            (* [( r )], capturing, named or not *)
| REmpty.

Definition atom_match (a : atom) (c : ascii) : bool :=
  match a with
  | AChar c' => Ascii.eqb c c'
  | ADot => negb (Ascii.eqb c Re.newline)
  | ADigit => Builtin.is_digit c
  end.

(** The greedy repetition: as many characters as satisfy [m], given back
    one at a time until [k] succeeds. *)
Fixpoint star {A} (m : ascii → bool) (s : string) (k : string → option A)
    : option A :=
  match s with
  | String c s' =>
      if m c then
        match star m s' k with
        | Some x => Some x
        | None => k s
        end
      else k s
  | EmptyString => k s
  end.

(** The lazy repetition: no character at first, one more each time [k]
    fails. *)
Fixpoint star_lazy {A} (m : ascii → bool) (s : string) (k : string → option A)
    : option A :=
  match k s with
  | Some x => Some x
  | None =>
      match s with
      | String c s' => if m c then star_lazy m s' k else None
      | EmptyString => None
      end
  end.

Fixpoint run (r : regex) (s : string) (caps : list string)
    (k : string → list string → option (list string)) : option (list string) :=
  match r with
  | RAtom a =>
      match s with
      | String c s' => if atom_match a c then k s' caps else None
      | EmptyString => None
      end
  | RStar a => star (atom_match a) s (λ s', k s' caps)
  | RLazy a => star_lazy (atom_match a) s (λ s', k s' caps)
  | RPlus a =>
      match s with
      | String c s' =>
          if atom_match a c then star (atom_match a) s' (λ s'', k s'' caps)
          else None
      | EmptyString => None
      end
  | REnd =>
      if String.eqb s EmptyString || String.eqb s (String Re.newline EmptyString)
      then k s caps else None
  | RSeq r1 r2 => run r1 s caps (λ s' caps', run r2 s' caps' k)
  | RGroup r' => run r' s caps (λ s' caps', k s' (caps' ++ [Re.consumed s s']))
  | REmpty => k s caps
  end.

(** A match anchored at the start of [s]; the result stands for
    [m.groups()]. *)
Definition re_match (r : regex) (s : string) : option (list string) :=
  run r s [] (λ _ caps, Some caps).

(** [re.search(pattern, s)]: the match at the leftmost position that has
    one. *)
Fixpoint search (r : regex) (s : string) : option (list string) :=
  match re_match r s with
  | Some g => Some g
  | None =>
      match s with
      | String _ s' => search r s'
      | EmptyString => None
      end
  end.

Fixpoint literal (d : string) : regex :=
  match d with
  | EmptyString => REmpty
  | String c d' => RSeq (RAtom (AChar c)) (literal d')
  end.

(** [m.group(i)] for [i] from 1: the groups are numbered from 1 in the
    order of their opening parentheses. *)
Definition group (i : nat) (g : list string) : string :=
  default EmptyString (g !! (i - 1)).

End Re2.

(** ** [utils.py]: the version checks *)

Module Utils.

(** How [check_output(command_list, stderr=STDOUT)] ends. *)
Inductive check_output_result : Type :=
| Output (output : string)                  (* exit status 0 *)
| CalledProcessError (returncode : Z) (output : string)
| OSError (message : string).               (* the command could not be run *)

(** How a call ends: it returns, or [exit] ends the program, or an
    exception leaves it. *)
Inductive completion : Type :=
| Returns
| SystemExit (code : Z)
| ValueError.

(** The messages passed to [logging.error], and how the call ends. *)
Definition run : Type := list string * completion.

(** What a version checker does: the messages it logs and the verdict it
    returns; [None] when it raises [ValueError]. *)
Definition version_checker : Type := string → option (list string * bool).

Definition check_command_version (command_list : list string)
    (checker : version_checker) (command_name required_version : string)
    (outcome : check_output_result) : run :=
  let check (command_stdout : string) : run :=
    match checker command_stdout with
    | None => ([], ValueError)
    | Some (logged, true) => (logged, Returns)
    | Some (logged, false) =>
        (logged ++
         ["Incorrect version of " +:+ command_name +:+ " installed.";
          command_name +:+ " version " +:+ required_version
            +:+ " is required by SRST2."],
         SystemExit (-1))
    end in
  match outcome with
  | Output command_stdout => check command_stdout
  | OSError e =>
      (["Failed command: " +:+ Builtin.join " " command_list;
        e;
        "Could not determine the version of " +:+ command_name +:+ ".";
        "Do you have " +:+ command_name +:+ " installed in your PATH?"],
       SystemExit (-1))
  | CalledProcessError _ output =>
      (* some programs return a non-zero exit status when asked for the
         version; it is ignored *)
      check output
  end.

Definition check_command_version_literal (command_list : list string)
    (version_str command_name required_version : string)
    (outcome : check_output_result) : run :=
  let checker (stdout_text : string) :=
    Some ([], Builtin.contains version_str stdout_text) in
  check_command_version command_list checker command_name required_version outcome.

Definition SAMTOOLS_VERSION_STR : string := "0.1.18".

Definition check_samtools_version (outcome : check_output_result) : run :=
  check_command_version_literal ["samtools"]
    ("Version: " +:+ SAMTOOLS_VERSION_STR) "samtools" SAMTOOLS_VERSION_STR outcome.

(** The pattern [bowtie2], [.*], [ version ], then three groups of one or
    more digits separated by escaped periods. *)
Definition BOWTIE_VERSION_REGEX : Re2.regex :=
  Re2.RSeq (Re2.literal "bowtie2")
    (Re2.RSeq (Re2.RStar Re2.ADot)
       (Re2.RSeq (Re2.literal " version ")
          (Re2.RSeq (Re2.RGroup (Re2.RPlus Re2.ADigit))
             (Re2.RSeq (Re2.RAtom (Re2.AChar "."))
                (Re2.RSeq (Re2.RGroup (Re2.RPlus Re2.ADigit))
                   (Re2.RSeq (Re2.RAtom (Re2.AChar "."))
                      (Re2.RGroup (Re2.RPlus Re2.ADigit)))))))).

Definition MINIMUM_BOWTIE_VERSION : Z * Z * Z := (2, 1, 0)%Z.

(** The [checker] of [check_bowtie_version]. *)
Definition bowtie_checker : version_checker := λ stdout_text,
  match Re2.search BOWTIE_VERSION_REGEX stdout_text with
  | Some g =>
      major ← Builtin.int (Re2.group 1 g);
      minor ← Builtin.int (Re2.group 2 g);
      patch ← Builtin.int (Re2.group 3 g);
      Some ([], Builtin.tuple3_ge (major, minor, patch) MINIMUM_BOWTIE_VERSION)
  | None =>
      Some (["Cannot find bowtie version number in output of bowtie2 --version"],
            false)
  end.

Definition check_bowtie_version (outcome : check_output_result) : run :=
  check_command_version ["bowtie2"; "--version"] bowtie_checker "bowtie"
    (">= " +:+ "2.1.0") outcome.

End Utils.

(** Every character of [s] satisfies [m]. *)
Fixpoint all_chars (m : ascii → bool) (s : string) : bool :=
  match s with
  | EmptyString => true
  | String c s' => m c && all_chars m s'
  end.

(** A non-empty string of decimal digits. *)
Definition digits (s : string) : bool :=
  negb (String.eqb s "") && all_chars Builtin.is_digit s.

(** A string that is empty or begins with a newline: what may follow the
    end of a line. *)
Definition ends_line (rest : string) : bool :=
  match rest with
  | EmptyString => true
  | String c _ => Ascii.eqb c Re.newline
  end.

(** The text that [check_output] captured, when the command could be
    run. *)
Definition command_stdout (outcome : Utils.check_output_result) : option string :=
  match outcome with
  | Utils.Output output | Utils.CalledProcessError _ output => Some output
  | Utils.OSError _ => None
  end.

(** An output of [bowtie2 --version]: some text, [bowtie2], the rest of the
    program name, [ version ], three numbers separated by periods, and
    what follows. *)
Definition bowtie_output (pre mid major minor patch rest : string) : string :=
  pre +:+ "bowtie2" +:+ mid +:+ " version "
    +:+ major +:+ "." +:+ minor +:+ "." +:+ patch +:+ rest.

(** What [check_command_version] logs and does for bowtie when the checker
    returns false. *)
Definition bowtie_rejected (logged : list string) : Utils.run :=
  (logged ++ ["Incorrect version of bowtie installed.";
              "bowtie version >= 2.1.0 is required by SRST2."],
   Utils.SystemExit (-1)).

(** ** [srst2_gui.py]: the helpers that read the form *)

Module Gui.

(** What a Tk variable or a file dialogue hands over. *)
#[warnings="-register-all"]
Inductive value : Type :=
| VStr (s : string)             (* a [str] *)
| VTuple (items : list value)   (* a [tuple] *)
| VOther.                       (* neither: [unicode] text, a number, [None] *)

(** [tuple(s)] for a [str]: its characters, each a [str] of length one. *)
Definition tuple_of_str (s : string) : list value :=
  (λ c, VStr (String c EmptyString)) <$> String.list_ascii_of_string s.

(** [None] stands for Python's [None]. *)
Definition get_one_file (v : value) : option string :=
  match v with
  | VStr s =>
      if (0 <? String.length (Builtin.strip s))%nat
      then Some (Builtin.strip s) else None
  | _ => None
  end.

Definition get_filenames_tuple (v : value) : option (list value) :=
  match v with
  | VStr s =>
      if (0 <? String.length (Builtin.strip s))%nat
      then Some (tuple_of_str (Builtin.strip s)) else None
  | VTuple items => Some items
  | VOther => None
  end.

End Gui.

(** ** [main]: the databases named in [--other_args] *)

(** The three patterns: [--mlst_db] or [--gene_db] in a group, a space, a
    group holding the lazy [.*?], then a space and [.*], or a space and two
    dashes, or [$]. *)
Definition mlst_db_pattern : Re2.regex :=
  Re2.RSeq (Re2.RGroup (Re2.literal "--mlst_db"))
    (Re2.RSeq (Re2.RAtom (Re2.AChar " "))
       (Re2.RSeq (Re2.RGroup (Re2.RLazy Re2.ADot))
          (Re2.RSeq (Re2.RAtom (Re2.AChar " ")) (Re2.RStar Re2.ADot)))).

Definition gene_db_dashes_pattern : Re2.regex :=
  Re2.RSeq (Re2.RGroup (Re2.literal "--gene_db"))
    (Re2.RSeq (Re2.RAtom (Re2.AChar " "))
       (Re2.RSeq (Re2.RGroup (Re2.RLazy Re2.ADot)) (Re2.literal " --"))).

Definition gene_db_end_pattern : Re2.regex :=
  Re2.RSeq (Re2.RGroup (Re2.literal "--gene_db"))
    (Re2.RSeq (Re2.RAtom (Re2.AChar " "))
       (Re2.RSeq (Re2.RGroup (Re2.RLazy Re2.ADot)) Re2.REnd)).

(** The list [db] that [main] passes to [bowtie_index] and to
    [samtools_index]. An option [--other_args] that was not given is
    [None], on which [re.search] raises [TypeError]: the result [None]. *)
Definition main_db (other_args : option string) : option (list string) :=
  other_args ← other_args;
  let db := [] in
  let m := Re2.search mlst_db_pattern other_args in
  let db :=
    match m with
    | Some m => db ++ [Re2.group 2 m]
    | None => db
    end in
  let g := Re2.search gene_db_dashes_pattern other_args in
  match g with
  | Some g => Some (db ++ Builtin.split (Re2.group 2 g))
  | None =>
      let g := Re2.search gene_db_end_pattern other_args in
      match g with
      | Some g => Some (db ++ Builtin.split (Re2.group 2 g))
      | None => Some db
      end
  end.

(** The part of [db] that the two [--gene_db] patterns contribute. *)
Definition gene_db_of (other_args : string) : list string :=
  match Re2.search gene_db_dashes_pattern other_args with
  | Some g => Builtin.split (Re2.group 2 g)
  | None =>
      match Re2.search gene_db_end_pattern other_args with
      | Some g => Builtin.split (Re2.group 2 g)
      | None => []
      end
  end.


(** * Properties *)

#[local] Arguments pair_body : simpl never.
#[local] Arguments unpaired_reverse_body : simpl never.

(** ** Checks of the embedding against the documented library behaviour *)

Example split_usr_bin :
  OsPath.split "/usr/local/bin/srst2" = ("/usr/local/bin", "srst2")
  ∧ OsPath.split "reads.fastq" = ("", "reads.fastq")
  ∧ OsPath.split "/reads.fastq" = ("/", "reads.fastq")
  ∧ OsPath.split "data//run1/" = ("data//run1", "").
Proof. vm_compute. split_and!; reflexivity. Qed.

Example splitext_leading_dots :
  OsPath.splitext "reads.fastq" = ("reads", ".fastq")
  ∧ OsPath.splitext "foo.bar.exe" = ("foo.bar", ".exe")
  ∧ OsPath.splitext ".cshrc" = (".cshrc", "")
  ∧ OsPath.splitext "/foo/....jpg" = ("/foo/....jpg", "")
  ∧ OsPath.splitext "a.b/c" = ("a.b/c", "").
Proof. vm_compute. split_and!; reflexivity. Qed.

(** The groups that the comment in the source gives for a MiSeq name. *)
Example illumina_groups :
  Re.re_match illumina_pattern "samplename_S1_L001_R1_001"
  = Some ["samplename"; "_S1"; "_L001"; "_R1"; "_001"].
Proof. vm_compute. reflexivity. Qed.

Example components_of_gzipped_fastq :
  get_readFile_components "/data/run1/sampleA_1.fastq.gz"
  = ("/data/run1", "sampleA_1", ".fastq.gz")
  ∧ get_readFile_components "sampleA_1.fastq" = ("", "sampleA_1", ".fastq").
Proof. vm_compute. split; reflexivity. Qed.

(** ** Facts about strings *)

Section string_facts.

Lemma str_app_nil_l (s : string) : "" +:+ s = s.
Proof. reflexivity. Qed.

Lemma str_app_cons (a : ascii) (s t : string) :
  String a s +:+ t = String a (s +:+ t).
Proof. reflexivity. Qed.

Lemma str_app_nil_r (s : string) : s +:+ "" = s.
Proof.
  induction s as [|a s IH]; [reflexivity|].
  rewrite str_app_cons, IH. reflexivity.
Qed.

Lemma str_app_assoc (s t u : string) : (s +:+ t) +:+ u = s +:+ (t +:+ u).
Proof.
  induction s as [|a s IH]; [reflexivity|].
  rewrite !str_app_cons, IH. reflexivity.
Qed.

Lemma str_length_app (s t : string) :
  String.length (s +:+ t) = (String.length s + String.length t)%nat.
Proof.
  induction s as [|a s IH]; [reflexivity|].
  rewrite str_app_cons. simpl. rewrite IH. reflexivity.
Qed.

Lemma take_drop (n : nat) (s : string) : Py.take n s +:+ Py.drop n s = s.
Proof.
  revert s. induction n as [|n IH]; intros [|a s]; try reflexivity.
  simpl. rewrite str_app_cons, IH. reflexivity.
Qed.

Lemma take_app_length (p t : string) :
  Py.take (String.length p) (p +:+ t) = p.
Proof.
  induction p as [|a p IH]; [destruct t; reflexivity|].
  rewrite str_app_cons. simpl. rewrite IH. reflexivity.
Qed.

Lemma take_all (s : string) : Py.take (String.length s) s = s.
Proof.
  rewrite <- (str_app_nil_r s) at 2. apply take_app_length.
Qed.

Lemma consumed_app (p t : string) : Re.consumed (p +:+ t) t = p.
Proof.
  unfold Re.consumed. rewrite str_length_app.
  replace (String.length p + String.length t - String.length t)%nat
    with (String.length p) by lia.
  apply take_app_length.
Qed.

Lemma drop_app_length (p t : string) :
  Py.drop (String.length p) (p +:+ t) = t.
Proof.
  induction p as [|a p IH]; [destruct t; reflexivity|].
  rewrite str_app_cons. simpl. exact IH.
Qed.

Lemma ends_with_app (b d : string) : ends_with d (b +:+ d) = true.
Proof.
  unfold ends_with. rewrite str_length_app.
  replace (String.length b + String.length d - String.length d)%nat
    with (String.length b) by lia.
  rewrite drop_app_length, String.eqb_refl, andb_true_r.
  apply Nat.leb_le. lia.
Qed.

Lemma consumed_all (s : string) : Re.consumed s "" = s.
Proof.
  unfold Re.consumed. simpl. rewrite Nat.sub_0_r. apply take_all.
Qed.

End string_facts.

(** ** Facts about the matcher *)

Module ReFacts.
Import Re.

Lemma strip_prefix_Some d s rest :
  strip_prefix d s = Some rest ↔ s = d +:+ rest.
Proof.
  revert s. induction d as [|c d IH]; intros s; simpl.
  - rewrite str_app_nil_l. split; [intros [= ->]|intros ->]; reflexivity.
  - rewrite str_app_cons. destruct s as [|a s]; [split; discriminate|].
    destruct (Ascii.eqb_spec a c) as [->|Hne].
    + rewrite IH. split; [intros ->; reflexivity|intros [= ->]; reflexivity].
    + split; [discriminate|intros [= ? _]; contradiction].
Qed.

Lemma strip_prefix_app d rest : strip_prefix d (d +:+ rest) = Some rest.
Proof. apply strip_prefix_Some. reflexivity. Qed.

Lemma strip_prefix_self d : strip_prefix d d = Some "".
Proof. apply strip_prefix_Some. rewrite str_app_nil_r. reflexivity. Qed.

Lemma star_ext {A} a s (k1 k2 : string → option A) :
  (∀ s', k1 s' = k2 s') → star a s k1 = star a s k2.
Proof.
  intros Hk. induction s as [|c s IH]; simpl; [apply Hk|].
  rewrite IH, Hk. reflexivity.
Qed.

(** A success of [a*] followed by [k] splits the input into characters
    that match [a] and a rest on which [k] succeeds. *)
Lemma star_sound {A} a s (k : string → option A) x :
  star a s k = Some x →
  ∃ p t, s = p +:+ t ∧ all_match a p = true ∧ k t = Some x.
Proof.
  induction s as [|c s IH]; simpl.
  - intros Hk. exists "", "". auto.
  - destruct (atom_match a c) eqn:Hc.
    + destruct (star a s k) as [y|] eqn:Hs.
      * intros [= ->]. destruct (IH eq_refl) as (p & t & -> & Hp & Ht).
        exists (String c p), t. simpl. rewrite Hc, Hp. auto.
      * intros Hk. exists "", (String c s). auto.
    + intros Hk. exists "", (String c s). auto.
Qed.

(** Greediness: the split with the longest matching prefix on whose rest
    [k] succeeds is the one chosen. *)
Lemma star_greedy {A} a p t (k : string → option A) x :
  all_match a p = true →
  k t = Some x →
  (∀ p' t', p +:+ t = p' +:+ t' →
     (String.length p < String.length p')%nat → k t' = None) →
  star a (p +:+ t) k = Some x.
Proof.
  induction p as [|c p IH]; intros Hp Hk Hlong.
  - rewrite str_app_nil_l in *. destruct t as [|c t]; simpl; [exact Hk|].
    destruct (atom_match a c); [|exact Hk].
    destruct (star a t k) as [y|] eqn:Hs; [|exact Hk].
    apply star_sound in Hs as (p' & t' & -> & _ & Ht').
    rewrite (Hlong (String c p') t') in Ht'; [discriminate|reflexivity|simpl; lia].
  - simpl in Hp. apply andb_prop in Hp as [Hc Hp].
    rewrite str_app_cons. simpl. rewrite Hc.
    rewrite IH; auto.
    intros p' t' Heq Hlen. apply (Hlong (String c p') t').
    + rewrite str_app_cons, Heq. reflexivity.
    + simpl. lia.
Qed.

Lemma run_literal d s caps k :
  run (literal d) s caps k =
  match strip_prefix d s with
  | Some rest => k rest caps
  | None => None
  end.
Proof.
  revert s. induction d as [|c d IH]; intros s; [reflexivity|].
  destruct s as [|a s]; [reflexivity|]. simpl.
  destruct (Ascii.eqb a c); [apply IH|reflexivity].
Qed.

Lemma all_match_app a p t :
  all_match a (p +:+ t) = all_match a p && all_match a t.
Proof.
  induction p as [|c p IH]; [reflexivity|].
  rewrite str_app_cons. simpl. rewrite IH, andb_assoc. reflexivity.
Qed.

Lemma suffix_regex_unfold d s :
  re_match (suffix_regex d) s = star ADot s (suffix_rest d s).
Proof.
  unfold re_match, suffix_regex. simpl. apply star_ext. intros s'.
  rewrite run_literal. unfold suffix_rest.
  destruct (strip_prefix d s') as [rest|]; reflexivity.
Qed.

(** The suffix pattern on a string that ends with [d] after a part without
    newline: the first group is that part. *)
Lemma suffix_match d base :
  no_newline base = true →
  re_match (suffix_regex d) (base +:+ d) = Some [base; d].
Proof.
  intros Hb. rewrite suffix_regex_unfold. apply star_greedy.
  - exact Hb.
  - unfold suffix_rest. rewrite strip_prefix_self. simpl.
    rewrite consumed_app, consumed_all. reflexivity.
  - intros p' t' Heq Hlen. unfold suffix_rest.
    destruct (strip_prefix d t') as [rest|] eqn:E; [|reflexivity].
    apply strip_prefix_Some in E. subst t'.
    apply (f_equal String.length) in Heq. rewrite !str_length_app in Heq. lia.
Qed.

(** On a string without newline the suffix pattern only matches a string
    that ends with [d]. *)
Lemma suffix_match_inv d s g :
  no_newline s = true →
  re_match (suffix_regex d) s = Some g →
  ∃ base, s = base +:+ d.
Proof.
  intros Hs. rewrite suffix_regex_unfold. intros Hm.
  apply star_sound in Hm as (p & t & -> & _ & Ht).
  unfold suffix_rest in Ht.
  destruct (strip_prefix d t) as [rest|] eqn:E; [|discriminate].
  apply strip_prefix_Some in E. subst t.
  unfold no_newline in Hs. rewrite !all_match_app in Hs.
  apply andb_prop in Hs as [_ Hs]. apply andb_prop in Hs as [_ Hrest].
  destruct (String.eqb_spec rest "") as [->|_].
  - exists p. rewrite str_app_nil_r. reflexivity.
  - destruct (String.eqb_spec rest (String newline "")) as [->|_]; discriminate.
Qed.

Lemma designator_pattern_plain d :
  plain d = true → designator_pattern d = Some (suffix_regex d).
Proof. unfold designator_pattern. intros ->. reflexivity. Qed.

End ReFacts.

(** ** Facts about lists and maps *)

Lemma filter_ext_elem {A} (P Q : A → Prop)
    `{!∀ x, Decision (P x), !∀ x, Decision (Q x)} (l : list A) :
  (∀ x, x ∈ l → P x ↔ Q x) → filter P l = filter Q l.
Proof.
  induction l as [|a l IH]; intros Hl; [reflexivity|].
  rewrite !filter_cons.
  rewrite IH by (intros x Hx; apply Hl; right; exact Hx).
  destruct (decide (P a)) as [Hp|Hp], (decide (Q a)) as [Hq|Hq];
    try reflexivity; exfalso; apply (Hl a) in Hp || apply (Hl a) in Hq;
    (contradiction || left).
Qed.

Lemma filter_none {A} (P : A → Prop) `{!∀ x, Decision (P x)} (l : list A) :
  (∀ x, x ∈ l → ¬ P x) → filter P l = [].
Proof.
  induction l as [|a l IH]; intros Hl; [reflexivity|].
  rewrite filter_cons, decide_False by (apply Hl; left).
  apply IH. intros x Hx. apply Hl. right. exact Hx.
Qed.

Lemma elem_of_keys_map_to_list {A} (m : gmap string A) k :
  k ∈ (map_to_list m).*1 ↔ is_Some (m !! k).
Proof.
  rewrite list_elem_of_fmap. split.
  - intros ([k' x] & -> & Hin). apply elem_of_map_to_list in Hin. eauto.
  - intros [x Hx]. exists (k, x). split; [reflexivity|].
    apply elem_of_map_to_list. exact Hx.
Qed.

Lemma not_elem_of_keys_map_to_list {A} (m : gmap string A) k :
  k ∉ (map_to_list m).*1 ↔ m !! k = None.
Proof. rewrite elem_of_keys_map_to_list, eq_None_not_Some. reflexivity. Qed.

(** ** Filename decomposition *)

Lemma splitext_reassemble (p : string) :
  (OsPath.splitext p).1 +:+ (OsPath.splitext p).2 = p.
Proof.
  unfold OsPath.splitext.
  destruct (_ && _); simpl; [apply take_drop|apply str_app_nil_r].
Qed.

(** When the gzip pattern does not match the file name, the stem and the
    extension put together give the file name back. *)
Lemma reassemble_without_gz_match (p : string) :
  Re.re_match gz_pattern (basename p) = None →
  ∀ dir stem ext, get_readFile_components p = (dir, stem, ext) →
  stem +:+ ext = basename p.
Proof.
  unfold get_readFile_components, basename.
  destruct (OsPath.split p) as [file_path file_name]; simpl.
  intros -> dir stem ext.
  pose proof (splitext_reassemble file_name) as Hsp.
  destruct (OsPath.splitext file_name) as [r e]; simpl in Hsp.
  intros [= _ <- <-]. rewrite str_app_nil_r. exact Hsp.
Qed.

(** On a name that ends with [.gz] after a part without newline, the gzip
    pattern captures that part. *)
Lemma gz_pattern_gz_suffix base :
  no_newline base = true →
  Re.re_match gz_pattern (base +:+ ".gz") = Some [base].
Proof.
  intros Hb. unfold Re.re_match, gz_pattern. simpl.
  apply ReFacts.star_greedy.
  - exact Hb.
  - simpl. rewrite consumed_app. reflexivity.
  - intros p' t' Heq Hlen.
    apply (f_equal String.length) in Heq. rewrite !str_length_app in Heq.
    destruct t' as [|c1 [|c2 [|c3 t'']]]; simpl in Heq |- *; try lia.
    + reflexivity.
    + destruct (negb _); reflexivity.
    + destruct (negb _); [|reflexivity]. destruct (Ascii.eqb c2 "g"); reflexivity.
Qed.

(** The round trip of C2 on the names the gzip test is meant for. *)
Lemma reassemble_gz_suffix (p base : string) :
  basename p = base +:+ ".gz" →
  no_newline base = true →
  ∀ dir stem ext, get_readFile_components p = (dir, stem, ext) →
  stem +:+ ext = basename p.
Proof.
  unfold get_readFile_components, basename.
  destruct (OsPath.split p) as [file_path file_name]; simpl.
  intros -> Hb dir stem ext. rewrite (gz_pattern_gz_suffix _ Hb).
  change (Re.group 0 [base]) with base.
  pose proof (splitext_reassemble base) as Hsp.
  destruct (OsPath.splitext base) as [r e]; simpl in Hsp.
  intros [= _ <- <-]. rewrite <- str_app_assoc, Hsp. reflexivity.
Qed.

(** C2: reassembling stem and full extension does not always give the file
    name back. The gzip test is the pattern [( .* ).gz] matched at the start
    of the name with a free end and an unescaped dot, so a name that merely
    contains [gz] is cut before it: [bigzebra_1.fastq] decomposes into the
    stem [b] and the extension [.gz]. *)
Theorem get_readFile_components_gz_inside_name :
  get_readFile_components "bigzebra_1.fastq" = ("", "b", ".gz")
  ∧ basename "bigzebra_1.fastq" = "bigzebra_1.fastq"
  ∧ "b" +:+ ".gz" ≠ basename "bigzebra_1.fastq".
Proof. vm_compute. repeat split; [reflexivity..|discriminate]. Qed.

(** C3, as stated, fails on the empty path: the call returns the triple of
    empty strings and raises nothing. *)
Lemma get_readFile_components_empty_path_returns :
  call_get_readFile_components "" = Returned ("", "", "")
  ∧ call_get_readFile_components "" ≠ Raised InvalidPathError.
Proof. vm_compute. split; [reflexivity|discriminate]. Qed.

(** C3, amended: [get_readFile_components] never fails. For every input,
    the empty string included, it returns a triple (directory, stem, full
    extension); on the empty string the three components are empty. *)
Theorem get_readFile_components_total :
  (∀ p, ∃ dir stem ext,
      call_get_readFile_components p = Returned (dir, stem, ext))
  ∧ call_get_readFile_components "" = Returned ("", "", "").
Proof.
  split; [|reflexivity].
  intros p. unfold call_get_readFile_components.
  destruct (get_readFile_components p) as [[dir stem] ext]. eauto.
Qed.

(** ** The paired-end loop, one file at a time *)

Lemma pe_body_class args st fastq :
  pe_body args st fastq =
  c ← pe_class args fastq; Some (apply_class c fastq st).
Proof.
  unfold pe_body, pe_class.
  destruct (get_readFile_components fastq) as [[file_path stem] full_ext].
  destruct (Re.re_match illumina_pattern stem) as [g|].
  - destruct (String.eqb (Re.group 3 g) "_R1"); [reflexivity|].
    destruct (String.eqb (Re.group 3 g) "_R2"); reflexivity.
  - destruct (designator_pattern (Args.forward args)) as [pf|]; [|reflexivity].
    simpl. destruct (Re.re_match pf stem); [reflexivity|].
    destruct (designator_pattern (Args.reverse args)) as [pr|]; [|reflexivity].
    simpl. destruct (Re.re_match pr stem); reflexivity.
Qed.

(** C6, as stated, fails on a stem with a newline before the designator:
    the file named [a], newline, [b_1.fastq] has a stem that ends with [_1]
    and does not match the MiSeq pattern, yet the body stores it nowhere and
    reports that its direction could not be determined. *)
Lemma pe_body_newline_stem_not_forward :
  let fastq := String "a" (String Re.newline "b_1.fastq") in
  let stem := String "a" (String Re.newline "b_1") in
  get_readFile_components fastq = ("", stem, ".fastq")
  ∧ Re.re_match illumina_pattern stem = None
  ∧ stem = String "a" (String Re.newline "b") +:+ "_1"
  ∧ ∃ st', pe_body (default_args [] [fastq]) init_locals fastq = Some st'
      ∧ forward_reads st' = ∅
      ∧ stdout st' = [msg_undetermined fastq].
Proof.
  vm_compute. repeat split. eexists. repeat split; reflexivity.
Qed.

(** C6, amended: for designators made of characters that the pattern syntax
    reads literally (the defaults [_1] and [_2] are), and for a paired-end
    file whose stem has no newline and does not match the MiSeq pattern: if
    the stem ends with the forward designator the body stores the path in
    [forward_reads] under the stem without that suffix; otherwise, if the
    stem ends with the reverse designator, it stores the path in
    [reverse_reads] under the stem without that suffix. *)
Theorem pe_body_suffix_designators args st fastq dir stem ext :
  get_readFile_components fastq = (dir, stem, ext) →
  Re.re_match illumina_pattern stem = None →
  no_newline stem = true →
  Re.plain (Args.forward args) = true →
  (∀ base, stem = base +:+ Args.forward args →
     pe_body args st fastq = Some (set_forward_reads base fastq st))
  ∧ (Re.plain (Args.reverse args) = true →
     ends_with (Args.forward args) stem = false →
     ∀ base, stem = base +:+ Args.reverse args →
       pe_body args st fastq = Some (set_reverse_reads base fastq st)).
Proof.
  intros Hc Hm Hnl Hpf. unfold pe_body. rewrite Hc, Hm.
  rewrite (ReFacts.designator_pattern_plain _ Hpf). simpl.
  split.
  - intros base ->. unfold no_newline in Hnl.
    rewrite ReFacts.all_match_app in Hnl. apply andb_prop in Hnl as [Hb _].
    rewrite (ReFacts.suffix_match _ _ Hb). reflexivity.
  - intros Hpr Hnf base ->.
    destruct (Re.re_match (suffix_regex (Args.forward args)) _) as [g|] eqn:Hf.
    { apply ReFacts.suffix_match_inv in Hf as [b Hb]; [|exact Hnl].
      rewrite Hb, ends_with_app in Hnf. discriminate. }
    rewrite (ReFacts.designator_pattern_plain _ Hpr). simpl.
    unfold no_newline in Hnl.
    rewrite ReFacts.all_match_app in Hnl. apply andb_prop in Hnl as [Hb _].
    rewrite (ReFacts.suffix_match _ _ Hb). reflexivity.
Qed.

(** The default designators on [dir/sampleA_1.fastq.gz] and
    [dir/sampleA_2.fastq.gz]. *)
Lemma pe_body_suffix_designators_witness :
  pe_body (default_args [] ["dir/sampleA_1.fastq.gz"]) init_locals
    "dir/sampleA_1.fastq.gz"
  = Some (set_forward_reads "sampleA" "dir/sampleA_1.fastq.gz" init_locals)
  ∧ pe_body (default_args [] ["dir/sampleA_2.fastq.gz"]) init_locals
      "dir/sampleA_2.fastq.gz"
    = Some (set_reverse_reads "sampleA" "dir/sampleA_2.fastq.gz" init_locals).
Proof.
  split.
  - apply (pe_body_suffix_designators
             (default_args [] ["dir/sampleA_1.fastq.gz"]) init_locals
             "dir/sampleA_1.fastq.gz" "dir" "sampleA_1" ".fastq.gz");
      vm_compute; reflexivity.
  - apply (pe_body_suffix_designators
             (default_args [] ["dir/sampleA_2.fastq.gz"]) init_locals
             "dir/sampleA_2.fastq.gz" "dir" "sampleA_2" ".fastq.gz");
      vm_compute; reflexivity.
Defined.

(** With designators that the pattern syntax reads literally, the decision
    is always reached. *)
Lemma pe_class_returns args fastq :
  Re.plain (Args.forward args) = true →
  Re.plain (Args.reverse args) = true →
  is_Some (pe_class args fastq).
Proof.
  intros Hf Hr. unfold pe_class.
  destruct (get_readFile_components fastq) as [[file_path stem] full_ext].
  rewrite (ReFacts.designator_pattern_plain _ Hf).
  rewrite (ReFacts.designator_pattern_plain _ Hr). simpl.
  destruct (Re.re_match illumina_pattern stem) as [g|].
  - destruct (String.eqb (Re.group 3 g) "_R1"); [eauto|].
    destruct (String.eqb (Re.group 3 g) "_R2"); eauto.
  - destruct (Re.re_match (suffix_regex (Args.forward args)) stem); [eauto|].
    destruct (Re.re_match (suffix_regex (Args.reverse args)) stem); eauto.
Qed.

(** ** The single-end loop *)

Lemma se_body_key st fastq :
  se_body st fastq = incr_single (set_fileSets (se_key fastq) (PyList [fastq]) st).
Proof.
  unfold se_body, se_key.
  destruct (get_readFile_components fastq) as [[file_path stem] full_ext].
  destruct (Re.re_match illumina_pattern stem); reflexivity.
Qed.

Lemma se_loop_spec l st :
  let st' := foldl se_body st l in
  num_single_readsets st' = num_single_readsets st + length l
  ∧ num_paired_readsets st' = num_paired_readsets st
  ∧ stdout st' = stdout st
  ∧ size (fileSets st') ≤ size (fileSets st) + length l
  ∧ ∀ k, fileSets st' !! k =
         match last (filter (λ f, se_key f = k) l) with
         | Some f => Some (PyList [f])
         | None => fileSets st !! k
         end.
Proof.
  revert st. induction l as [|f l IH]; intros st; simpl.
  { repeat split; auto with lia. }
  destruct (IH (se_body st f)) as (Hs & Hp & Ho & Hz & Hl).
  rewrite Hs, Hp, Ho. rewrite se_body_key in *. simpl in *.
  repeat split; [lia| |].
  - etrans; [exact Hz|]. rewrite map_size_insert.
    destruct (fileSets st !! se_key f); simpl; lia.
  - intros k. rewrite Hl, filter_cons.
    destruct (decide (se_key f = k)) as [->|Hne].
    + rewrite last_cons, lookup_insert_eq.
      destruct (last (filter _ l)); reflexivity.
    + rewrite lookup_insert_ne by exact Hne. reflexivity.
Qed.

(** ** The paired-end loop *)

Lemma ambiguous_stems_cons args f l :
  ambiguous_stems args (f :: l) =
  match pe_class args f with
  | Some (Ambiguous stem) => stem :: ambiguous_stems args l
  | _ => ambiguous_stems args l
  end.
Proof.
  unfold ambiguous_stems. simpl.
  destruct (pe_class args f) as [[]|]; reflexivity.
Qed.

Lemma elem_of_ambiguous_stems args l f stem :
  f ∈ l → pe_class args f = Some (Ambiguous stem) →
  stem ∈ ambiguous_stems args l.
Proof.
  intros Hin Hc. unfold ambiguous_stems. apply list_elem_of_omap.
  exists f. rewrite Hc. auto.
Qed.

Lemma pe_loop_returns args l st :
  Re.plain (Args.forward args) = true →
  Re.plain (Args.reverse args) = true →
  is_Some (pe_loop args st l).
Proof.
  intros Hf Hr. revert st. induction l as [|f l IH]; intros st; simpl; [eauto|].
  rewrite pe_body_class.
  destruct (pe_class_returns args f Hf Hr) as [c ->]. simpl. apply IH.
Qed.

(** Where the contents of the three dictionaries come from: every path
    stored by the paired-end loop is an input file, stored in the bucket
    and under the key that [pe_class] decides for it. *)
Lemma pe_loop_class args l st st' :
  pe_loop args st l = Some st' →
  (∀ k f, forward_reads st' !! k = Some f →
     forward_reads st !! k = Some f
     ∨ (f ∈ l ∧ pe_class args f = Some (Forward k)))
  ∧ (∀ k f, reverse_reads st' !! k = Some f →
     reverse_reads st !! k = Some f
     ∨ (f ∈ l ∧ pe_class args f = Some (Reverse k)))
  ∧ (∀ k v, fileSets st' !! k = Some v →
     fileSets st !! k = Some v
     ∨ ∃ f, v = PyStr f ∧ f ∈ l ∧ pe_class args f = Some (Ambiguous k)).
Proof.
  revert st. induction l as [|f l IH]; intros st Hloop; simpl in Hloop.
  { injection Hloop as <-. split_and!; auto. }
  rewrite pe_body_class in Hloop.
  destruct (pe_class args f) as [c|] eqn:Hc; [|discriminate]. simpl in Hloop.
  destruct (IH _ Hloop) as (Hf & Hr & Hs). clear IH.
  split_and!.
  - intros k g Hk. destruct (Hf k g Hk) as [Hold|[Hin Hcl]].
    + destruct c as [k0|k0|stem|]; simpl in Hold; auto.
      destruct (decide (k0 = k)) as [->|Hne].
      * rewrite lookup_insert_eq in Hold. injection Hold as ->.
        right. split; [left|exact Hc].
      * rewrite lookup_insert_ne in Hold by exact Hne. auto.
    + right. split; [right; exact Hin|exact Hcl].
  - intros k g Hk. destruct (Hr k g Hk) as [Hold|[Hin Hcl]].
    + destruct c as [k0|k0|stem|]; simpl in Hold; auto.
      destruct (decide (k0 = k)) as [->|Hne].
      * rewrite lookup_insert_eq in Hold. injection Hold as ->.
        right. split; [left|exact Hc].
      * rewrite lookup_insert_ne in Hold by exact Hne. auto.
    + right. split; [right; exact Hin|exact Hcl].
  - intros k v Hk. destruct (Hs k v Hk) as [Hold|(g & -> & Hin & Hcl)].
    + destruct c as [k0|k0|stem|]; simpl in Hold; auto.
      destruct (decide (stem = k)) as [->|Hne].
      * rewrite lookup_insert_eq in Hold. injection Hold as <-.
        right. exists f. split_and!; [reflexivity|left|exact Hc].
      * rewrite lookup_insert_ne in Hold by exact Hne. auto.
    + right. exists g. split_and!; [reflexivity|right; exact Hin|exact Hcl].
Qed.

(** The keys of [fileSets] after the paired-end loop are the old ones and
    the stems it stored. *)
Lemma pe_loop_dom args l st st' :
  pe_loop args st l = Some st' →
  ∀ k, fileSets st' !! k = None
       ↔ fileSets st !! k = None ∧ k ∉ ambiguous_stems args l.
Proof.
  revert st. induction l as [|f l IH]; intros st Hloop k; simpl in Hloop.
  { injection Hloop as <-. split; [|tauto].
    intros Hk. split; [exact Hk|apply not_elem_of_nil]. }
  rewrite pe_body_class in Hloop. rewrite ambiguous_stems_cons.
  destruct (pe_class args f) as [c|]; [|discriminate]. simpl in Hloop.
  rewrite (IH _ Hloop k).
  destruct c as [k0|k0|stem|]; simpl; try reflexivity.
  rewrite not_elem_of_cons.
  destruct (decide (stem = k)) as [->|Hne].
  - rewrite lookup_insert_eq. split; [intros [? _]; discriminate|].
    intros [_ [? _]]. contradiction.
  - rewrite lookup_insert_ne by exact Hne. split.
    + intros [? ?]. split_and!; auto.
    + intros [? [_ ?]]. auto.
Qed.

(** What the paired-end loop prints and counts. *)
Lemma pe_loop_output args l st st' :
  pe_loop args st l = Some st' →
  num_single_readsets st' =
    num_single_readsets st + length (ambiguous_stems args l)
  ∧ ∃ out, stdout st' = stdout st ++ out
      ∧ (∀ f stem, f ∈ l → pe_class args f = Some (Ambiguous stem) →
           msg_undetermined f ∈ out ∧ msg_miseq ∈ out)
      ∧ (∀ f, f ∈ l → pe_class args f = Some Undetermined →
           msg_undetermined f ∈ out).
Proof.
  revert st. induction l as [|f l IH]; intros st Hloop; simpl in Hloop.
  { injection Hloop as <-. split; [simpl; lia|]. exists [].
    rewrite app_nil_r. split_and!; [reflexivity| |].
    - intros f stem Hin. inversion Hin.
    - intros f Hin. inversion Hin. }
  rewrite pe_body_class in Hloop. rewrite ambiguous_stems_cons.
  destruct (pe_class args f) as [c|] eqn:Hc; [|discriminate]. simpl in Hloop.
  destruct (IH _ Hloop) as (Hn & out & Ho & Ha & Hu). clear IH.
  assert (Hstep : ∃ o, stdout (apply_class c f st) = stdout st ++ o
            ∧ (∀ stem, c = Ambiguous stem →
                 msg_undetermined f ∈ o ∧ msg_miseq ∈ o)
            ∧ (c = Undetermined → msg_undetermined f ∈ o)).
  { destruct c as [k|k|stem|]; simpl.
    - exists []. rewrite app_nil_r. split_and!; [reflexivity| |]; discriminate.
    - exists []. rewrite app_nil_r. split_and!; [reflexivity| |]; discriminate.
    - exists [msg_undetermined f; msg_miseq]. rewrite <- app_assoc.
      split_and!; [reflexivity| |discriminate].
      intros _ _. split; [left|right; left].
    - exists [msg_undetermined f]. split_and!; [reflexivity|discriminate|].
      intros _. left. }
  destruct Hstep as (o & Hso & Hsa & Hsu).
  split.
  - rewrite Hn. destruct c; simpl; lia.
  - exists (o ++ out). rewrite Ho, Hso, <- app_assoc. split_and!; [reflexivity| |].
    + intros g stem [->|Hin]%elem_of_cons Hg.
      * rewrite Hc in Hg. destruct (Hsa stem) as [? ?]; [congruence|].
        split; apply elem_of_app; left; assumption.
      * destruct (Ha g stem Hin Hg). split; apply elem_of_app; right; assumption.
    + intros g [->|Hin]%elem_of_cons Hg.
      * rewrite Hc in Hg. apply elem_of_app. left. apply Hsu. congruence.
      * apply elem_of_app. right. apply Hu; assumption.
Qed.

(** ** The two pairing loops *)

(** The first loop over the entries [l] of [forward_reads], whose keys are
    distinct: each key of [l] receives its pair or its lone forward read,
    the other keys keep their entry. *)
Lemma pair_loop_spec l st rev :
  reverse_reads st = rev →
  NoDup l.*1 →
  let st' := foldl pair_body st l in
  forward_reads st' = forward_reads st
  ∧ reverse_reads st' = rev
  ∧ (∀ k f, (k, f) ∈ l → fileSets st' !! k = Some (pair_value rev k f))
  ∧ (∀ k, k ∉ l.*1 → fileSets st' !! k = fileSets st !! k)
  ∧ num_paired_readsets st' =
      num_paired_readsets st + length (filter (λ e, is_Some (rev !! e.1)) l)
  ∧ num_single_readsets st' =
      num_single_readsets st + length (filter (λ e, rev !! e.1 = None) l)
  ∧ stdout st' =
      stdout st ++ ((λ e, msg_no_pair e.2) <$> filter (λ e, rev !! e.1 = None) l).
Proof.
  revert st. induction l as [|[k f] l IH]; intros st Hrev Hnd; cbv zeta; simpl.
  { rewrite app_nil_r. split_and!; auto. intros k f Hin. inversion Hin. }
  rewrite fmap_cons in Hnd. apply NoDup_cons in Hnd as [Hk Hnd]. simpl in Hk.
  assert (Hrev' : reverse_reads (pair_body st (k, f)) = rev).
  { unfold pair_body. destruct (reverse_reads st !! k); exact Hrev. }
  destruct (IH _ Hrev' Hnd) as (Hf & Hr & Hin & Hout & Hp & Hs & Ho).
  rewrite Hf, Hp, Hs, Ho. clear IH Hf Hp Hs Ho.
  assert (Hstep : fileSets (pair_body st (k, f)) =
                  <[k := pair_value rev k f]> (fileSets st)).
  { unfold pair_body, pair_value. rewrite Hrev.
    destruct (rev !! k); reflexivity. }
  rewrite !filter_cons. simpl.
  split_and!.
  - unfold pair_body. destruct (reverse_reads st !! k); reflexivity.
  - exact Hr.
  - intros k' f' [[= -> ->]|Hin']%elem_of_cons.
    + rewrite (Hout _ Hk), Hstep. apply lookup_insert_eq.
    + apply Hin. exact Hin'.
  - intros k' [Hne Hk']%not_elem_of_cons.
    rewrite (Hout _ Hk'), Hstep. apply lookup_insert_ne. congruence.
  - unfold pair_body. rewrite Hrev.
    destruct (rev !! k) eqn:E.
    + rewrite decide_True by eauto. simpl. lia.
    + rewrite decide_False by (intros [? ?]; discriminate). simpl. lia.
  - unfold pair_body. rewrite Hrev.
    destruct (rev !! k) eqn:E.
    + rewrite decide_False by discriminate. simpl. lia.
    + rewrite decide_True by reflexivity. simpl. lia.
  - unfold pair_body. rewrite Hrev.
    destruct (rev !! k) eqn:E.
    + rewrite decide_False by discriminate. reflexivity.
    + rewrite decide_True by reflexivity. simpl.
      rewrite <- app_assoc. reflexivity.
Qed.

(** The second loop over the entries [l] of [reverse_reads], whose keys are
    distinct: a key of [l] absent from [fileSets] when the loop starts
    receives the bare reverse path, every other key keeps what it had. *)
Lemma unpaired_reverse_loop_spec l st :
  NoDup l.*1 →
  let st' := foldl unpaired_reverse_body st l in
  forward_reads st' = forward_reads st
  ∧ reverse_reads st' = reverse_reads st
  ∧ num_paired_readsets st' = num_paired_readsets st
  ∧ (∀ k p, (k, p) ∈ l →
       fileSets st' !! k =
       match fileSets st !! k with Some v => Some v | None => Some (PyStr p) end)
  ∧ (∀ k, k ∉ l.*1 → fileSets st' !! k = fileSets st !! k)
  ∧ num_single_readsets st' =
      num_single_readsets st
      + length (filter (λ e, fileSets st !! e.1 = None) l)
  ∧ stdout st' =
      stdout st
      ++ ((λ e, msg_no_pair e.2) <$> filter (λ e, fileSets st !! e.1 = None) l).
Proof.
  revert st. induction l as [|[k p] l IH]; intros st Hnd; cbv zeta; simpl.
  { rewrite app_nil_r. split_and!; auto. intros k p Hin. inversion Hin. }
  rewrite fmap_cons in Hnd. apply NoDup_cons in Hnd as [Hk Hnd]. simpl in Hk.
  destruct (IH (unpaired_reverse_body st (k, p)) Hnd)
    as (Hf & Hr & Hpc & Hin & Hout & Hs & Ho).
  rewrite Hf, Hr, Hpc, Hs, Ho. clear IH Hf Hr Hpc Hs Ho.
  assert (Hstep : ∀ k', k' ≠ k →
            fileSets (unpaired_reverse_body st (k, p)) !! k' = fileSets st !! k').
  { intros k' Hne. unfold unpaired_reverse_body.
    destruct (fileSets st !! k); [reflexivity|]. simpl.
    apply lookup_insert_ne. congruence. }
  assert (Hfilter :
    filter (λ e, fileSets (unpaired_reverse_body st (k, p)) !! e.1 = None) l
    = filter (λ e, fileSets st !! e.1 = None) l).
  { apply filter_ext_elem. intros [k' p'] Hin'. simpl.
    rewrite Hstep; [reflexivity|].
    intros ->. apply Hk. apply list_elem_of_fmap. exists (k, p'). auto. }
  rewrite Hfilter, !filter_cons. simpl.
  split_and!.
  - unfold unpaired_reverse_body. destruct (fileSets st !! k); reflexivity.
  - unfold unpaired_reverse_body. destruct (fileSets st !! k); reflexivity.
  - unfold unpaired_reverse_body. destruct (fileSets st !! k); reflexivity.
  - intros k' p' [[= -> ->]|Hin']%elem_of_cons.
    + rewrite (Hout _ Hk). unfold unpaired_reverse_body.
      destruct (fileSets st !! k) eqn:E; [exact E|]. simpl.
      apply lookup_insert_eq.
    + rewrite (Hin _ _ Hin'), Hstep; [reflexivity|].
      intros ->. apply Hk. apply list_elem_of_fmap. exists (k, p'). auto.
  - intros k' [Hne Hk']%not_elem_of_cons.
    rewrite (Hout _ Hk'). apply Hstep. exact Hne.
  - unfold unpaired_reverse_body.
    destruct (fileSets st !! k) eqn:E.
    + rewrite decide_False by discriminate. simpl. lia.
    + rewrite decide_True by reflexivity. simpl. lia.
  - unfold unpaired_reverse_body.
    destruct (fileSets st !! k) eqn:E.
    + rewrite decide_False by discriminate. reflexivity.
    + rewrite decide_True by reflexivity. simpl.
      rewrite <- app_assoc. reflexivity.
Qed.

(** What [fileSets] holds after the two loops, key by key, and how far the
    counters and the output have moved. *)
Lemma store_pairs_spec st :
  let fwd := forward_reads st in
  let rev := reverse_reads st in
  let st' := store_pairs st in
  forward_reads st' = fwd
  ∧ reverse_reads st' = rev
  ∧ (∀ k, fileSets st' !! k =
          match fwd !! k with
          | Some f => Some (pair_value rev k f)
          | None =>
              match fileSets st !! k with
              | Some v => Some v
              | None => PyStr <$> rev !! k
              end
          end)
  ∧ num_paired_readsets st' =
      num_paired_readsets st
      + length (filter (λ e, is_Some (rev !! e.1)) (map_to_list fwd))
  ∧ num_single_readsets st' =
      num_single_readsets st
      + length (filter (λ e, rev !! e.1 = None) (map_to_list fwd))
      + length (filter (λ e, fwd !! e.1 = None ∧ fileSets st !! e.1 = None)
                  (map_to_list rev))
  ∧ stdout st' =
      stdout st
      ++ ((λ e, msg_no_pair e.2) <$>
            filter (λ e, rev !! e.1 = None) (map_to_list fwd))
      ++ ((λ e, msg_no_pair e.2) <$>
            filter (λ e, fwd !! e.1 = None ∧ fileSets st !! e.1 = None)
              (map_to_list rev)).
Proof.
  intros fwd rev st'. subst st'. unfold store_pairs.
  destruct (pair_loop_spec (map_to_list fwd) st rev eq_refl
              (NoDup_fst_map_to_list _))
    as (Hf1 & Hr1 & Hin1 & Hout1 & Hp1 & Hs1 & Ho1).
  fold fwd in Hf1, Hin1, Hout1, Hp1, Hs1, Ho1 |- *.
  set (st1 := foldl pair_body st (map_to_list fwd)) in *.
  rewrite Hr1.
  destruct (unpaired_reverse_loop_spec (map_to_list rev) st1
              (NoDup_fst_map_to_list _))
    as (Hf2 & Hr2 & Hp2 & Hin2 & Hout2 & Hs2 & Ho2).
  assert (Hlook1 : ∀ k, fileSets st1 !! k =
            match fwd !! k with
            | Some f => Some (pair_value rev k f)
            | None => fileSets st !! k
            end).
  { intros k. destruct (fwd !! k) as [f|] eqn:E.
    - apply Hin1, elem_of_map_to_list, E.
    - apply Hout1, not_elem_of_keys_map_to_list, E. }
  assert (Hfilter :
    filter (λ e, fileSets st1 !! e.1 = None) (map_to_list rev)
    = filter (λ e, fwd !! e.1 = None ∧ fileSets st !! e.1 = None)
        (map_to_list rev)).
  { apply list_filter_iff. intros [k p]. simpl. rewrite Hlook1.
    destruct (fwd !! k).
    - split; [discriminate|intros [? _]; discriminate].
    - split; [auto|intros [_ ?]; assumption]. }
  rewrite Hfilter in Hs2, Ho2.
  rewrite Hf2, Hr2, Hp2, Hs2, Ho2, Hf1, Hr1, Hp1, Hs1, Ho1.
  split_and!; try reflexivity.
  - intros k. destruct (rev !! k) as [p|] eqn:E.
    + rewrite (Hin2 k p) by (apply elem_of_map_to_list, E).
      rewrite Hlook1. destruct (fwd !! k); [reflexivity|].
      destruct (fileSets st !! k); reflexivity.
    + rewrite Hout2 by (apply not_elem_of_keys_map_to_list, E).
      rewrite Hlook1. destruct (fwd !! k); [reflexivity|].
      destruct (fileSets st !! k); reflexivity.
  - rewrite <- app_assoc. reflexivity.
Qed.

Lemma store_pairs_init : store_pairs init_locals = init_locals.
Proof. unfold store_pairs. simpl. rewrite map_to_list_empty. reflexivity. Qed.

(** The order in which the two dictionaries are enumerated does not change
    the mapping or the counters: any enumerations [l1] of [forward_reads]
    and [l2] of [reverse_reads] give what [store_pairs] gives. *)
Lemma store_pairs_any_order st l1 l2 :
  l1 ≡ₚ map_to_list (forward_reads st) →
  l2 ≡ₚ map_to_list (reverse_reads st) →
  fileSets (foldl unpaired_reverse_body (foldl pair_body st l1) l2)
    = fileSets (store_pairs st)
  ∧ num_paired_readsets (foldl unpaired_reverse_body (foldl pair_body st l1) l2)
    = num_paired_readsets (store_pairs st)
  ∧ num_single_readsets (foldl unpaired_reverse_body (foldl pair_body st l1) l2)
    = num_single_readsets (store_pairs st).
Proof.
  intros H1 H2.
  assert (Hnd1 : NoDup l1.*1).
  { rewrite H1. apply NoDup_fst_map_to_list. }
  assert (Hnd2 : NoDup l2.*1).
  { rewrite H2. apply NoDup_fst_map_to_list. }
  destruct (pair_loop_spec l1 st _ eq_refl Hnd1)
    as (_ & _ & Hin1 & Hout1 & Hp1 & Hs1 & _).
  set (st1 := foldl pair_body st l1) in *.
  destruct (unpaired_reverse_loop_spec l2 st1 Hnd2)
    as (_ & _ & Hp2 & Hin2 & Hout2 & Hs2 & _).
  destruct (store_pairs_spec st) as (_ & _ & Hlook & Hp & Hs & _).
  assert (Hlook1 : ∀ k, fileSets st1 !! k =
            match forward_reads st !! k with
            | Some f => Some (pair_value (reverse_reads st) k f)
            | None => fileSets st !! k
            end).
  { intros k. destruct (forward_reads st !! k) as [f|] eqn:E.
    - apply Hin1. rewrite H1. apply elem_of_map_to_list, E.
    - apply Hout1. rewrite H1. apply not_elem_of_keys_map_to_list, E. }
  split_and!.
  - apply map_eq. intros k. rewrite Hlook.
    destruct (reverse_reads st !! k) as [p|] eqn:E.
    + rewrite (Hin2 k p) by (rewrite H2; apply elem_of_map_to_list, E).
      rewrite Hlook1. destruct (forward_reads st !! k); [reflexivity|].
      destruct (fileSets st !! k); reflexivity.
    + rewrite Hout2
        by (rewrite H2; apply not_elem_of_keys_map_to_list, E).
      rewrite Hlook1. destruct (forward_reads st !! k); [reflexivity|].
      destruct (fileSets st !! k); reflexivity.
  - rewrite Hp2, Hp1, Hp, H1. reflexivity.
  - rewrite Hs2, Hs1, Hs.
    assert (Hfilter :
      filter (λ e, fileSets st1 !! e.1 = None) l2
      = filter (λ e, forward_reads st !! e.1 = None ∧ fileSets st !! e.1 = None)
          l2).
    { apply list_filter_iff. intros [k p]. simpl. rewrite Hlook1.
      destruct (forward_reads st !! k).
      - split; [discriminate|intros [? _]; discriminate].
      - split; [auto|intros [_ ?]; assumption]. }
    rewrite Hfilter, H1, H2. reflexivity.
Qed.

(** ** Counting the entries of [fileSets] *)

Lemma count_holding_empty n : count_holding n ∅ = 0.
Proof. unfold count_holding. rewrite map_to_list_empty. reflexivity. Qed.

Lemma count_holding_insert_fresh n (m : gmap string pyval) k v :
  m !! k = None →
  count_holding n (<[k := v]> m) = indicator n (Some v) + count_holding n m.
Proof.
  intros Hk. unfold count_holding.
  rewrite (map_to_list_insert m k v Hk), filter_cons. simpl.
  destruct (decide (length (files_of v) = n)); reflexivity.
Qed.

(** Storing [v] under [k] removes the old entry of [k] from the count and
    adds the new one. *)
Lemma count_holding_insert n (m : gmap string pyval) k v :
  count_holding n (<[k := v]> m) + indicator n (m !! k)
  = count_holding n m + indicator n (Some v).
Proof.
  destruct (m !! k) as [w|] eqn:E.
  - rewrite <- (insert_delete_eq m k v).
    rewrite <- (insert_delete_id m k w E) at 2.
    rewrite !count_holding_insert_fresh by apply lookup_delete_eq. lia.
  - rewrite count_holding_insert_fresh by exact E. simpl. lia.
Qed.

Lemma indicator_le_1 n o : indicator n o ≤ 1.
Proof.
  destruct o as [v|]; simpl; [|lia].
  destruct (decide (length (files_of v) = n)); lia.
Qed.

Lemma count_holding_0_indicator n (m : gmap string pyval) k :
  count_holding n m = 0 → indicator n (m !! k) = 0.
Proof.
  intros H0. destruct (m !! k) as [w|] eqn:E; [|reflexivity].
  rewrite <- (insert_delete_id m k w E) in H0.
  rewrite count_holding_insert_fresh in H0 by apply lookup_delete_eq. lia.
Qed.

(** The first pairing loop, counted: a pair stored under a key whose entry
    held fewer than two files adds one to both sides; a lone forward read
    adds one single read and replaces at most one entry of one file. *)
Lemma pair_loop_counts l st :
  NoDup l.*1 →
  (∀ k f, (k, f) ∈ l → indicator 2 (fileSets st !! k) = 0) →
  let st' := foldl pair_body st l in
  num_paired_readsets st' + count_holding 2 (fileSets st)
    = num_paired_readsets st + count_holding 2 (fileSets st')
  ∧ count_holding 1 (fileSets st') + num_single_readsets st
      + length (filter (λ e, indicator 1 (fileSets st !! e.1) = 1) l)
    = count_holding 1 (fileSets st) + num_single_readsets st'.
Proof.
  revert st. induction l as [|[k f] l IH]; intros st Hnd H2; cbv zeta; simpl.
  { lia. }
  rewrite fmap_cons in Hnd. apply NoDup_cons in Hnd as [Hk Hnd]. simpl in Hk.
  set (st1 := pair_body st (k, f)).
  assert (Hfs : ∃ v, fileSets st1 = <[k := v]> (fileSets st)
            ∧ num_paired_readsets st1 = num_paired_readsets st + indicator 2 (Some v)
            ∧ num_single_readsets st1 = num_single_readsets st + indicator 1 (Some v)).
  { exists (pair_value (reverse_reads st) k f). unfold st1, pair_body, pair_value.
    destruct (reverse_reads st !! k) as [r|]; simpl;
      split_and!; try reflexivity; lia. }
  destruct Hfs as (v & Hfs & Hp1 & Hs1).
  assert (Hne : ∀ k' f', (k', f') ∈ l → fileSets st1 !! k' = fileSets st !! k').
  { intros k' f' Hin. rewrite Hfs. apply lookup_insert_ne. intros ->.
    apply Hk. apply list_elem_of_fmap. exists (k', f'). auto. }
  destruct (IH st1 Hnd) as [IHp IHs].
  { intros k' f' Hin. rewrite (Hne _ _ Hin). apply (H2 k' f'). right. exact Hin. }
  assert (Hfilter :
    filter (λ e, indicator 1 (fileSets st1 !! e.1) = 1) l
    = filter (λ e, indicator 1 (fileSets st !! e.1) = 1) l).
  { apply filter_ext_elem. intros [k' f'] Hin. simpl.
    rewrite (Hne _ _ Hin). reflexivity. }
  rewrite Hfilter in IHs.
  pose proof (count_holding_insert 2 (fileSets st) k v) as C2.
  pose proof (count_holding_insert 1 (fileSets st) k v) as C1.
  rewrite <- Hfs in C1, C2.
  rewrite (H2 k f) in C2 by left.
  rewrite filter_cons. simpl.
  pose proof (indicator_le_1 1 (fileSets st !! k)).
  destruct (decide (indicator 1 (fileSets st !! k) = 1)); simpl; lia.
Qed.

(** The second pairing loop, counted: every store is a new entry of one
    file and adds one single read. *)
Lemma unpaired_reverse_loop_counts l st :
  let st' := foldl unpaired_reverse_body st l in
  count_holding 2 (fileSets st') = count_holding 2 (fileSets st)
  ∧ count_holding 1 (fileSets st') + num_single_readsets st
    = count_holding 1 (fileSets st) + num_single_readsets st'.
Proof.
  revert st. induction l as [|[k p] l IH]; intros st; cbv zeta; simpl; [lia|].
  set (st1 := unpaired_reverse_body st (k, p)).
  destruct (IH st1) as [IH2 IH1]. rewrite IH2.
  assert (Hst1 :
    count_holding 2 (fileSets st1) = count_holding 2 (fileSets st)
    ∧ count_holding 1 (fileSets st1) + num_single_readsets st
      = count_holding 1 (fileSets st) + num_single_readsets st1).
  { unfold st1, unpaired_reverse_body.
    destruct (fileSets st !! k) eqn:E; [lia|]. simpl.
    rewrite !count_holding_insert_fresh by exact E. simpl. lia. }
  lia.
Qed.

(** The two pairing loops together, counted; the last term on the left is
    the number of forward samples whose key already held one file. *)
Lemma store_pairs_counts st :
  count_holding 2 (fileSets st) = 0 →
  num_paired_readsets (store_pairs st)
    = num_paired_readsets st + count_holding 2 (fileSets (store_pairs st))
  ∧ count_holding 1 (fileSets (store_pairs st)) + num_single_readsets st
      + length (filter (λ e, indicator 1 (fileSets st !! e.1) = 1)
                  (map_to_list (forward_reads st)))
    = count_holding 1 (fileSets st) + num_single_readsets (store_pairs st).
Proof.
  intros H2. unfold store_pairs.
  destruct (pair_loop_counts (map_to_list (forward_reads st)) st
              (NoDup_fst_map_to_list _)) as [Hp Hs].
  { intros k f _. apply count_holding_0_indicator, H2. }
  set (st1 := foldl pair_body st (map_to_list (forward_reads st))) in *.
  destruct (unpaired_reverse_loop_spec (map_to_list (reverse_reads st1)) st1
              (NoDup_fst_map_to_list _)) as (_ & _ & Hp2 & _).
  destruct (unpaired_reverse_loop_counts (map_to_list (reverse_reads st1)) st1)
    as [Hc2 Hc1].
  rewrite Hp2, Hc2. lia.
Qed.

(** The paired-end loop, counted: it stores bare paths only, each with one
    more single read. *)
Lemma pe_loop_counts args l st st' :
  pe_loop args st l = Some st' →
  count_holding 2 (fileSets st) = 0 →
  count_holding 2 (fileSets st') = 0
  ∧ num_paired_readsets st' = num_paired_readsets st
  ∧ count_holding 1 (fileSets st') + num_single_readsets st
    ≤ count_holding 1 (fileSets st) + num_single_readsets st'.
Proof.
  revert st. induction l as [|f l IH]; intros st Hloop H2; simpl in Hloop.
  { injection Hloop as <-. auto with lia. }
  rewrite pe_body_class in Hloop.
  destruct (pe_class args f) as [c|]; [|discriminate]. simpl in Hloop.
  assert (Hstep :
    count_holding 2 (fileSets (apply_class c f st)) = 0
    ∧ num_paired_readsets (apply_class c f st) = num_paired_readsets st
    ∧ count_holding 1 (fileSets (apply_class c f st)) + num_single_readsets st
      ≤ count_holding 1 (fileSets st)
        + num_single_readsets (apply_class c f st)).
  { destruct c as [k|k|stem|]; simpl; auto with lia.
    pose proof (count_holding_insert 2 (fileSets st) stem (PyStr f)) as C2.
    pose proof (count_holding_insert 1 (fileSets st) stem (PyStr f)) as C1.
    simpl in C1, C2. lia. }
  destruct Hstep as (H2' & Hp & Hs).
  destruct (IH _ Hloop H2') as (? & ? & ?). split_and!; lia.
Qed.

(** When the stored stems are pairwise distinct and new, every store of the
    paired-end loop is a new entry. *)
Lemma pe_loop_counts_exact args l st st' :
  pe_loop args st l = Some st' →
  NoDup (ambiguous_stems args l) →
  (∀ s, s ∈ ambiguous_stems args l → fileSets st !! s = None) →
  count_holding 1 (fileSets st') + num_single_readsets st
    = count_holding 1 (fileSets st) + num_single_readsets st'
  ∧ ∀ k, fileSets st' !! k = None
         ↔ fileSets st !! k = None ∧ k ∉ ambiguous_stems args l.
Proof.
  revert st. induction l as [|f l IH]; intros st Hloop Hnd Hnew; simpl in Hloop.
  { injection Hloop as <-. split; [lia|]. intros k. split; [|tauto].
    intros Hk. split; [exact Hk|]. apply not_elem_of_nil. }
  rewrite pe_body_class in Hloop. rewrite ambiguous_stems_cons in Hnd, Hnew |- *.
  destruct (pe_class args f) as [c|]; [|discriminate]. simpl in Hloop.
  destruct c as [k|k|stem|]; simpl in Hloop;
    try (destruct (IH _ Hloop Hnd Hnew) as [IHc IHd]; split; assumption).
  apply NoDup_cons in Hnd as [Hstem Hnd].
  destruct (IH _ Hloop Hnd) as [IHc IHd].
  { intros s Hs. simpl. rewrite lookup_insert_ne by (intros ->; contradiction).
    apply Hnew. right. exact Hs. }
  simpl in IHc, IHd.
  rewrite count_holding_insert_fresh in IHc by (apply Hnew; left). simpl in IHc.
  split; [lia|].
  intros k. rewrite IHd, not_elem_of_cons.
  destruct (decide (stem = k)) as [->|Hne].
  - rewrite lookup_insert_eq. split; [intros [? _]; discriminate|].
    intros [_ [? _]]. contradiction.
  - rewrite lookup_insert_ne by exact Hne. split.
    + intros [? ?]. split_and!; auto.
    + intros [? [_ ?]]. auto.
Qed.

(** The single-end loop, counted. *)
Lemma se_loop_counts l st :
  count_holding 2 (fileSets st) = 0 →
  let st' := foldl se_body st l in
  count_holding 2 (fileSets st') = 0
  ∧ count_holding 1 (fileSets st') + num_single_readsets st
    ≤ count_holding 1 (fileSets st) + num_single_readsets st'
  ∧ (NoDup (se_key <$> l) →
     (∀ f, f ∈ l → fileSets st !! se_key f = None) →
     count_holding 1 (fileSets st') + num_single_readsets st
     = count_holding 1 (fileSets st) + num_single_readsets st').
Proof.
  revert st. induction l as [|f l IH]; intros st H2; cbv zeta; simpl.
  { auto with lia. }
  rewrite se_body_key.
  set (st1 := incr_single (set_fileSets (se_key f) (PyList [f]) st)).
  pose proof (count_holding_insert 2 (fileSets st) (se_key f) (PyList [f])) as C2.
  pose proof (count_holding_insert 1 (fileSets st) (se_key f) (PyList [f])) as C1.
  simpl in C1, C2.
  assert (H2' : count_holding 2 (fileSets st1) = 0) by (simpl; lia).
  destruct (IH st1 H2') as (IH2 & IHle & IHeq).
  simpl in IHle. split_and!; [exact IH2|lia|].
  intros Hnd Hnew. apply NoDup_cons in Hnd as [Hk Hnd].
  rewrite (Hnew f) in C1 by left. simpl in C1.
  assert (E := IHeq Hnd). simpl in E.
  assert (E' : count_holding 1 (fileSets (foldl se_body st1 l))
               + S (num_single_readsets st)
               = count_holding 1 (<[se_key f:=PyList [f]]> (fileSets st))
                 + num_single_readsets (foldl se_body st1 l)); [|lia].
  apply E. intros f' Hf'. rewrite lookup_insert_ne; [apply Hnew; right; exact Hf'|].
  intros Heq. apply Hk. rewrite Heq. apply list_elem_of_fmap_2, Hf'.
Qed.

(** ** The whole function *)

Lemma print_totals_fields st :
  fileSets (print_totals st) = fileSets st
  ∧ num_single_readsets (print_totals st) = num_single_readsets st
  ∧ num_paired_readsets (print_totals st) = num_paired_readsets st
  ∧ forward_reads (print_totals st) = forward_reads st
  ∧ reverse_reads (print_totals st) = reverse_reads st.
Proof.
  unfold print_totals.
  destruct (0 <? num_paired_readsets st); simpl;
    destruct (0 <? num_single_readsets st); split_and!; reflexivity.
Qed.

Lemma print_totals_stdout st :
  ∃ out, stdout (print_totals st) = stdout st ++ out.
Proof.
  unfold print_totals.
  destruct (0 <? num_paired_readsets st); simpl;
    destruct (0 <? num_single_readsets st); simpl;
    eexists; rewrite <- ?app_assoc; try reflexivity.
  symmetry. apply app_nil_r.
Qed.

Lemma read_file_sets_single args :
  Args.input_se args ≠ [] →
  read_file_sets args =
  Some (print_totals (foldl se_body init_locals (Args.input_se args))).
Proof.
  unfold read_file_sets. destruct (Args.input_se args); [contradiction|].
  reflexivity.
Qed.

Lemma read_file_sets_paired args :
  Args.input_se args = [] →
  read_file_sets args =
  st ← pe_loop args init_locals (Args.input_pe args);
  Some (print_totals (store_pairs st)).
Proof.
  unfold read_file_sets. intros ->.
  destruct (Args.input_pe args) as [|f l] eqn:E.
  - simpl. rewrite store_pairs_init. reflexivity.
  - destruct (pe_loop args init_locals (f :: l)); reflexivity.
Qed.

(** [read_file_sets] returns: always in single-end mode, and in paired-end
    mode whenever the designators are read literally by the pattern
    syntax. *)
Lemma read_file_sets_returns args :
  Args.input_se args ≠ []
  ∨ (Re.plain (Args.forward args) = true ∧ Re.plain (Args.reverse args) = true) →
  is_Some (read_file_sets args).
Proof.
  intros H. destruct (decide (Args.input_se args = [])) as [Hse|Hse].
  - destruct H as [?|[Hf Hr]]; [contradiction|].
    rewrite (read_file_sets_paired _ Hse).
    destruct (pe_loop_returns args (Args.input_pe args) init_locals Hf Hr)
      as [st ->].
    simpl. eauto.
  - rewrite (read_file_sets_single _ Hse). eauto.
Qed.

(** In paired-end mode a file of an entry is an input file whose decided
    key is the key of the entry. *)
Lemma appears_in_paired args res f k :
  Args.input_se args = [] →
  read_file_sets args = Some res →
  appears_in f k res →
  f ∈ Args.input_pe args
  ∧ ∃ c, pe_class args f = Some c ∧ class_key c = Some k.
Proof.
  intros Hse. rewrite (read_file_sets_paired _ Hse).
  destruct (pe_loop args init_locals (Args.input_pe args)) as [st1|] eqn:Hloop;
    [|discriminate].
  simpl. intros [= <-] (v & Hv & Hf).
  destruct (print_totals_fields (store_pairs st1)) as (Hfs & _).
  rewrite Hfs in Hv. clear Hfs.
  destruct (store_pairs_spec st1) as (_ & _ & Hlook & _).
  rewrite Hlook in Hv. clear Hlook.
  destruct (pe_loop_class _ _ _ _ Hloop) as (Hfw & Hrv & Hst).
  assert (Hfw' : ∀ g, forward_reads st1 !! k = Some g →
            g ∈ Args.input_pe args ∧ pe_class args g = Some (Forward k)).
  { intros g Hg. destruct (Hfw k g Hg) as [Hold|?]; [|assumption].
    simpl in Hold. rewrite lookup_empty in Hold. discriminate. }
  assert (Hrv' : ∀ g, reverse_reads st1 !! k = Some g →
            g ∈ Args.input_pe args ∧ pe_class args g = Some (Reverse k)).
  { intros g Hg. destruct (Hrv k g Hg) as [Hold|?]; [|assumption].
    simpl in Hold. rewrite lookup_empty in Hold. discriminate. }
  destruct (forward_reads st1 !! k) as [g|] eqn:Eg.
  - injection Hv as <-. unfold pair_value in Hf.
    destruct (Hfw' g eq_refl) as [Hgin Hgc].
    destruct (reverse_reads st1 !! k) as [r|] eqn:Er; simpl in Hf.
    + destruct (Hrv' r eq_refl) as [Hrin Hrc].
      apply elem_of_cons in Hf as [->|Hf]; [split; eauto|].
      apply list_elem_of_singleton in Hf as ->. split; eauto.
    + apply list_elem_of_singleton in Hf as ->. split; eauto.
  - destruct (fileSets st1 !! k) as [w|] eqn:Ew.
    + injection Hv as <-.
      destruct (Hst k w Ew) as [Hold|(g & -> & Hgin & Hgc)].
      { simpl in Hold. rewrite lookup_empty in Hold. discriminate. }
      simpl in Hf. apply list_elem_of_singleton in Hf as ->. split; eauto.
    + destruct (reverse_reads st1 !! k) as [r|] eqn:Er; [|discriminate].
      injection Hv as <-. simpl in Hf.
      apply list_elem_of_singleton in Hf as ->.
      destruct (Hrv' r eq_refl) as [Hrin Hrc]. split; eauto.
Qed.

(** In single-end mode a file of an entry is an input file and the entry is
    that of its key. *)
Lemma appears_in_single args res f k :
  Args.input_se args ≠ [] →
  read_file_sets args = Some res →
  appears_in f k res →
  f ∈ Args.input_se args ∧ k = se_key f.
Proof.
  intros Hse. rewrite (read_file_sets_single _ Hse).
  intros [= <-] (v & Hv & Hf).
  destruct (print_totals_fields (foldl se_body init_locals (Args.input_se args)))
    as (Hfs & _).
  rewrite Hfs in Hv. clear Hfs.
  destruct (se_loop_spec (Args.input_se args) init_locals) as (_ & _ & _ & _ & Hl).
  rewrite Hl in Hv. clear Hl.
  destruct (last (filter _ _)) as [g|] eqn:Eg.
  - injection Hv as <-. simpl in Hf. apply list_elem_of_singleton in Hf as ->.
    apply last_Some_elem_of, list_elem_of_filter in Eg as [Hk Hin]. auto.
  - exfalso. revert Hv. apply lookup_empty_Some.
Qed.

(** In paired-end mode, what was printed for the input files of unknown
    direction is part of the final output, and each MiSeq-shaped one among
    them counts as a single read. *)
Lemma read_file_sets_paired_output args res :
  Args.input_se args = [] →
  read_file_sets args = Some res →
  length (ambiguous_stems args (Args.input_pe args)) ≤ num_single_readsets res
  ∧ (∀ f stem, f ∈ Args.input_pe args →
       pe_class args f = Some (Ambiguous stem) →
       msg_undetermined f ∈ stdout res ∧ msg_miseq ∈ stdout res)
  ∧ (∀ f, f ∈ Args.input_pe args → pe_class args f = Some Undetermined →
       msg_undetermined f ∈ stdout res).
Proof.
  intros Hse. rewrite (read_file_sets_paired _ Hse).
  destruct (pe_loop args init_locals (Args.input_pe args)) as [st1|] eqn:Hloop;
    [|discriminate].
  simpl. intros [= <-].
  destruct (print_totals_fields (store_pairs st1)) as (_ & -> & _).
  destruct (print_totals_stdout (store_pairs st1)) as (o3 & ->).
  destruct (store_pairs_spec st1) as (_ & _ & _ & _ & -> & ->).
  destruct (pe_loop_output _ _ _ _ Hloop) as (-> & o1 & -> & Ha & Hu).
  simpl. split_and!; [lia| |].
  - intros f stem Hin Hc. destruct (Ha f stem Hin Hc).
    split; apply elem_of_app; left; apply elem_of_app; left; assumption.
  - intros f Hin Hc.
    apply elem_of_app; left; apply elem_of_app; left. apply Hu; assumption.
Qed.

(** In paired-end mode a stem stored for a MiSeq-shaped file of unknown
    direction keeps a bare path of such a file, unless a forward read has
    the same key. *)
Lemma read_file_sets_ambiguous_entry args res k :
  Args.input_se args = [] →
  read_file_sets args = Some res →
  k ∈ ambiguous_stems args (Args.input_pe args) →
  forward_reads res !! k = None →
  ∃ f, fileSets res !! k = Some (PyStr f)
       ∧ f ∈ Args.input_pe args
       ∧ pe_class args f = Some (Ambiguous k).
Proof.
  intros Hse. rewrite (read_file_sets_paired _ Hse).
  destruct (pe_loop args init_locals (Args.input_pe args)) as [st1|] eqn:Hloop;
    [|discriminate].
  simpl. intros [= <-].
  destruct (print_totals_fields (store_pairs st1)) as (-> & _ & _ & -> & _).
  destruct (store_pairs_spec st1) as (-> & _ & Hlook & _).
  destruct (pe_loop_class _ _ _ _ Hloop) as (_ & _ & Hst).
  pose proof (pe_loop_dom _ _ _ _ Hloop) as Hdom.
  intros Hk Hf. rewrite Hlook, Hf.
  destruct (fileSets st1 !! k) as [v|] eqn:Ev.
  - destruct (Hst k v Ev) as [Hold|(f & -> & Hin & Hc)]; [|eauto].
    exfalso. revert Hold. apply lookup_empty_Some.
  - apply Hdom in Ev as [_ Hnk]. contradiction.
Qed.

(** ** The claims about [read_file_sets] *)

(** C4: the two MiSeq files [sample_S1_L001_R1_001.fastq.gz] and
    [sample_S1_L001_R2_001.fastq.gz] given as the paired-end input with the
    default designators yield exactly one entry, keyed [sample], holding the
    forward file then the reverse file, with a paired count of 1 and a
    single count of 0; the order in which the two files are given does not
    matter. *)
Theorem read_file_sets_miseq_pair :
  ∃ res res',
    read_file_sets (default_args []
      ["sample_S1_L001_R1_001.fastq.gz"; "sample_S1_L001_R2_001.fastq.gz"])
    = Some res
    ∧ fileSets res =
        {[ "sample" := PyList ["sample_S1_L001_R1_001.fastq.gz";
                               "sample_S1_L001_R2_001.fastq.gz"] ]}
    ∧ num_paired_readsets res = 1
    ∧ num_single_readsets res = 0
    ∧ read_file_sets (default_args []
        ["sample_S1_L001_R2_001.fastq.gz"; "sample_S1_L001_R1_001.fastq.gz"])
      = Some res'
    ∧ fileSets res' = fileSets res
    ∧ num_paired_readsets res' = 1
    ∧ num_single_readsets res' = 0.
Proof.
  vm_compute. do 2 eexists. repeat split; reflexivity.
Qed.

(** C5: a paired-end file whose stem matches the MiSeq pattern with a
    fourth group other than [_R1] and [_R2] makes the loop body print the
    two lines of the direction warning, store the path under the full stem
    (not under the sample name of the first group) and add one to the count
    of single reads, leaving the rest of the state alone. Given alone, the
    file is the only entry of the result and the count of single reads is
    1. Given among other paired-end files, the two lines are in the output,
    the count of single reads is at least 1, and the stem is mapped to the
    bare path of a file with that stem and no known direction, unless a
    forward read has that stem for key. *)
Theorem pe_body_miseq_unknown_direction args st fastq dir stem ext g :
  get_readFile_components fastq = (dir, stem, ext) →
  Re.re_match illumina_pattern stem = Some g →
  Re.group 3 g ≠ "_R1" →
  Re.group 3 g ≠ "_R2" →
  (∃ st', pe_body args st fastq = Some st'
     ∧ stdout st' = stdout st ++ [msg_undetermined fastq; msg_miseq]
     ∧ fileSets st' = <[stem := PyStr fastq]> (fileSets st)
     ∧ num_single_readsets st' = S (num_single_readsets st)
     ∧ num_paired_readsets st' = num_paired_readsets st
     ∧ forward_reads st' = forward_reads st
     ∧ reverse_reads st' = reverse_reads st)
  ∧ (∃ res,
       read_file_sets (Args.mk [] [fastq] (Args.forward args) (Args.reverse args))
       = Some res
       ∧ fileSets res = {[ stem := PyStr fastq ]}
       ∧ num_single_readsets res = 1
       ∧ num_paired_readsets res = 0
       ∧ stdout res = [msg_undetermined fastq; msg_miseq;
                       "Total single reads found:1"])
  ∧ (∀ res,
       Args.input_se args = [] →
       fastq ∈ Args.input_pe args →
       read_file_sets args = Some res →
       msg_undetermined fastq ∈ stdout res
       ∧ msg_miseq ∈ stdout res
       ∧ 1 ≤ num_single_readsets res
       ∧ (forward_reads res !! stem = None →
          ∃ f, fileSets res !! stem = Some (PyStr f)
               ∧ f ∈ Args.input_pe args
               ∧ pe_class args f = Some (Ambiguous stem))).
Proof.
  intros Hc Hm H1 H2.
  assert (Hclass : ∀ a, pe_class a fastq = Some (Ambiguous stem)).
  { intros a. unfold pe_class. rewrite Hc, Hm.
    destruct (String.eqb_spec (Re.group 3 g) "_R1"); [contradiction|].
    destruct (String.eqb_spec (Re.group 3 g) "_R2"); [contradiction|].
    reflexivity. }
  assert (Hbody : ∀ a s, pe_body a s fastq =
            Some (apply_class (Ambiguous stem) fastq s)).
  { intros a s. rewrite pe_body_class, Hclass. reflexivity. }
  split_and!.
  - rewrite Hbody. eexists. split; [reflexivity|]. simpl.
    rewrite <- app_assoc. split_and!; reflexivity.
  - unfold read_file_sets. simpl. rewrite Hbody. simpl.
    eexists. split; [reflexivity|].
    unfold store_pairs. simpl. rewrite map_to_list_empty. simpl.
    split_and!; reflexivity.
  - intros res Hse Hin Hres.
    destruct (read_file_sets_paired_output _ _ Hse Hres) as (Hn & Ha & _).
    destruct (Ha fastq stem Hin (Hclass args)) as [Hu Hq].
    pose proof (elem_of_ambiguous_stems _ _ _ _ Hin (Hclass args)) as Hstem.
    split_and!; [exact Hu|exact Hq| |].
    + destruct (ambiguous_stems args (Args.input_pe args));
        [inversion Hstem|simpl in Hn; lia].
    + intros Hf. apply (read_file_sets_ambiguous_entry _ _ _ Hse Hres Hstem Hf).
Qed.

(** The file [weird_S1_L001_R3_001.fastq.gz] given alone. *)
Lemma pe_body_miseq_unknown_direction_witness :
  ∃ res,
    read_file_sets (default_args [] ["weird_S1_L001_R3_001.fastq.gz"]) = Some res
    ∧ fileSets res =
        {[ "weird_S1_L001_R3_001" := PyStr "weird_S1_L001_R3_001.fastq.gz" ]}
    ∧ num_single_readsets res = 1
    ∧ num_paired_readsets res = 0
    ∧ stdout res = [msg_undetermined "weird_S1_L001_R3_001.fastq.gz"; msg_miseq;
                    "Total single reads found:1"].
Proof.
  apply (pe_body_miseq_unknown_direction
           (default_args [] ["weird_S1_L001_R3_001.fastq.gz"]) init_locals
           "weird_S1_L001_R3_001.fastq.gz" "" "weird_S1_L001_R3_001" ".fastq.gz"
           ["weird"; "_S1"; "_L001"; "_R3"; "_001"]).
  - vm_compute. reflexivity.
  - vm_compute. reflexivity.
  - vm_compute. discriminate.
  - vm_compute. discriminate.
Defined.

(** C8, as stated, fails when two files derive the same key: the
    single-end files [a/x.fastq] and [b/x.fastq] leave one entry of one file
    and a count of single reads of 2. *)
Lemma read_file_sets_single_count_exceeds_entries :
  ∃ res, read_file_sets (default_args ["a/x.fastq"; "b/x.fastq"] []) = Some res
    ∧ num_single_readsets res = 2
    ∧ count_holding 1 (fileSets res) = 1.
Proof. vm_compute. eexists. split_and!; reflexivity. Qed.

(** C8, amended: in single-end mode, and in paired-end mode with
    designators read literally by the pattern syntax, [read_file_sets]
    returns; and in what it returns the count of pairs is the number of
    entries that hold two files, and the count of single reads is at
    least the number of entries that hold one file. The two are equal
    when no entry is replaced: in single-end mode when the input files
    derive pairwise distinct keys; in paired-end mode when the stems
    stored for the MiSeq-shaped files of unknown direction are pairwise
    distinct and none of them is the key of a forward read. *)
Theorem read_file_sets_counts args :
  (Args.input_se args ≠ []
   ∨ (Re.plain (Args.forward args) = true ∧ Re.plain (Args.reverse args) = true) →
   is_Some (read_file_sets args))
  ∧ ∀ res, read_file_sets args = Some res →
    num_paired_readsets res = count_holding 2 (fileSets res)
    ∧ count_holding 1 (fileSets res) ≤ num_single_readsets res
    ∧ (Args.input_se args ≠ [] →
       NoDup (se_key <$> Args.input_se args) →
       num_single_readsets res = count_holding 1 (fileSets res))
    ∧ (Args.input_se args = [] →
       NoDup (ambiguous_stems args (Args.input_pe args)) →
       (∀ s, s ∈ ambiguous_stems args (Args.input_pe args) →
             forward_reads res !! s = None) →
       num_single_readsets res = count_holding 1 (fileSets res)).
Proof.
  split; [apply read_file_sets_returns|]. intros res.
  destruct (decide (Args.input_se args = [])) as [Hse|Hse].
  - rewrite (read_file_sets_paired _ Hse).
    destruct (pe_loop args init_locals (Args.input_pe args)) as [st1|] eqn:Hloop;
      [|discriminate].
    simpl. intros [= <-].
    destruct (print_totals_fields (store_pairs st1)) as (-> & -> & -> & -> & _).
    destruct (pe_loop_counts _ _ _ _ Hloop (count_holding_empty 2))
      as (H2 & Hp & Hle).
    destruct (store_pairs_counts st1 H2) as [Hsp Hss].
    simpl in Hp, Hle. rewrite count_holding_empty in Hle.
    split_and!; [lia|lia|intros []; exact Hse|].
    intros _ Hnd Hfw.
    destruct (pe_loop_counts_exact _ _ _ _ Hloop Hnd) as [Hex Hdom].
    { intros s _. apply lookup_empty. }
    simpl in Hex. rewrite count_holding_empty in Hex.
    destruct (store_pairs_spec st1) as (Hf & _).
    rewrite Hf in Hfw.
    rewrite filter_none in Hss; [simpl in Hss; lia|].
    intros [k f] Hin Hind. simpl in Hind.
    apply elem_of_map_to_list in Hin.
    destruct (fileSets st1 !! k) as [v|] eqn:E; [|discriminate].
    destruct (decide (k ∈ ambiguous_stems args (Args.input_pe args))) as [Hk|Hk].
    + rewrite (Hfw _ Hk) in Hin. discriminate.
    + assert (fileSets st1 !! k = None); [|congruence].
      apply Hdom. split; [apply lookup_empty|exact Hk].
  - rewrite (read_file_sets_single _ Hse). intros [= <-].
    destruct (print_totals_fields (foldl se_body init_locals (Args.input_se args)))
      as (-> & -> & -> & _).
    destruct (se_loop_counts (Args.input_se args) init_locals
                (count_holding_empty 2)) as (H2 & Hle & Heq).
    destruct (se_loop_spec (Args.input_se args) init_locals) as (_ & Hp & _).
    simpl in Hp, Hle, Heq. rewrite count_holding_empty in Hle, Heq.
    split_and!; [lia|lia| |intros E; contradiction].
    intros _ Hnd. specialize (Heq Hnd (λ f _, lookup_empty _)). lia.
Qed.

(** A pair and a lone forward read: both counts agree with the entries. *)
Lemma read_file_sets_counts_witness :
  ∃ res,
    read_file_sets (default_args [] ["s_1.fastq"; "s_2.fastq"; "t_1.fastq"])
    = Some res
    ∧ num_paired_readsets res = count_holding 2 (fileSets res)
    ∧ num_single_readsets res = count_holding 1 (fileSets res).
Proof.
  destruct (read_file_sets
              (default_args [] ["s_1.fastq"; "s_2.fastq"; "t_1.fastq"]))
    as [res|] eqn:E; [|vm_compute in E; discriminate].
  exists res. split; [reflexivity|].
  destruct (read_file_sets_counts
              (default_args [] ["s_1.fastq"; "s_2.fastq"; "t_1.fastq"]))
    as [_ Hall].
  destruct (Hall res E) as (H1 & _ & _ & H4).
  split; [exact H1|].
  apply H4.
  - reflexivity.
  - vm_compute. apply NoDup_nil_2.
  - vm_compute. intros s Hs. exfalso. revert Hs. apply not_elem_of_nil.
Defined.

(** C10: in single-end mode the count of single reads is the number of
    input files and no pair is counted; the entry of a key holds the last
    input file that derives it, an earlier one being replaced without any
    printed line other than the total; so the mapping has at most as many
    entries as the count, and strictly fewer for [a/x.fastq] followed by
    [b/x.fastq], which share the key [x]. *)
Theorem read_file_sets_single_end args :
  Args.input_se args ≠ [] →
  ∃ res, read_file_sets args = Some res
    ∧ num_single_readsets res = length (Args.input_se args)
    ∧ num_paired_readsets res = 0
    ∧ (∀ k, fileSets res !! k =
            (λ f, PyList [f]) <$>
              last (filter (λ f, se_key f = k) (Args.input_se args)))
    ∧ size (fileSets res) ≤ num_single_readsets res
    ∧ stdout res =
        ["Total single reads found:" +:+ pretty (length (Args.input_se args))]
    ∧ ∃ res', read_file_sets (default_args ["a/x.fastq"; "b/x.fastq"] []) = Some res'
        ∧ fileSets res' = {[ "x" := PyList ["b/x.fastq"] ]}
        ∧ num_single_readsets res' = 2.
Proof.
  intros Hne. unfold read_file_sets.
  destruct (Args.input_se args) as [|f0 l0] eqn:Hse; [contradiction|].
  rewrite <- Hse. clear Hne.
  destruct (se_loop_spec (Args.input_se args) init_locals)
    as (Hs & Hp & Ho & Hz & Hl).
  simpl in *. set (st := foldl se_body init_locals (Args.input_se args)) in *.
  eexists. split; [reflexivity|].
  assert (Hpos : (0 <? num_single_readsets st) = true).
  { apply Nat.ltb_lt. rewrite Hs, Hse. simpl. lia. }
  unfold print_totals. rewrite Hp. simpl. rewrite Hpos. simpl.
  rewrite Hs, Ho. rewrite map_size_empty in Hz.
  split_and!; [reflexivity|exact Hp| |lia|reflexivity|].
  - intros k. rewrite Hl, lookup_empty.
    destruct (last (filter _ _)); reflexivity.
  - vm_compute. eexists. split_and!; reflexivity.
Qed.

(** The single-end files [a/x.fastq] and [b/x.fastq]. *)
Lemma read_file_sets_single_end_witness :
  ∃ res, read_file_sets (default_args ["a/x.fastq"; "b/x.fastq"] []) = Some res
    ∧ num_single_readsets res = 2
    ∧ num_paired_readsets res = 0
    ∧ size (fileSets res) ≤ num_single_readsets res.
Proof.
  destruct (read_file_sets_single_end
              (default_args ["a/x.fastq"; "b/x.fastq"] []))
    as (res & Hr & Hs & Hp & _ & Hz & _).
  - simpl. discriminate.
  - exists res. repeat split; assumption.
Defined.

(** * Further properties *)

(** ** Facts about [rfind], [os.path.split] and [os.path.splitext] *)

Lemma has_char_app c s t :
  has_char c (s +:+ t) = has_char c s || has_char c t.
Proof.
  induction s as [|a s IH]; [reflexivity|].
  rewrite str_app_cons. simpl. rewrite IH, orb_assoc. reflexivity.
Qed.

Lemma has_char_prefix c s t :
  has_char c (s +:+ t) = false → has_char c s = false.
Proof. rewrite has_char_app. intros [? _]%orb_false_elim. assumption. Qed.

Lemma rfind_from_none c s i :
  has_char c s = false → Py.rfind_from c s i = (-1)%Z.
Proof.
  revert i. induction s as [|a s IH]; intros i; simpl; [reflexivity|].
  intros [Ha Hs]%orb_false_elim. rewrite (IH _ Hs), Ha. reflexivity.
Qed.

(** [rfind] finds nothing or a position after which the character does not
    occur. *)
Lemma rfind_from_spec c s i :
  (0 ≤ i)%Z →
  (Py.rfind_from c s i = -1 ∧ has_char c s = false)%Z
  ∨ (i ≤ Py.rfind_from c s i
     ∧ has_char c (Py.drop (Z.to_nat (Py.rfind_from c s i - i + 1)) s) = false)%Z.
Proof.
  revert i. induction s as [|a s IH]; intros i Hi; simpl; [auto|].
  destruct (IH (i + 1)%Z ltac:(lia)) as [[Hr Hn]|[Hr Hn]].
  - rewrite Hr. simpl. destruct (Ascii.eqb a c); simpl.
    + right. split; [lia|]. replace (i - i + 1)%Z with 1%Z by lia. exact Hn.
    + left. auto.
  - destruct (0 <=? Py.rfind_from c s (i + 1))%Z eqn:E; [|lia].
    right. split; [lia|].
    replace (Z.to_nat (Py.rfind_from c s (i + 1) - i + 1))
      with (S (Z.to_nat (Py.rfind_from c s (i + 1) - (i + 1) + 1))) by lia.
    exact Hn.
Qed.

(** At the position that [rfind] finds stands the character. *)
Lemma rfind_from_hit c s i :
  (0 ≤ i)%Z → (i ≤ Py.rfind_from c s i)%Z →
  ∃ t, Py.drop (Z.to_nat (Py.rfind_from c s i - i)) s = String c t.
Proof.
  revert i. induction s as [|a s IH]; intros i Hi; simpl; [lia|].
  destruct (rfind_from_spec c s (i + 1) ltac:(lia)) as [[Hr _]|[Hr _]].
  - rewrite Hr. simpl. destruct (Ascii.eqb_spec a c) as [->|_]; [|lia].
    intros _. replace (i - i)%Z with 0%Z by lia. simpl. eauto.
  - destruct (0 <=? Py.rfind_from c s (i + 1))%Z eqn:E; [|lia].
    intros _. destruct (IH (i + 1)%Z ltac:(lia) Hr) as [t Ht].
    replace (Z.to_nat (Py.rfind_from c s (i + 1) - i))
      with (S (Z.to_nat (Py.rfind_from c s (i + 1) - (i + 1)))) by lia.
    eauto.
Qed.

(** The last occurrence of [c] in [d + c + name], when [name] has none. *)
Lemma rfind_from_join c d name i :
  (0 ≤ i)%Z → has_char c name = false →
  Py.rfind_from c (d +:+ String c name) i = (i + Z.of_nat (String.length d))%Z.
Proof.
  intros Hi Hn. revert i Hi. induction d as [|a d IH]; intros i Hi.
  - rewrite str_app_nil_l. simpl. rewrite (rfind_from_none _ _ _ Hn). simpl.
    rewrite Ascii.eqb_refl. lia.
  - rewrite str_app_cons. cbn [Py.rfind_from]. rewrite (IH (i + 1)%Z) by lia.
    cbn [String.length].
    destruct (0 <=? i + 1 + Z.of_nat (String.length d))%Z eqn:E; lia.
Qed.

(** The second component of [os.path.split] has no separator. *)
Lemma split_tail_no_sep p : has_char OsPath.sep (OsPath.split p).2 = false.
Proof.
  unfold OsPath.split. simpl. unfold Py.slice_from, Py.rfind.
  destruct (rfind_from_spec OsPath.sep p 0 ltac:(lia)) as [[Hr Hn]|[Hr Hn]].
  - rewrite Hr. exact Hn.
  - replace (Py.rfind_from OsPath.sep p 0 - 0 + 1)%Z
      with (Py.rfind_from OsPath.sep p 0 + 1)%Z in Hn by lia.
    exact Hn.
Qed.

Lemma basename_join dir name :
  has_char OsPath.sep name = false →
  basename (dir +:+ String OsPath.sep name) = name.
Proof.
  intros Hn. unfold basename, OsPath.split. simpl.
  unfold Py.slice_from, Py.rfind.
  rewrite (rfind_from_join _ _ _ 0%Z ltac:(lia) Hn).
  replace (Z.to_nat (0 + Z.of_nat (String.length dir) + 1))
    with (String.length (dir +:+ String OsPath.sep "")).
  - replace (dir +:+ String OsPath.sep name)
      with ((dir +:+ String OsPath.sep "") +:+ name)
      by (rewrite str_app_assoc; reflexivity).
    apply drop_app_length.
  - rewrite str_length_app. simpl. lia.
Qed.

Lemma basename_no_sep name :
  has_char OsPath.sep name = false → basename name = name.
Proof.
  intros Hn. unfold basename, OsPath.split. simpl.
  unfold Py.slice_from, Py.rfind. rewrite (rfind_from_none _ _ _ Hn). reflexivity.
Qed.

(** The extension that [os.path.splitext] returns is empty or begins with
    a period. *)
Lemma splitext_ext_dot p :
  (OsPath.splitext p).2 = "" ∨ ∃ e, (OsPath.splitext p).2 = String OsPath.extsep e.
Proof.
  unfold OsPath.splitext.
  destruct (_ && _) eqn:E; simpl; [|auto].
  right. apply andb_true_iff in E as [E _]. apply Z.ltb_lt in E.
  unfold Py.slice_from, Py.rfind in *.
  destruct (rfind_from_spec OsPath.sep p 0 ltac:(lia)) as [[Hs _]|[Hs _]];
    destruct (rfind_from_hit OsPath.extsep p 0 ltac:(lia) ltac:(lia)) as [t Ht];
    rewrite Z.sub_0_r in Ht; eauto.
Qed.

(** ** The first group of a match *)

(** The groups closed when the matcher reaches its continuation extend the
    groups it started with. *)
Lemma run_caps_extend r s caps k g :
  Re.run r s caps k = Some g →
  ∃ s' caps', k s' caps' = Some g ∧ caps `prefix_of` caps'.
Proof.
  revert s caps k. induction r as [a|a| |r1 IH1 r2 IH2|r IH| ];
    intros s caps k; simpl.
  - destruct s as [|c s]; [discriminate|].
    destruct (Re.atom_match a c); [|discriminate]. eauto.
  - intros (p & t & _ & _ & Hk)%ReFacts.star_sound. eauto.
  - destruct (_ || _); [|discriminate]. eauto.
  - intros (s1 & c1 & H1 & P1)%IH1.
    apply IH2 in H1 as (s2 & c2 & H2 & P2).
    exists s2, c2. split; [exact H2|]. etrans; eassumption.
  - intros (s1 & c1 & H1 & P1)%IH. eexists _, _. split; [exact H1|].
    etrans; [exact P1|]. apply prefix_app_r. reflexivity.
  - eauto.
Qed.

(** In a match of a pattern that opens with a group holding [a*], the first
    group is a prefix of the input. *)
Lemma first_group_prefix a r s g :
  Re.re_match (Re.RSeq (Re.RGroup (Re.RStar a)) r) s = Some g →
  ∃ t, s = Re.group 0 g +:+ t.
Proof.
  unfold Re.re_match. simpl.
  intros (p & t & -> & _ & Hk)%ReFacts.star_sound.
  apply run_caps_extend in Hk as (s' & caps' & [= <-] & [l ->]).
  exists t. rewrite consumed_app. reflexivity.
Qed.

(** ** Stems and keys *)

Lemma stem_of_prefix_basename fastq : ∃ t, basename fastq = stem_of fastq +:+ t.
Proof.
  unfold stem_of, basename, get_readFile_components.
  destruct (OsPath.split fastq) as [file_path file_name]. simpl.
  destruct (Re.re_match gz_pattern file_name) as [g|] eqn:Hg.
  - apply first_group_prefix in Hg as [t Ht].
    pose proof (splitext_reassemble (Re.group 0 g)) as Hsp.
    destruct (OsPath.splitext (Re.group 0 g)) as [root e]. simpl in *.
    exists (e +:+ t). rewrite <- str_app_assoc, Hsp. exact Ht.
  - pose proof (splitext_reassemble file_name) as Hsp.
    destruct (OsPath.splitext file_name) as [root e]. simpl in *.
    exists e. symmetry. exact Hsp.
Qed.

Lemma stem_of_no_sep fastq : has_char OsPath.sep (stem_of fastq) = false.
Proof.
  destruct (stem_of_prefix_basename fastq) as [t Ht].
  apply (has_char_prefix _ _ t). rewrite <- Ht. apply split_tail_no_sep.
Qed.

Lemma ext_of_dot fastq :
  ext_of fastq = "" ∨ ∃ e, ext_of fastq = String OsPath.extsep e.
Proof.
  unfold ext_of, get_readFile_components.
  destruct (OsPath.split fastq) as [file_path file_name].
  destruct (Re.re_match gz_pattern file_name) as [g|].
  - destruct (splitext_ext_dot (Re.group 0 g)) as [He|[e He]];
      destruct (OsPath.splitext (Re.group 0 g)) as [root e2];
      simpl in *; subst e2; [right|right]; eauto.
  - destruct (splitext_ext_dot file_name) as [He|[e He]];
      destruct (OsPath.splitext file_name) as [root e2];
      simpl in *; subst e2; [left; reflexivity|right].
    rewrite str_app_nil_r. eauto.
Qed.

(** The key of a single-end file is a prefix of its stem. *)
Lemma se_key_prefix fastq : ∃ t, stem_of fastq = se_key fastq +:+ t.
Proof.
  unfold stem_of, se_key.
  destruct (get_readFile_components fastq) as [[file_path stem] full_ext].
  simpl. destruct (Re.re_match illumina_pattern stem) as [g|] eqn:Hg.
  - apply first_group_prefix in Hg. exact Hg.
  - exists "". rewrite str_app_nil_r. reflexivity.
Qed.

(** The key decided for a paired-end file is a prefix of its stem. *)
Lemma pe_class_key_prefix args fastq c k :
  pe_class args fastq = Some c → class_key c = Some k →
  ∃ t, stem_of fastq = k +:+ t.
Proof.
  unfold stem_of, pe_class, designator_pattern.
  destruct (get_readFile_components fastq) as [[file_path stem] full_ext].
  simpl. destruct (Re.re_match illumina_pattern stem) as [g|] eqn:Hg.
  - apply first_group_prefix in Hg.
    destruct (String.eqb _ "_R1"); [|destruct (String.eqb _ "_R2")];
      intros [= <-] [= <-]; try exact Hg.
    exists "". rewrite str_app_nil_r. reflexivity.
  - destruct (Re.plain (Args.forward args)); [|discriminate]. simpl.
    destruct (Re.re_match (suffix_regex (Args.forward args)) stem) as [gf|] eqn:Hf.
    { apply first_group_prefix in Hf. intros [= <-] [= <-]. exact Hf. }
    destruct (Re.plain (Args.reverse args)); [|discriminate]. simpl.
    destruct (Re.re_match (suffix_regex (Args.reverse args)) stem) as [gr|] eqn:Hr.
    { apply first_group_prefix in Hr. intros [= <-] [= <-]. exact Hr. }
    intros [= <-]. discriminate.
Qed.

(** The stem and the keys of a path depend on its last component only. *)
Lemma basename_determines p q :
  basename p = basename q →
  stem_of p = stem_of q ∧ ext_of p = ext_of q ∧ se_key p = se_key q
  ∧ ∀ args, pe_class args p = pe_class args q.
Proof.
  unfold basename, stem_of, ext_of, se_key, pe_class, get_readFile_components.
  destruct (OsPath.split p) as [dp np], (OsPath.split q) as [dq nq].
  simpl. intros ->.
  destruct (Re.re_match gz_pattern nq) as [g|];
    [destruct (OsPath.splitext (Re.group 0 g))|destruct (OsPath.splitext nq)];
    simpl; auto.
Qed.

(** ** The paired-end mapping in terms of the input *)

Lemma last_with_cons key k f l :
  last_with key k (f :: l) =
  match last_with key k l with
  | Some g => Some g
  | None => if decide (key f = Some k) then Some f else None
  end.
Proof.
  unfold last_with. rewrite filter_cons.
  destruct (decide (key f = Some k)); [|destruct (last _); reflexivity].
  rewrite last_cons. reflexivity.
Qed.

Lemma last_with_Some key k l f :
  last_with key k l = Some f → f ∈ l ∧ key f = Some k.
Proof.
  unfold last_with. intros H.
  apply last_Some_elem_of, list_elem_of_filter in H as [Hk Hin]. auto.
Qed.

Lemma forward_key_class args f k :
  forward_key args f = Some k → pe_class args f = Some (Forward k).
Proof.
  unfold forward_key. destruct (pe_class args f) as [[| | |]|]; congruence.
Qed.

Lemma reverse_key_class args f k :
  reverse_key args f = Some k → pe_class args f = Some (Reverse k).
Proof.
  unfold reverse_key. destruct (pe_class args f) as [[| | |]|]; congruence.
Qed.

Lemma ambiguous_key_class args f k :
  ambiguous_key args f = Some k → pe_class args f = Some (Ambiguous k).
Proof.
  unfold ambiguous_key. destruct (pe_class args f) as [[| | |]|]; congruence.
Qed.

(** The three dictionaries after the paired-end loop: each key holds the
    last file that the loop stored under it. *)
Lemma pe_loop_buckets args l st st' :
  pe_loop args st l = Some st' →
  ∀ k,
    forward_reads st' !! k =
      match last_with (forward_key args) k l with
      | Some f => Some f
      | None => forward_reads st !! k
      end
    ∧ reverse_reads st' !! k =
      match last_with (reverse_key args) k l with
      | Some f => Some f
      | None => reverse_reads st !! k
      end
    ∧ fileSets st' !! k =
      match last_with (ambiguous_key args) k l with
      | Some f => Some (PyStr f)
      | None => fileSets st !! k
      end.
Proof.
  revert st. induction l as [|f l IH]; intros st Hloop k; simpl in Hloop.
  { injection Hloop as <-. auto. }
  rewrite pe_body_class in Hloop.
  destruct (pe_class args f) as [c|] eqn:Hc; [|discriminate]. simpl in Hloop.
  destruct (IH _ Hloop k) as (Hf & Hr & Ha). clear IH.
  rewrite Hf, Hr, Ha, !last_with_cons.
  assert (Hfk : forward_key args f = match c with Forward s => Some s | _ => None end)
    by (unfold forward_key; rewrite Hc; reflexivity).
  assert (Hrk : reverse_key args f = match c with Reverse s => Some s | _ => None end)
    by (unfold reverse_key; rewrite Hc; reflexivity).
  assert (Hak : ambiguous_key args f = match c with Ambiguous s => Some s | _ => None end)
    by (unfold ambiguous_key; rewrite Hc; reflexivity).
  rewrite Hfk, Hrk, Hak.
  destruct (last_with (forward_key args) k l), (last_with (reverse_key args) k l),
           (last_with (ambiguous_key args) k l);
    destruct c as [k0|k0|k0|]; simpl;
    repeat case_decide; simplify_eq;
    rewrite ?lookup_insert_eq; split_and!; try reflexivity;
    rewrite lookup_insert_ne by congruence; reflexivity.
Qed.

(** The returned mapping in paired-end mode, in terms of the state left by
    the paired-end loop started on the initial state. *)
Lemma paired_lookup args st1 k :
  pe_loop args init_locals (Args.input_pe args) = Some st1 →
  fileSets (print_totals (store_pairs st1)) !! k =
    match last_with (forward_key args) k (Args.input_pe args) with
    | Some f =>
        match last_with (reverse_key args) k (Args.input_pe args) with
        | Some r => Some (PyList [f; r])
        | None => Some (PyList [f])
        end
    | None =>
        match last_with (ambiguous_key args) k (Args.input_pe args) with
        | Some a => Some (PyStr a)
        | None => PyStr <$> last_with (reverse_key args) k (Args.input_pe args)
        end
    end.
Proof.
  intros Hloop.
  destruct (print_totals_fields (store_pairs st1)) as (-> & _).
  destruct (store_pairs_spec st1) as (_ & _ & Hlook & _).
  destruct (pe_loop_buckets _ _ _ _ Hloop k) as (Hf & Hr & Ha).
  rewrite Hlook, Hf, Ha. unfold pair_value. rewrite Hr.
  destruct (last_with (forward_key args) k (Args.input_pe args)),
           (last_with (reverse_key args) k (Args.input_pe args)),
           (last_with (ambiguous_key args) k (Args.input_pe args));
    reflexivity.
Qed.

(** X1: the mapping returned in paired-end mode, key by key, in terms of
    the input list, for designators that pattern syntax reads literally
    (the defaults are): with such designators [read_file_sets] returns,
    and the forward (reverse) dictionary holds under a key the last input
    file that the loop decided to be a forward (reverse) read of that key.
    The entry of a key is the list of one or two paths when a forward read
    has the key; otherwise the bare path of the last MiSeq-shaped file of
    unknown direction whose stem is the key; otherwise the bare path of
    the reverse read; otherwise the key is absent. *)
Theorem read_file_sets_paired_entries args :
  Args.input_se args = [] →
  (Re.plain (Args.forward args) = true →
   Re.plain (Args.reverse args) = true →
   is_Some (read_file_sets args))
  ∧ ∀ res, read_file_sets args = Some res →
    ∀ k,
      forward_reads res !! k = last_with (forward_key args) k (Args.input_pe args)
      ∧ reverse_reads res !! k = last_with (reverse_key args) k (Args.input_pe args)
      ∧ fileSets res !! k =
          match last_with (forward_key args) k (Args.input_pe args) with
          | Some f =>
              match last_with (reverse_key args) k (Args.input_pe args) with
              | Some r => Some (PyList [f; r])
              | None => Some (PyList [f])
              end
          | None =>
              match last_with (ambiguous_key args) k (Args.input_pe args) with
              | Some a => Some (PyStr a)
              | None => PyStr <$> last_with (reverse_key args) k (Args.input_pe args)
              end
          end.
Proof.
  intros Hse. split; [intros Hf Hr; apply read_file_sets_returns; auto|].
  intros res. rewrite (read_file_sets_paired _ Hse).
  destruct (pe_loop args init_locals (Args.input_pe args)) as [st1|] eqn:Hloop;
    [|discriminate].
  simpl. intros [= <-] k.
  split_and!; [| |apply paired_lookup; exact Hloop].
  - destruct (print_totals_fields (store_pairs st1)) as (_ & _ & _ & -> & _).
    destruct (store_pairs_spec st1) as (-> & _).
    destruct (pe_loop_buckets _ _ _ _ Hloop k) as (-> & _).
    destruct (last_with _ _ _); reflexivity.
  - destruct (print_totals_fields (store_pairs st1)) as (_ & _ & _ & _ & ->).
    destruct (store_pairs_spec st1) as (_ & -> & _).
    destruct (pe_loop_buckets _ _ _ _ Hloop k) as (_ & -> & _).
    destruct (last_with _ _ _); reflexivity.
Qed.

(** Two forward reads of sample [s] from different directories and its
    reverse read: the later forward read is the one kept. *)
Lemma read_file_sets_paired_entries_witness :
  ∃ res,
    read_file_sets (default_args [] ["a/s_1.fastq"; "b/s_1.fastq"; "s_2.fastq"])
    = Some res
    ∧ fileSets res !! "s" = Some (PyList ["b/s_1.fastq"; "s_2.fastq"]).
Proof.
  destruct (read_file_sets_paired_entries
              (default_args [] ["a/s_1.fastq"; "b/s_1.fastq"; "s_2.fastq"])
              eq_refl) as [Hret Hall].
  destruct (Hret eq_refl eq_refl) as [res E].
  exists res. split; [exact E|].
  destruct (Hall res E "s") as (_ & _ & ->).
  vm_compute. reflexivity.
Defined.

(** X2: in single-end mode, and in paired-end mode with designators that
    pattern syntax reads literally, [read_file_sets] returns, and every
    key of the returned mapping is a prefix of the stem of a file that its
    entry holds, an input file, and contains no path separator: the
    directories of the input files never enter a key. *)
Theorem read_file_sets_keys_from_stems args :
  (Args.input_se args ≠ []
   ∨ (Re.plain (Args.forward args) = true ∧ Re.plain (Args.reverse args) = true) →
   is_Some (read_file_sets args))
  ∧ ∀ res k v,
      read_file_sets args = Some res →
      fileSets res !! k = Some v →
      has_char OsPath.sep k = false
      ∧ ∃ f t, f ∈ files_of v
               ∧ f ∈ Args.input_se args ++ Args.input_pe args
               ∧ stem_of f = k +:+ t.
Proof.
  split; [apply read_file_sets_returns|].
  intros res k v Hres Hv.
  assert (H : ∃ f t, f ∈ files_of v
                     ∧ f ∈ Args.input_se args ++ Args.input_pe args
                     ∧ stem_of f = k +:+ t).
  { destruct (decide (Args.input_se args = [])) as [Hse|Hse].
    - rewrite (read_file_sets_paired _ Hse) in Hres.
      destruct (pe_loop args init_locals (Args.input_pe args)) as [st1|] eqn:Hloop;
        [|discriminate].
      simpl in Hres. injection Hres as <-.
      rewrite (paired_lookup _ _ k Hloop) in Hv.
      assert (Hfrom : ∀ key f,
                last_with key k (Args.input_pe args) = Some f →
                (∀ g, key g = Some k → ∃ c, pe_class args g = Some c
                                            ∧ class_key c = Some k) →
                f ∈ Args.input_se args ++ Args.input_pe args
                ∧ ∃ t, stem_of f = k +:+ t).
      { intros key f [Hin Hk]%last_with_Some Hcl.
        split; [apply elem_of_app; right; exact Hin|].
        destruct (Hcl f Hk) as (c & Hc & Hck).
        exact (pe_class_key_prefix _ _ _ _ Hc Hck). }
      assert (Hfw : ∀ g, forward_key args g = Some k →
                ∃ c, pe_class args g = Some c ∧ class_key c = Some k)
        by (intros g Hg%forward_key_class; eauto).
      assert (Hrv : ∀ g, reverse_key args g = Some k →
                ∃ c, pe_class args g = Some c ∧ class_key c = Some k)
        by (intros g Hg%reverse_key_class; eauto).
      assert (Ham : ∀ g, ambiguous_key args g = Some k →
                ∃ c, pe_class args g = Some c ∧ class_key c = Some k)
        by (intros g Hg%ambiguous_key_class; eauto).
      destruct (last_with (forward_key args) k (Args.input_pe args))
        as [f|] eqn:Ef.
      + destruct (Hfrom _ _ Ef Hfw) as (Hin & t & Ht).
        exists f, t. split_and!; [|exact Hin|exact Ht].
        destruct (last_with (reverse_key args) k (Args.input_pe args));
          injection Hv as <-; left.
      + destruct (last_with (ambiguous_key args) k (Args.input_pe args))
          as [a|] eqn:Ea.
        * destruct (Hfrom _ _ Ea Ham) as (Hin & t & Ht).
          injection Hv as <-. exists a, t. split_and!; [left|exact Hin|exact Ht].
        * destruct (last_with (reverse_key args) k (Args.input_pe args))
            as [r|] eqn:Er; [|discriminate].
          destruct (Hfrom _ _ Er Hrv) as (Hin & t & Ht).
          injection Hv as <-. exists r, t. split_and!; [left|exact Hin|exact Ht].
    - rewrite (read_file_sets_single _ Hse) in Hres. injection Hres as <-.
      destruct (print_totals_fields
                  (foldl se_body init_locals (Args.input_se args))) as (Hfs & _).
      rewrite Hfs in Hv. clear Hfs.
      destruct (se_loop_spec (Args.input_se args) init_locals)
        as (_ & _ & _ & _ & Hl).
      rewrite Hl in Hv. clear Hl.
      destruct (last (filter _ _)) as [g|] eqn:Eg.
      + injection Hv as <-.
        apply last_Some_elem_of, list_elem_of_filter in Eg as [Hk Hin].
        destruct (se_key_prefix g) as [t Ht]. rewrite Hk in Ht.
        exists g, t. split_and!; [left|apply elem_of_app; left; exact Hin|exact Ht].
      + exfalso. revert Hv. apply lookup_empty_Some. }
  split; [|exact H].
  destruct H as (f & t & _ & _ & Ht).
  apply (has_char_prefix _ _ t). rewrite <- Ht. apply stem_of_no_sep.
Qed.

Lemma read_file_sets_keys_from_stems_witness :
  ∃ res,
    read_file_sets (default_args [] ["run/lane1/s_1.fastq.gz"]) = Some res
    ∧ has_char OsPath.sep "s" = false
    ∧ ∃ f t, f ∈ ["run/lane1/s_1.fastq.gz"] ∧ stem_of f = "s" +:+ t.
Proof.
  destruct (read_file_sets_keys_from_stems
              (default_args [] ["run/lane1/s_1.fastq.gz"])) as [Hret Hall].
  destruct (Hret (or_intror (conj eq_refl eq_refl))) as [res E].
  exists res. split; [exact E|].
  assert (Hv : fileSets res !! "s" = Some (PyList ["run/lane1/s_1.fastq.gz"])).
  { assert (E' : (λ st, fileSets st !! "s")
                   <$> read_file_sets (default_args [] ["run/lane1/s_1.fastq.gz"])
                 = Some (Some (PyList ["run/lane1/s_1.fastq.gz"])))
      by (vm_compute; reflexivity).
    rewrite E in E'. injection E' as E'. exact E'. }
  destruct (Hall _ _ _ E Hv) as (Hk & f & t & Hf & _ & Ht).
  split; [exact Hk|]. exists f, t. split; [exact Hf|exact Ht].
Defined.

(** X3: the stem, the extension and the keys of a path do not depend on
    its directory. For a file name without separator, the path made of any
    directory, a separator and the name gets the stem, the extension, the
    single-end key and the paired-end decision of the bare name; two files
    of the same name in different directories therefore share their key. *)
Theorem keys_ignore_directory dir name :
  has_char OsPath.sep name = false →
  stem_of (dir +:+ String OsPath.sep name) = stem_of name
  ∧ ext_of (dir +:+ String OsPath.sep name) = ext_of name
  ∧ se_key (dir +:+ String OsPath.sep name) = se_key name
  ∧ ∀ args, pe_class args (dir +:+ String OsPath.sep name) = pe_class args name.
Proof.
  intros Hn. apply basename_determines.
  rewrite (basename_join _ _ Hn), (basename_no_sep _ Hn). reflexivity.
Qed.

Lemma keys_ignore_directory_witness :
  se_key ("/data/run1" +:+ String OsPath.sep "sampleA_1.fastq.gz")
  = se_key "sampleA_1.fastq.gz".
Proof.
  apply (keys_ignore_directory "/data/run1" "sampleA_1.fastq.gz"). reflexivity.
Defined.

(** X4: what [get_readFile_components] returns on any path. The stem is a
    prefix of the last component of the path and contains no separator;
    the extension is empty or begins with a period. *)
Theorem get_readFile_components_shape p :
  (∃ t, basename p = stem_of p +:+ t)
  ∧ has_char OsPath.sep (stem_of p) = false
  ∧ (ext_of p = "" ∨ ∃ e, ext_of p = String OsPath.extsep e).
Proof.
  split_and!; [apply stem_of_prefix_basename|apply stem_of_no_sep|apply ext_of_dot].
Qed.

(** X5: a file name made of a part without newline followed by [.gz] is
    decomposed as the code intends: the stem and the inner extension are
    those that [os.path.splitext] gives for the part before [.gz], the
    full extension ends with [.gz], and the stem followed by the full
    extension is the file name. *)
Theorem get_readFile_components_gz_suffix p base :
  basename p = base +:+ ".gz" →
  no_newline base = true →
  stem_of p = (OsPath.splitext base).1
  ∧ ext_of p = (OsPath.splitext base).2 +:+ ".gz"
  ∧ stem_of p +:+ ext_of p = basename p.
Proof.
  unfold basename, stem_of, ext_of, get_readFile_components.
  destruct (OsPath.split p) as [file_path file_name]. simpl.
  intros -> Hb. rewrite (gz_pattern_gz_suffix _ Hb).
  change (Re.group 0 [base]) with base.
  pose proof (splitext_reassemble base) as Hsp.
  destruct (OsPath.splitext base) as [root e]. simpl in *.
  split_and!; [reflexivity..|].
  rewrite <- str_app_assoc, Hsp. reflexivity.
Qed.

Lemma get_readFile_components_gz_suffix_witness :
  stem_of "/data/run1/sampleA_1.fastq.gz" = (OsPath.splitext "sampleA_1.fastq").1
  ∧ ext_of "/data/run1/sampleA_1.fastq.gz"
    = (OsPath.splitext "sampleA_1.fastq").2 +:+ ".gz"
  ∧ stem_of "/data/run1/sampleA_1.fastq.gz" +:+ ext_of "/data/run1/sampleA_1.fastq.gz"
    = basename "/data/run1/sampleA_1.fastq.gz".
Proof.
  apply (get_readFile_components_gz_suffix
           "/data/run1/sampleA_1.fastq.gz" "sampleA_1.fastq"); reflexivity.
Defined.

(** ** What is printed in paired-end mode *)

Lemma pe_loop_stdout args l st st' :
  pe_loop args st l = Some st' →
  stdout st' = stdout st ++ (l ≫= pe_lines args).
Proof.
  revert st. induction l as [|f l IH]; intros st Hloop; simpl in Hloop.
  { injection Hloop as <-. simpl. rewrite app_nil_r. reflexivity. }
  rewrite pe_body_class in Hloop.
  destruct (pe_class args f) as [c|] eqn:Hc; [|discriminate]. simpl in Hloop.
  rewrite (IH _ Hloop). clear IH Hloop.
  change ((f :: l) ≫= pe_lines args)
    with (pe_lines args f ++ (l ≫= pe_lines args)).
  unfold pe_lines. rewrite Hc.
  destruct c; simpl; rewrite <- ?app_assoc; reflexivity.
Qed.

Lemma print_totals_lines st :
  stdout (print_totals st) =
  stdout st ++ totals_lines (num_paired_readsets st) (num_single_readsets st).
Proof.
  unfold print_totals, totals_lines.
  destruct (0 <? num_paired_readsets st); simpl;
    destruct (0 <? num_single_readsets st); simpl;
    rewrite <- ?app_assoc, ?app_nil_r; reflexivity.
Qed.

Lemma msg_no_pair_inj p q : msg_no_pair p = msg_no_pair q → p = q.
Proof.
  unfold msg_no_pair. intros H.
  pose proof (ReFacts.strip_prefix_app "Warning, could not find pair for read:" p) as Hp.
  pose proof (ReFacts.strip_prefix_app "Warning, could not find pair for read:" q) as Hq.
  rewrite H in Hp. congruence.
Qed.

Lemma msg_no_pair_not_in_pe_lines args l p :
  msg_no_pair p ∉ l ≫= pe_lines args.
Proof.
  intros (f & Hin & _)%list_elem_of_bind. unfold pe_lines in Hin.
  destruct (pe_class args f) as [[| | |]|];
    repeat (apply elem_of_cons in Hin as [Hin|Hin]; [discriminate Hin|]);
    inversion Hin.
Qed.

Lemma msg_no_pair_not_in_totals n m p : msg_no_pair p ∉ totals_lines n m.
Proof.
  unfold totals_lines. intros Hin.
  apply elem_of_app in Hin as [Hin|Hin];
    [destruct (0 <? n)|destruct (0 <? m)];
    repeat (apply elem_of_cons in Hin as [Hin|Hin]; [discriminate Hin|]);
    inversion Hin.
Qed.

(** The missing-pair warnings printed while visiting the list [l] of
    the entries of [m], in any order: one for each entry whose key
    satisfies [P]. *)
Lemma elem_of_warnings (P : string → Prop) `{!∀ k, Decision (P k)}
    (l : list (string * string)) (m : gmap string string) p :
  l ≡ₚ map_to_list m →
  msg_no_pair p ∈ (λ e, msg_no_pair e.2) <$> filter (λ e, P e.1) l
  ↔ ∃ k, m !! k = Some p ∧ P k.
Proof.
  intros Hl. rewrite list_elem_of_fmap. split.
  - intros ([k q] & Heq%msg_no_pair_inj & [HP Hin]%list_elem_of_filter).
    simpl in *. subst q. exists k. split; [|exact HP].
    apply elem_of_map_to_list. rewrite <- Hl. exact Hin.
  - intros (k & Hk & HP). exists (k, p). split; [reflexivity|].
    apply list_elem_of_filter. split; [exact HP|].
    rewrite Hl. apply elem_of_map_to_list. exact Hk.
Qed.

(** What the two pairing loops print, whatever the order [l1] in which the
    forward samples and the order [l2] in which the reverse samples are
    visited. *)
Lemma pairing_loops_stdout st l1 l2 :
  l1 ≡ₚ map_to_list (forward_reads st) →
  l2 ≡ₚ map_to_list (reverse_reads st) →
  let st' := foldl unpaired_reverse_body (foldl pair_body st l1) l2 in
  forward_reads st' = forward_reads st
  ∧ reverse_reads st' = reverse_reads st
  ∧ stdout st' =
      stdout st
      ++ ((λ e, msg_no_pair e.2) <$>
            filter (λ e, reverse_reads st !! e.1 = None) l1)
      ++ ((λ e, msg_no_pair e.2) <$>
            filter (λ e, forward_reads st !! e.1 = None
                         ∧ fileSets st !! e.1 = None) l2).
Proof.
  intros H1 H2.
  assert (Hnd1 : NoDup l1.*1).
  { rewrite H1. apply NoDup_fst_map_to_list. }
  assert (Hnd2 : NoDup l2.*1).
  { rewrite H2. apply NoDup_fst_map_to_list. }
  destruct (pair_loop_spec l1 st _ eq_refl Hnd1)
    as (Hf1 & Hr1 & Hin1 & Hout1 & _ & _ & Ho1).
  set (st1 := foldl pair_body st l1) in *.
  destruct (unpaired_reverse_loop_spec l2 st1 Hnd2)
    as (Hf2 & Hr2 & _ & _ & _ & _ & Ho2).
  cbv zeta. rewrite Hf2, Hr2, Hf1, Hr1, Ho2, Ho1, <- !app_assoc.
  split_and!; [reflexivity..|]. do 3 f_equal.
  apply list_filter_iff. intros [k p]. simpl.
  destruct (forward_reads st !! k) as [f|] eqn:E.
  - rewrite (Hin1 k f) by (rewrite H1; apply elem_of_map_to_list, E).
    split; [discriminate|intros [? _]; discriminate].
  - rewrite Hout1 by (rewrite H1; apply not_elem_of_keys_map_to_list, E).
    split; [auto|intros [_ ?]; assumption].
Qed.

(** X6: everything that [read_file_sets] prints in paired-end mode, for
    designators that pattern syntax reads literally. With such designators
    the function returns, and whatever the order in which Python visits
    the forward samples ([l1]) and the reverse samples ([l2]), it prints,
    in this order: for each input file of undetermined direction its line
    (and the MiSeq remark when the name has the MiSeq shape), in input
    order; then, in the order visited, one missing-pair warning per
    forward sample without reverse read; then, in the order visited, one
    per reverse sample that has no forward read and whose key the first
    loop did not store as a stem; then the totals. So the warning is
    printed for a path exactly when it is such a forward or reverse
    read. The value returned in the embedding is the one for the order of
    [map_to_list]. *)
Theorem read_file_sets_paired_stdout args :
  Args.input_se args = [] →
  Re.plain (Args.forward args) = true →
  Re.plain (Args.reverse args) = true →
  ∃ st1,
    pe_loop args init_locals (Args.input_pe args) = Some st1
    ∧ read_file_sets args = Some (print_totals (store_pairs st1))
    ∧ ∀ l1 l2,
        l1 ≡ₚ map_to_list (forward_reads st1) →
        l2 ≡ₚ map_to_list (reverse_reads st1) →
        let res :=
          print_totals (foldl unpaired_reverse_body (foldl pair_body st1 l1) l2) in
        stdout res =
          (Args.input_pe args ≫= pe_lines args)
          ++ ((λ e, msg_no_pair e.2) <$>
                filter (λ e, reverse_reads res !! e.1 = None) l1)
          ++ ((λ e, msg_no_pair e.2) <$>
                filter (λ e, forward_reads res !! e.1 = None
                             ∧ e.1 ∉ ambiguous_stems args (Args.input_pe args)) l2)
          ++ totals_lines (num_paired_readsets res) (num_single_readsets res)
        ∧ ∀ p, msg_no_pair p ∈ stdout res ↔
            ∃ k, (forward_reads res !! k = Some p ∧ reverse_reads res !! k = None)
                 ∨ (reverse_reads res !! k = Some p ∧ forward_reads res !! k = None
                    ∧ k ∉ ambiguous_stems args (Args.input_pe args)).
Proof.
  intros Hse Hf Hr.
  destruct (pe_loop_returns args (Args.input_pe args) init_locals Hf Hr)
    as [st1 Hloop].
  exists st1. split; [exact Hloop|].
  split; [rewrite (read_file_sets_paired _ Hse), Hloop; reflexivity|].
  intros l1 l2 H1 H2 res.
  set (st2 := foldl unpaired_reverse_body (foldl pair_body st1 l1) l2) in *.
  destruct (pairing_loops_stdout st1 l1 l2 H1 H2) as (Hfw & Hrv & Ho).
  fold st2 in Hfw, Hrv, Ho.
  destruct (print_totals_fields st2) as (_ & Hs & Hp & Hfw' & Hrv').
  fold res in Hs, Hp, Hfw', Hrv'.
  assert (Hout : stdout res =
    (Args.input_pe args ≫= pe_lines args)
    ++ ((λ e, msg_no_pair e.2) <$>
          filter (λ e, reverse_reads res !! e.1 = None) l1)
    ++ ((λ e, msg_no_pair e.2) <$>
          filter (λ e, forward_reads res !! e.1 = None
                       ∧ e.1 ∉ ambiguous_stems args (Args.input_pe args)) l2)
    ++ totals_lines (num_paired_readsets res) (num_single_readsets res)).
  { unfold res at 1. rewrite print_totals_lines, Ho.
    rewrite (pe_loop_stdout _ _ _ _ Hloop), Hs, Hp, Hfw', Hrv', Hfw, Hrv. simpl.
    rewrite <- !app_assoc. do 3 f_equal. f_equal. apply filter_ext_elem.
    intros [k p] _. simpl.
    rewrite (pe_loop_dom _ _ _ _ Hloop k). simpl.
    split; intros [? ?]; split; try assumption.
    - tauto.
    - split; [apply lookup_empty|tauto]. }
  split; [exact Hout|].
  intros p. rewrite Hout, !elem_of_app.
  assert (H1' : l1 ≡ₚ map_to_list (forward_reads res))
    by (rewrite Hfw', Hfw; exact H1).
  assert (H2' : l2 ≡ₚ map_to_list (reverse_reads res))
    by (rewrite Hrv', Hrv; exact H2).
  pose proof (elem_of_warnings (λ k, reverse_reads res !! k = None) l1
                (forward_reads res) p H1') as Hw1.
  pose proof (elem_of_warnings
                (λ k, forward_reads res !! k = None
                      ∧ k ∉ ambiguous_stems args (Args.input_pe args)) l2
                (reverse_reads res) p H2') as Hw2.
  cbv beta in Hw1, Hw2. rewrite Hw1, Hw2. clear Hw1 Hw2.
  split.
  - intros [Hin|[(k & ? & ?)|[(k & ? & ? & ?)|Hin]]].
    + exfalso. exact (msg_no_pair_not_in_pe_lines _ _ _ Hin).
    + exists k. left. auto.
    + exists k. right. auto.
    + exfalso. exact (msg_no_pair_not_in_totals _ _ _ Hin).
  - intros (k & [[? ?]|(? & ? & ?)]).
    + right. left. exists k. auto.
    + right. right. left. exists k. auto.
Qed.

(** A forward read without mate and a file that cannot be classified. *)
Lemma read_file_sets_paired_stdout_witness :
  ∃ res, read_file_sets (default_args [] ["reads.fastq"; "s_1.fastq"]) = Some res
    ∧ msg_no_pair "s_1.fastq" ∈ stdout res.
Proof.
  destruct (read_file_sets_paired_stdout
              (default_args [] ["reads.fastq"; "s_1.fastq"])
              eq_refl eq_refl eq_refl) as (st1 & Hloop & Hres & Hall).
  exists (print_totals (store_pairs st1)). split; [exact Hres|].
  destruct (pair_loop_spec (map_to_list (forward_reads st1)) st1 _ eq_refl
              (NoDup_fst_map_to_list _)) as (_ & Hr1 & _).
  assert (H2 : map_to_list
                 (reverse_reads
                    (foldl pair_body st1 (map_to_list (forward_reads st1))))
               ≡ₚ map_to_list (reverse_reads st1)) by (rewrite Hr1; reflexivity).
  pose proof (Hall (map_to_list (forward_reads st1)) _ ltac:(reflexivity) H2)
    as Hmodel.
  cbv zeta in Hmodel. destruct Hmodel as [_ Hiff].
  unfold store_pairs. apply Hiff. clear Hiff Hall Hres H2.
  exists "s". left.
  match goal with
  | |- forward_reads (print_totals ?st) !! _ = _ ∧ _ =>
      destruct (print_totals_fields st) as (_ & _ & _ & -> & ->)
  end.
  destruct (store_pairs_spec st1) as (Hfw & Hrv & _).
  unfold store_pairs in Hfw, Hrv. rewrite Hfw, Hrv.
  assert (E : (λ st, (forward_reads st !! "s", reverse_reads st !! "s"))
                <$> pe_loop (default_args [] ["reads.fastq"; "s_1.fastq"])
                      init_locals ["reads.fastq"; "s_1.fastq"]
              = Some (Some "s_1.fastq", None)) by (vm_compute; reflexivity).
  change (Args.input_pe (default_args [] ["reads.fastq"; "s_1.fastq"]))
    with ["reads.fastq"; "s_1.fastq"] in Hloop.
  rewrite Hloop in E. injection E as -> ->. split; reflexivity.
Defined.

(** ** The order in which the dictionaries are iterated *)

(** X7: the two loops that store the pairs iterate over dictionaries, whose
    order Python 2 leaves unspecified. Whatever the order in which the
    forward and the reverse samples are visited, the loops leave the same
    mapping and the same two counters, and print the same lines up to
    their order. *)
Theorem store_pairs_iteration_order st l1 l2 :
  l1 ≡ₚ map_to_list (forward_reads st) →
  l2 ≡ₚ map_to_list (reverse_reads st) →
  fileSets (foldl unpaired_reverse_body (foldl pair_body st l1) l2)
    = fileSets (store_pairs st)
  ∧ num_paired_readsets (foldl unpaired_reverse_body (foldl pair_body st l1) l2)
    = num_paired_readsets (store_pairs st)
  ∧ num_single_readsets (foldl unpaired_reverse_body (foldl pair_body st l1) l2)
    = num_single_readsets (store_pairs st)
  ∧ stdout (foldl unpaired_reverse_body (foldl pair_body st l1) l2)
    ≡ₚ stdout (store_pairs st).
Proof.
  intros H1 H2.
  destruct (store_pairs_any_order st l1 l2 H1 H2) as (Hfs & Hp & Hs).
  split_and!; [exact Hfs|exact Hp|exact Hs|].
  assert (Hnd1 : NoDup l1.*1).
  { rewrite H1. apply NoDup_fst_map_to_list. }
  assert (Hnd2 : NoDup l2.*1).
  { rewrite H2. apply NoDup_fst_map_to_list. }
  destruct (pair_loop_spec l1 st _ eq_refl Hnd1)
    as (_ & _ & Hin1 & Hout1 & _ & _ & Ho1).
  set (st1 := foldl pair_body st l1) in *.
  destruct (unpaired_reverse_loop_spec l2 st1 Hnd2)
    as (_ & _ & _ & _ & _ & _ & Ho2).
  destruct (store_pairs_spec st) as (_ & _ & _ & _ & _ & Ho).
  rewrite Ho2, Ho1, Ho, <- !app_assoc.
  assert (Hfilter :
    filter (λ e, fileSets st1 !! e.1 = None) l2
    = filter (λ e, forward_reads st !! e.1 = None ∧ fileSets st !! e.1 = None)
        l2).
  { apply list_filter_iff. intros [k p]. simpl.
    destruct (forward_reads st !! k) as [f|] eqn:E.
    - rewrite (Hin1 k f) by (rewrite H1; apply elem_of_map_to_list, E).
      split; [discriminate|intros [? _]; discriminate].
    - rewrite Hout1 by (rewrite H1; apply not_elem_of_keys_map_to_list, E).
      split; [auto|intros [_ ?]; assumption]. }
  rewrite Hfilter, H1, H2. reflexivity.
Qed.

(** Two forward samples visited in either order. *)
Lemma store_pairs_iteration_order_witness :
  fileSets (foldl unpaired_reverse_body
              (foldl pair_body
                 (set_forward_reads "a" "a_1.fq"
                    (set_forward_reads "b" "b_1.fq" init_locals))
                 [("b", "b_1.fq"); ("a", "a_1.fq")]) [])
  = fileSets (store_pairs (set_forward_reads "a" "a_1.fq"
                             (set_forward_reads "b" "b_1.fq" init_locals)))
  ∧ fileSets (foldl unpaired_reverse_body
              (foldl pair_body
                 (set_forward_reads "a" "a_1.fq"
                    (set_forward_reads "b" "b_1.fq" init_locals))
                 [("a", "a_1.fq"); ("b", "b_1.fq")]) [])
  = fileSets (store_pairs (set_forward_reads "a" "a_1.fq"
                             (set_forward_reads "b" "b_1.fq" init_locals))).
Proof.
  assert (Hm : map_to_list (forward_reads
                 (set_forward_reads "a" "a_1.fq"
                    (set_forward_reads "b" "b_1.fq" init_locals)))
               ≡ₚ [("a", "a_1.fq"); ("b", "b_1.fq")]).
  { simpl. rewrite map_to_list_insert by (vm_compute; reflexivity).
    rewrite map_to_list_insert by (vm_compute; reflexivity).
    rewrite map_to_list_empty. reflexivity. }
  split.
  - apply (store_pairs_iteration_order
             (set_forward_reads "a" "a_1.fq"
                (set_forward_reads "b" "b_1.fq" init_locals))
             [("b", "b_1.fq"); ("a", "a_1.fq")] []).
    + rewrite Hm. apply perm_swap.
    + vm_compute. reflexivity.
  - apply (store_pairs_iteration_order
             (set_forward_reads "a" "a_1.fq"
                (set_forward_reads "b" "b_1.fq" init_locals))
             [("a", "a_1.fq"); ("b", "b_1.fq")] []).
    + rewrite Hm. reflexivity.
    + vm_compute. reflexivity.
Defined.

(** ** The input options that [main] builds from the mapping *)

(** X8: [main] indexes the entry of every sample at 0, and at 1 when its
    length exceeds 1. In single-end mode, and in paired-end mode with
    designators that pattern syntax reads literally, [read_file_sets]
    returns, and on the entries that it returns these accesses stay in
    range, so that the input options are built, provided that no
    paired-end input path is the empty string. The proviso is needed: with
    an empty reverse designator the empty path is stored as a bare path,
    and indexing it at 0 is out of range. *)
Theorem main_input_options_in_range args :
  (Args.input_se args ≠ []
   ∨ (Re.plain (Args.forward args) = true ∧ Re.plain (Args.reverse args) = true) →
   is_Some (read_file_sets args))
  ∧ ∀ res k v,
      read_file_sets args = Some res →
      fileSets res !! k = Some v →
      "" ∉ Args.input_pe args →
      is_Some (main_input_options args v).
Proof.
  split; [apply read_file_sets_returns|].
  intros res k v Hres Hv Hne.
  destruct (decide (Args.input_se args = [])) as [Hse|Hse].
  - rewrite (read_file_sets_paired _ Hse) in Hres.
    destruct (pe_loop args init_locals (Args.input_pe args)) as [st1|] eqn:Hloop;
      [|discriminate].
    simpl in Hres. injection Hres as <-.
    rewrite (paired_lookup _ _ k Hloop) in Hv.
    assert (Hbare : ∀ key p, last_with key k (Args.input_pe args) = Some p →
              is_Some (main_input_options args (PyStr p))).
    { intros key p [Hin _]%last_with_Some.
      destruct p as [|a [|b rest]]; [contradiction|eauto..]. }
    destruct (last_with (forward_key args) k (Args.input_pe args)) as [f|].
    + destruct (last_with (reverse_key args) k (Args.input_pe args));
        injection Hv as <-; eauto.
    + destruct (last_with (ambiguous_key args) k (Args.input_pe args))
        as [a|] eqn:Ea.
      * injection Hv as <-. exact (Hbare _ _ Ea).
      * destruct (last_with (reverse_key args) k (Args.input_pe args))
          as [r|] eqn:Er; [|discriminate].
        injection Hv as <-. exact (Hbare _ _ Er).
  - rewrite (read_file_sets_single _ Hse) in Hres. injection Hres as <-.
    destruct (print_totals_fields
                (foldl se_body init_locals (Args.input_se args))) as (Hfs & _).
    rewrite Hfs in Hv. clear Hfs.
    destruct (se_loop_spec (Args.input_se args) init_locals)
      as (_ & _ & _ & _ & Hl).
    rewrite Hl in Hv. clear Hl.
    destruct (last (filter _ _)) as [g|].
    + injection Hv as <-. eauto.
    + exfalso. revert Hv. apply lookup_empty_Some.
Qed.

(** The reverse read [s_2.fastq] given alone: the bare path is indexed at
    0 and 1. *)
Lemma main_input_options_in_range_witness :
  ∃ res, read_file_sets (default_args [] ["s_2.fastq"]) = Some res
    ∧ fileSets res !! "s" = Some (PyStr "s_2.fastq")
    ∧ is_Some (main_input_options (default_args [] ["s_2.fastq"]) (PyStr "s_2.fastq")).
Proof.
  destruct (main_input_options_in_range (default_args [] ["s_2.fastq"]))
    as [Hret Hall].
  destruct (Hret (or_intror (conj eq_refl eq_refl))) as [res E].
  exists res. split; [exact E|].
  assert (Hv : fileSets res !! "s" = Some (PyStr "s_2.fastq")).
  { assert (E' : (λ st, fileSets st !! "s")
                   <$> read_file_sets (default_args [] ["s_2.fastq"])
                 = Some (Some (PyStr "s_2.fastq"))) by (vm_compute; reflexivity).
    rewrite E in E'. injection E' as E'. exact E'. }
  split; [exact Hv|].
  apply (Hall res "s" _ E Hv).
  vm_compute. intros H. inversion H as [|? ? ? H']. inversion H'.
Defined.

(** The proviso at work: the empty path given with an empty reverse
    designator is stored as a bare path under the empty key, and [main]
    fails on that entry with an index out of range. *)
Example main_input_options_empty_path :
  ∃ res, read_file_sets (Args.mk [] [""] "_1" "") = Some res
    ∧ fileSets res = {[ "" := PyStr "" ]}
    ∧ main_input_options (Args.mk [] [""] "_1" "") (PyStr "") = None.
Proof. vm_compute. eexists. split_and!; reflexivity. Qed.

(** ** The claims about the files kept and the shapes of the entries *)

(** In paired-end mode, which files the entry of key [k] holds, in terms of
    the input list. *)
Lemma appears_in_paired_iff args st1 f k :
  pe_loop args init_locals (Args.input_pe args) = Some st1 →
  appears_in f k (print_totals (store_pairs st1))
  ↔ last_with (forward_key args) k (Args.input_pe args) = Some f
    ∨ (is_Some (last_with (forward_key args) k (Args.input_pe args))
       ∧ last_with (reverse_key args) k (Args.input_pe args) = Some f)
    ∨ (last_with (forward_key args) k (Args.input_pe args) = None
       ∧ last_with (ambiguous_key args) k (Args.input_pe args) = Some f)
    ∨ (last_with (forward_key args) k (Args.input_pe args) = None
       ∧ last_with (ambiguous_key args) k (Args.input_pe args) = None
       ∧ last_with (reverse_key args) k (Args.input_pe args) = Some f).
Proof.
  intros Hloop. unfold appears_in. rewrite (paired_lookup _ _ k Hloop).
  destruct (last_with (forward_key args) k (Args.input_pe args)) as [fw|];
    destruct (last_with (reverse_key args) k (Args.input_pe args)) as [rv|];
    destruct (last_with (ambiguous_key args) k (Args.input_pe args)) as [am|];
    simpl; split.
  all: try (intros (v & Hv & Hin); simplify_eq; simpl in Hin;
            repeat (apply elem_of_cons in Hin as [->|Hin]);
            try (inversion Hin; fail);
            first [ left; reflexivity
                  | right; left; split; [eexists; reflexivity|reflexivity]
                  | right; right; left; split; reflexivity
                  | right; right; right; split_and!; reflexivity ]).
  all: intros [H|[[H1 H2]|[[H1 H2]|(H1 & H2 & H3)]]]; simplify_eq;
    try (destruct H1 as [? ?]; discriminate);
    (eexists; split; [reflexivity|]); simpl;
    first [ left; reflexivity | right; left; reflexivity ].
Qed.

Lemma kept_paired args f :
  Args.input_se args = [] →
  kept args f
  ↔ ∃ k,
      last_with (forward_key args) k (Args.input_pe args) = Some f
      ∨ (is_Some (last_with (forward_key args) k (Args.input_pe args))
         ∧ last_with (reverse_key args) k (Args.input_pe args) = Some f)
      ∨ (last_with (forward_key args) k (Args.input_pe args) = None
         ∧ last_with (ambiguous_key args) k (Args.input_pe args) = Some f)
      ∨ (last_with (forward_key args) k (Args.input_pe args) = None
         ∧ last_with (ambiguous_key args) k (Args.input_pe args) = None
         ∧ last_with (reverse_key args) k (Args.input_pe args) = Some f).
Proof.
  intros Hse. unfold kept. rewrite Hse. split.
  - destruct (pe_class args f) as [[k|k|k|]|]; try contradiction.
    + intros H. exists k. auto.
    + intros [HR [HF|HA]]; exists k; [auto|].
      destruct (last_with (forward_key args) k (Args.input_pe args));
        [right; left; eauto|do 3 right; auto].
    + intros [HA HF]. exists k. auto.
  - intros (k & [HF|[[HF HR]|[[HF HA]|(HF & HA & HR)]]]).
    + destruct (last_with_Some _ _ _ _ HF) as [_ Hk].
      rewrite (forward_key_class _ _ _ Hk). exact HF.
    + destruct (last_with_Some _ _ _ _ HR) as [_ Hk].
      rewrite (reverse_key_class _ _ _ Hk). auto.
    + destruct (last_with_Some _ _ _ _ HA) as [_ Hk].
      rewrite (ambiguous_key_class _ _ _ Hk). auto.
    + destruct (last_with_Some _ _ _ _ HR) as [_ Hk].
      rewrite (reverse_key_class _ _ _ Hk). auto.
Qed.

(** In single-end mode, which file the entry of key [k] holds. *)
Lemma appears_in_single_iff args f k :
  appears_in f k (print_totals (foldl se_body init_locals (Args.input_se args)))
  ↔ last (filter (λ g, se_key g = k) (Args.input_se args)) = Some f.
Proof.
  unfold appears_in.
  destruct (print_totals_fields
              (foldl se_body init_locals (Args.input_se args))) as (-> & _).
  destruct (se_loop_spec (Args.input_se args) init_locals)
    as (_ & _ & _ & _ & Hl).
  rewrite Hl. clear Hl.
  destruct (last (filter _ _)) as [g|]; split.
  - intros (v & [= <-] & Hin). simpl in Hin.
    apply list_elem_of_singleton in Hin as ->. reflexivity.
  - intros [= ->]. eexists. split; [reflexivity|]. left.
  - intros (v & Hv & _). exfalso. revert Hv. apply lookup_empty_Some.
  - discriminate.
Qed.

(** C1, as stated, fails: the paired-end file [reads.fastq] has neither the
    MiSeq shape nor a designator suffix, and the returned mapping is
    empty. *)
Lemma read_file_sets_undetermined_file_absent :
  ∃ res, read_file_sets (default_args [] ["reads.fastq"]) = Some res
    ∧ "reads.fastq" ∈ Args.input_se (default_args [] ["reads.fastq"])
                      ++ Args.input_pe (default_args [] ["reads.fastq"])
    ∧ ¬ in_exactly_one_entry "reads.fastq" res.
Proof.
  assert (E : fileSets <$> read_file_sets (default_args [] ["reads.fastq"])
              = Some ∅) by (vm_compute; reflexivity).
  destruct (read_file_sets _) as [res|]; [|discriminate].
  injection E as E. exists res. split_and!; [reflexivity|left|].
  intros (k & (v & Hv & _) & _). rewrite E, lookup_empty in Hv. discriminate.
Qed.

(** C1, amended: in single-end mode, and in paired-end mode with
    designators read literally by the pattern syntax, [read_file_sets]
    returns a mapping in which no file occurs in two entries and every
    file of an entry is an input file. A file occurs in exactly one entry
    exactly when it is kept: in single-end mode, when it is the last input
    file that derives its key; in paired-end mode, when it is the last
    forward read of its key, or the last reverse read of its key while a
    forward read has that key or no MiSeq-shaped file of unknown direction
    has it as stem, or the last MiSeq-shaped file of unknown direction
    with its stem while no forward read has that stem as key. So an input
    file that a later one replaces is absent from every entry, and in
    paired-end mode a file whose direction the loop could not determine
    always is. *)
Theorem read_file_sets_at_most_one_entry args :
  (Args.input_se args ≠ []
   ∨ (Re.plain (Args.forward args) = true ∧ Re.plain (Args.reverse args) = true) →
   is_Some (read_file_sets args))
  ∧ ∀ res, read_file_sets args = Some res →
    (∀ f k1 k2, appears_in f k1 res → appears_in f k2 res → k1 = k2)
    ∧ (∀ f k, appears_in f k res →
         f ∈ Args.input_se args ++ Args.input_pe args)
    ∧ (∀ f, in_exactly_one_entry f res ↔ kept args f)
    ∧ (Args.input_se args = [] →
       ∀ f, pe_class args f = Some Undetermined → ∀ k, ¬ appears_in f k res).
Proof.
  split; [apply read_file_sets_returns|].
  intros res Hres. destruct (decide (Args.input_se args = [])) as [Hse|Hse].
  - assert (Huniq : ∀ f k1 k2,
              appears_in f k1 res → appears_in f k2 res → k1 = k2).
    { intros f k1 k2 H1 H2.
      destruct (appears_in_paired _ _ _ _ Hse Hres H1) as (_ & c1 & Hc1 & Hk1).
      destruct (appears_in_paired _ _ _ _ Hse Hres H2) as (_ & c2 & Hc2 & Hk2).
      congruence. }
    split_and!.
    + exact Huniq.
    + intros f k H. apply elem_of_app. right.
      apply (appears_in_paired _ _ _ _ Hse Hres H).
    + intros f. rewrite (kept_paired _ _ Hse).
      pose proof Hres as Hres'. rewrite (read_file_sets_paired _ Hse) in Hres'.
      destruct (pe_loop args init_locals (Args.input_pe args)) as [st1|] eqn:Hloop;
        [|discriminate].
      simpl in Hres'. injection Hres' as <-.
      split.
      * intros (k & Happ & _). exists k.
        apply (appears_in_paired_iff _ _ _ _ Hloop). exact Happ.
      * intros (k & Hk). exists k. split.
        -- apply (appears_in_paired_iff _ _ _ _ Hloop). exact Hk.
        -- intros k' Hk'. apply (Huniq f); [exact Hk'|].
           apply (appears_in_paired_iff _ _ _ _ Hloop). exact Hk.
    + intros _ f Hf k H.
      destruct (appears_in_paired _ _ _ _ Hse Hres H) as (_ & c & Hc & Hk).
      rewrite Hf in Hc. injection Hc as <-. discriminate.
  - assert (Huniq : ∀ f k1 k2,
              appears_in f k1 res → appears_in f k2 res → k1 = k2).
    { intros f k1 k2 H1 H2.
      destruct (appears_in_single _ _ _ _ Hse Hres H1) as [_ ->].
      destruct (appears_in_single _ _ _ _ Hse Hres H2) as [_ ->]. reflexivity. }
    split_and!.
    + exact Huniq.
    + intros f k H. apply elem_of_app. left.
      apply (appears_in_single _ _ _ _ Hse Hres H).
    + intros f.
      assert (Hkept : kept args f
                ↔ last (filter (λ g, se_key g = se_key f) (Args.input_se args))
                  = Some f).
      { unfold kept. destruct (Args.input_se args); [contradiction|reflexivity]. }
      rewrite Hkept.
      pose proof Hres as Hres'. rewrite (read_file_sets_single _ Hse) in Hres'.
      injection Hres' as <-.
      split.
      * intros (k & Happ & _).
        destruct (appears_in_single _ _ _ _ Hse Hres Happ) as [_ ->].
        apply appears_in_single_iff. exact Happ.
      * intros Hk. exists (se_key f). split.
        -- apply appears_in_single_iff. exact Hk.
        -- intros k' Hk'. apply (Huniq f); [exact Hk'|].
           apply appears_in_single_iff. exact Hk.
    + intros E. contradiction.
Qed.

(** Two forward reads of the same key, a reverse read and an
    unclassifiable file: the later forward read is in exactly one entry,
    the earlier one and the unclassifiable file are in none. *)
Lemma read_file_sets_at_most_one_entry_witness :
  ∃ res,
    read_file_sets
      (default_args [] ["a/s_1.fastq"; "b/s_1.fastq"; "s_2.fastq"; "reads.fastq"])
    = Some res
    ∧ in_exactly_one_entry "b/s_1.fastq" res
    ∧ ¬ in_exactly_one_entry "a/s_1.fastq" res
    ∧ ∀ k, ¬ appears_in "reads.fastq" k res.
Proof.
  destruct (read_file_sets_at_most_one_entry
              (default_args [] ["a/s_1.fastq"; "b/s_1.fastq"; "s_2.fastq";
                                "reads.fastq"]))
    as [Hret Hall].
  destruct (Hret (or_intror (conj eq_refl eq_refl))) as [res E].
  exists res. split; [exact E|].
  destruct (Hall res E) as (_ & _ & Hkept & Hundet).
  split_and!.
  - apply Hkept. vm_compute. reflexivity.
  - intros H. apply Hkept in H. vm_compute in H. discriminate.
  - apply Hundet; vm_compute; reflexivity.
Defined.

(** C9, as stated, fails: a MiSeq-shaped file of unknown direction is not
    always mapped to its bare path, nor a sample with a reverse read and
    no forward read to the bare reverse path. The stem of the first file
    below is the key that the second one derives. When the second file is
    a forward read, the pairing loop replaces the bare path by the list of
    the forward path; when it is a reverse read, the second pairing loop
    finds the key taken and leaves the bare path of the first file. *)
Lemma read_file_sets_bare_path_replaced :
  (∃ res,
     read_file_sets
       (default_args [] ["w_S1_L001_R3_001.fastq";
                         "w_S1_L001_R3_001_S1_L001_R1_001.fastq"]) = Some res
     ∧ pe_class (default_args [] []) "w_S1_L001_R3_001.fastq"
       = Some (Ambiguous "w_S1_L001_R3_001")
     ∧ fileSets res
       = {[ "w_S1_L001_R3_001" :=
              PyList ["w_S1_L001_R3_001_S1_L001_R1_001.fastq"] ]})
  ∧ (∃ res,
       read_file_sets
         (default_args [] ["w_S1_L001_R3_001.fastq";
                           "w_S1_L001_R3_001_S1_L001_R2_001.fastq"]) = Some res
       ∧ reverse_reads res !! "w_S1_L001_R3_001"
         = Some "w_S1_L001_R3_001_S1_L001_R2_001.fastq"
       ∧ forward_reads res !! "w_S1_L001_R3_001" = None
       ∧ fileSets res
         = {[ "w_S1_L001_R3_001" := PyStr "w_S1_L001_R3_001.fastq" ]}).
Proof. vm_compute. split; eexists; split_and!; reflexivity. Qed.

(** C9, amended: the shapes of the values in paired-end mode, for
    designators read literally by the pattern syntax, with which
    [read_file_sets] returns. A sample with a reverse read and no forward
    read, whose key the paired-end loop did not store itself, is mapped to
    the bare reverse path; a stem stored for a MiSeq-shaped file of unknown
    direction, when no forward read has that key, is mapped to the bare
    path of such a file; every entry of a key without forward read is a
    bare path, and every other entry is the list of the forward path alone
    or of the forward and reverse paths. Whatever state the paired-end
    loop left, the pairing loops map a reverse sample that has no forward
    read and whose key is not yet in the mapping to the bare reverse path.
    [main] takes the length of a bare path for the length of a list: a
    path of two characters or more is handled as a pair made of its first
    two characters, where a list of one path gives a single-end
    command. *)
Theorem read_file_sets_bare_paths args :
  Args.input_se args = [] →
  (Re.plain (Args.forward args) = true →
   Re.plain (Args.reverse args) = true →
   is_Some (read_file_sets args))
  ∧ (∀ res, read_file_sets args = Some res →
     (∀ k p, reverse_reads res !! k = Some p →
             forward_reads res !! k = None →
             k ∉ ambiguous_stems args (Args.input_pe args) →
             fileSets res !! k = Some (PyStr p))
     ∧ (∀ k, k ∈ ambiguous_stems args (Args.input_pe args) →
             forward_reads res !! k = None →
             ∃ f, fileSets res !! k = Some (PyStr f)
                  ∧ f ∈ Args.input_pe args
                  ∧ pe_class args f = Some (Ambiguous k))
     ∧ (∀ k v, fileSets res !! k = Some v →
             match forward_reads res !! k with
             | None => ∃ p, v = PyStr p
             | Some f =>
                 v = PyList [f]
                 ∨ ∃ r, reverse_reads res !! k = Some r ∧ v = PyList [f; r]
             end))
  ∧ (∀ st k p,
       reverse_reads st !! k = Some p →
       forward_reads st !! k = None →
       fileSets st !! k = None →
       fileSets (print_totals (store_pairs st)) !! k = Some (PyStr p))
  ∧ (∀ a b rest,
       main_input_options args (PyStr (String a (String b rest))) =
       Some (" --input_pe " +:+ String a "" +:+ " " +:+ String b ""
             +:+ " --forward " +:+ Args.forward args
             +:+ " --reverse " +:+ Args.reverse args))
  ∧ (∀ f, main_input_options args (PyList [f]) = Some (" --input_se " +:+ f)).
Proof.
  intros Hse. split_and!;
    [intros Hf Hr; apply read_file_sets_returns; auto| | |
     intros a b rest; reflexivity|intros f; reflexivity].
  2:{ intros st k p Hr Hf Hs.
      destruct (print_totals_fields (store_pairs st)) as (-> & _).
      destruct (store_pairs_spec st) as (_ & _ & Hlook & _).
      rewrite Hlook, Hf, Hs, Hr. reflexivity. }
  intros res. rewrite (read_file_sets_paired _ Hse).
  destruct (pe_loop args init_locals (Args.input_pe args)) as [st1|] eqn:Hloop;
    [|discriminate].
  simpl. intros [= <-].
  destruct (print_totals_fields (store_pairs st1)) as (-> & _ & _ & -> & ->).
  destruct (store_pairs_spec st1) as (-> & -> & Hlook & _).
  destruct (pe_loop_class _ _ _ _ Hloop) as (_ & _ & Hst).
  pose proof (pe_loop_dom _ _ _ _ Hloop) as Hdom.
  assert (Hbare : ∀ k v, fileSets st1 !! k = Some v →
            ∃ f, v = PyStr f ∧ f ∈ Args.input_pe args
                 ∧ pe_class args f = Some (Ambiguous k)).
  { intros k v Hv. destruct (Hst k v Hv) as [Hold|?]; [|assumption].
    exfalso. revert Hold. apply lookup_empty_Some. }
  split_and!.
  - intros k p Hr Hf Hk. rewrite Hlook, Hf.
    assert (fileSets st1 !! k = None) as ->.
    { apply Hdom. split; [apply lookup_empty|exact Hk]. }
    rewrite Hr. reflexivity.
  - intros k Hk Hf. rewrite Hlook, Hf.
    destruct (fileSets st1 !! k) as [v|] eqn:Ev.
    + destruct (Hbare k v Ev) as (f & -> & Hin & Hc). eauto.
    + apply Hdom in Ev as [_ Hnk]. contradiction.
  - intros k v. rewrite Hlook.
    destruct (forward_reads st1 !! k) as [f|].
    + intros [= <-]. unfold pair_value.
      destruct (reverse_reads st1 !! k) as [r|]; eauto.
    + destruct (fileSets st1 !! k) as [w|] eqn:Ew.
      * intros [= <-]. destruct (Hbare k w Ew) as (f & -> & _). eauto.
      * destruct (reverse_reads st1 !! k) as [r|]; [|discriminate].
        intros [= <-]. eauto.
Qed.

(** The reverse read [sampleB_2.fastq.gz] given alone is stored as a bare
    path, which [main] turns into a paired-end command on the characters
    [s] and [a]. *)
Lemma read_file_sets_bare_paths_witness :
  ∃ res, read_file_sets (default_args [] ["sampleB_2.fastq.gz"]) = Some res
    ∧ fileSets res !! "sampleB" = Some (PyStr "sampleB_2.fastq.gz")
    ∧ main_input_options (default_args [] ["sampleB_2.fastq.gz"])
        (PyStr "sampleB_2.fastq.gz")
      = Some " --input_pe s a --forward _1 --reverse _2".
Proof.
  destruct (read_file_sets (default_args [] ["sampleB_2.fastq.gz"]))
    as [res|] eqn:E; [|vm_compute in E; discriminate].
  exists res. split; [reflexivity|].
  destruct (read_file_sets_bare_paths
              (default_args [] ["sampleB_2.fastq.gz"]) eq_refl)
    as (_ & Hall & _ & Hmain & _).
  destruct (Hall res E) as (Hrev & _).
  split.
  - apply Hrev.
    + assert (Hr : reverse_reads <$> read_file_sets
                     (default_args [] ["sampleB_2.fastq.gz"])
                   = Some {[ "sampleB" := "sampleB_2.fastq.gz" ]})
        by (vm_compute; reflexivity).
      rewrite E in Hr. injection Hr as ->. apply lookup_singleton_eq.
    + assert (Hf : forward_reads <$> read_file_sets
                     (default_args [] ["sampleB_2.fastq.gz"]) = Some ∅)
        by (vm_compute; reflexivity).
      rewrite E in Hf. injection Hf as ->. apply lookup_empty.
    + vm_compute. apply not_elem_of_nil.
  - apply (Hmain "s"%char "a"%char "mpleB_2.fastq.gz").
Defined.

(** ** The claim about the pairing loops *)

(** C7: pairing reconciliation. The statement is about every state [st] in
    which the two pairing loops can start, so it does not depend on how
    the paired-end loop classified the files: in paired-end mode
    [read_file_sets] returns the state [res] that the pairing loops and
    the summary make of the state left by the paired-end loop. The
    forward and reverse dictionaries are unchanged. A sample with a
    forward read and no reverse read under the same key gets an entry
    holding the forward path alone, and the missing-pair warning for that
    path is printed; the entry of a sample with a forward read is the pair
    (forward, reverse) exactly when a reverse read exists under the same
    key. The count of pairs grows by the number of forward samples that
    have a reverse read; the count of single reads by the number of
    forward samples that have none, plus the reverse samples stored by the
    second loop. [sampleA_1.fastq.gz] given alone yields the lone entry
    [sampleA], a single count of 1 and the warning. *)
Theorem read_file_sets_forward_samples :
  (∀ st,
     let res := print_totals (store_pairs st) in
     forward_reads res = forward_reads st
     ∧ reverse_reads res = reverse_reads st
     ∧ (∀ sample f, forward_reads st !! sample = Some f →
          (reverse_reads st !! sample = None →
             fileSets res !! sample = Some (PyList [f])
             ∧ msg_no_pair f ∈ stdout res)
          ∧ (∀ r, fileSets res !! sample = Some (PyList [f; r])
                  ↔ reverse_reads st !! sample = Some r))
     ∧ num_paired_readsets res =
         num_paired_readsets st
         + length (filter (λ e, is_Some (reverse_reads st !! e.1))
                     (map_to_list (forward_reads st)))
     ∧ num_single_readsets res =
         num_single_readsets st
         + length (filter (λ e, reverse_reads st !! e.1 = None)
                     (map_to_list (forward_reads st)))
         + length (filter (λ e, forward_reads st !! e.1 = None
                                ∧ fileSets st !! e.1 = None)
                     (map_to_list (reverse_reads st))))
  ∧ (∀ args, Args.input_se args = [] →
       read_file_sets args =
       st ← pe_loop args init_locals (Args.input_pe args);
       Some (print_totals (store_pairs st)))
  ∧ ∃ res', read_file_sets (default_args [] ["sampleA_1.fastq.gz"]) = Some res'
      ∧ fileSets res' = {[ "sampleA" := PyList ["sampleA_1.fastq.gz"] ]}
      ∧ num_single_readsets res' = 1
      ∧ num_paired_readsets res' = 0
      ∧ stdout res' = [msg_no_pair "sampleA_1.fastq.gz";
                       "Total single reads found:1"].
Proof.
  split_and!;
    [|apply read_file_sets_paired|vm_compute; eexists; split_and!; reflexivity].
  intros st. cbv zeta.
  destruct (print_totals_fields (store_pairs st)) as (-> & -> & -> & -> & ->).
  destruct (print_totals_stdout (store_pairs st)) as (o3 & ->).
  destruct (store_pairs_spec st) as (-> & -> & Hlook & -> & -> & ->).
  split_and!; try reflexivity.
  intros sample f Hfwd. split.
  - intros Hrev. split.
    + rewrite Hlook, Hfwd. unfold pair_value. rewrite Hrev. reflexivity.
    + apply elem_of_app. left. apply elem_of_app. right.
      apply elem_of_app. left.
      apply list_elem_of_fmap. exists (sample, f). split; [reflexivity|].
      apply list_elem_of_filter. split; [exact Hrev|].
      apply elem_of_map_to_list. exact Hfwd.
  - intros r. rewrite Hlook, Hfwd. unfold pair_value.
    destruct (reverse_reads st !! sample) as [r'|].
    + split; [intros [= ->]|intros [= ->]]; reflexivity.
    + split; discriminate.
Qed.

(** The file [sampleA_1.fastq.gz] given alone. *)
Lemma read_file_sets_forward_samples_witness :
  ∃ res, read_file_sets (default_args [] ["sampleA_1.fastq.gz"]) = Some res
    ∧ fileSets res !! "sampleA" = Some (PyList ["sampleA_1.fastq.gz"])
    ∧ msg_no_pair "sampleA_1.fastq.gz" ∈ stdout res.
Proof.
  destruct read_file_sets_forward_samples as (Hst & Hglue & _).
  destruct (pe_loop (default_args [] ["sampleA_1.fastq.gz"]) init_locals
              ["sampleA_1.fastq.gz"]) as [st1|] eqn:Hloop;
    [|vm_compute in Hloop; discriminate].
  exists (print_totals (store_pairs st1)). split.
  - rewrite (Hglue (default_args [] ["sampleA_1.fastq.gz"]) eq_refl).
    change (Args.input_pe (default_args [] ["sampleA_1.fastq.gz"]))
      with ["sampleA_1.fastq.gz"].
    rewrite Hloop. reflexivity.
  - pose proof (Hst st1) as H. cbv zeta in H.
    destruct H as (_ & _ & Hsample & _).
    assert (E : (λ st, (forward_reads st !! "sampleA",
                        reverse_reads st !! "sampleA"))
                  <$> pe_loop (default_args [] ["sampleA_1.fastq.gz"])
                        init_locals ["sampleA_1.fastq.gz"]
                = Some (Some "sampleA_1.fastq.gz", None))
      by (vm_compute; reflexivity).
    rewrite Hloop in E. injection E as Hf Hr.
    apply (Hsample "sampleA" "sampleA_1.fastq.gz" Hf). exact Hr.
Defined.

(** * [utils.py] *)

Example check_versions_examples :
  Utils.check_bowtie_version
    (Utils.Output "/usr/bin/bowtie2-align version 2.1.0
64-bit
Compiler: gcc version 4.1.2 20080704 (Red Hat 4.1.2-54)
") = ([], Utils.Returns)
  ∧ Utils.check_samtools_version
      (Utils.CalledProcessError 1 "
Program: samtools (Tools for alignments in the SAM format)
Version: 0.1.18 (r982:295)
") = ([], Utils.Returns)
  ∧ Utils.check_bowtie_version (Utils.OSError "[Errno 2] No such file or directory")
    = (["Failed command: bowtie2 --version";
        "[Errno 2] No such file or directory";
        "Could not determine the version of bowtie.";
        "Do you have bowtie installed in your PATH?"], Utils.SystemExit (-1)).
Proof. vm_compute. split_and!; reflexivity. Qed.

(** ** Facts about the built-ins *)

Lemma all_chars_app m s t :
  all_chars m (s +:+ t) = all_chars m s && all_chars m t.
Proof.
  induction s as [|c s IH]; [reflexivity|].
  rewrite str_app_cons. simpl. rewrite IH, andb_assoc. reflexivity.
Qed.

Lemma no_newline_all_chars s :
  no_newline s = all_chars (Re2.atom_match Re2.ADot) s.
Proof.
  unfold no_newline. induction s as [|c s IH]; [reflexivity|].
  simpl. rewrite IH. reflexivity.
Qed.

(** A character that [m] rejects does not occur in a string of characters
    that [m] accepts. *)
Lemma all_chars_has_char m c s :
  m c = false → all_chars m s = true → has_char c s = false.
Proof.
  intros Hc. induction s as [|a s IH]; [reflexivity|]. simpl.
  intros [Ha Hs]%andb_true_iff. rewrite (IH Hs), orb_false_r.
  destruct (Ascii.eqb_spec a c) as [->|]; [congruence|reflexivity].
Qed.

Lemma digits_inv s :
  digits s = true →
  ∃ c s', s = String c s' ∧ Builtin.is_digit c = true
          ∧ all_chars Builtin.is_digit s' = true.
Proof.
  unfold digits. destruct s as [|c s']; [discriminate|]. simpl.
  intros [? ?]%andb_true_iff. eauto.
Qed.

Lemma digits_all s : digits s = true → all_chars Builtin.is_digit s = true.
Proof. unfold digits. intros [_ ?]%andb_true_iff. assumption. Qed.

Lemma int_from_digits s acc :
  all_chars Builtin.is_digit s = true →
  (0 ≤ acc)%Z →
  ∃ n, Builtin.int_from acc s = Some n ∧ (0 ≤ n)%Z.
Proof.
  revert acc. induction s as [|c s IH]; intros acc Hs Hacc; simpl in *.
  - eauto.
  - apply andb_true_iff in Hs as [Hc Hs]. rewrite Hc. apply IH; [exact Hs|].
    unfold Builtin.is_digit in Hc. apply andb_true_iff in Hc as [Hlo _].
    apply Nat.leb_le in Hlo. unfold Builtin.digit_value. lia.
Qed.

(** [int] reads every non-empty string of digits, as a natural number. *)
Lemma int_digits s :
  digits s = true → ∃ n, Builtin.int s = Some n ∧ (0 ≤ n)%Z.
Proof.
  intros Hs. pose proof (digits_all _ Hs) as Ha.
  apply digits_inv in Hs as (c & s' & -> & _ & _).
  unfold Builtin.int. apply int_from_digits; [exact Ha|lia].
Qed.

Lemma tuple3_ge_minimum M m p :
  (0 ≤ p)%Z →
  Builtin.tuple3_ge (M, m, p) Utils.MINIMUM_BOWTIE_VERSION = true
  ↔ (2 < M ∨ (M = 2 ∧ 1 ≤ m))%Z.
Proof.
  intros Hp. unfold Builtin.tuple3_ge, Utils.MINIMUM_BOWTIE_VERSION.
  destruct (Z.eqb_spec M 2); [destruct (Z.eqb_spec m 1)|];
    rewrite ?Z.leb_le, ?Z.ltb_lt; lia.
Qed.

Lemma contains_cons_false sub c s :
  Builtin.contains sub (String c s) = false →
  strip_prefix sub (String c s) = None ∧ Builtin.contains sub s = false.
Proof.
  cbn [Builtin.contains].
  destruct (strip_prefix sub (String c s)); [discriminate|auto].
Qed.

(** [sub in s] holds exactly when [s] is some text, [sub], some text. *)
Lemma contains_spec sub s :
  Builtin.contains sub s = true ↔ ∃ a b, s = a +:+ sub +:+ b.
Proof.
  split.
  - induction s as [|c s IH]; cbn [Builtin.contains].
    + destruct (strip_prefix sub "") as [rest|] eqn:E; [|discriminate].
      intros _. apply ReFacts.strip_prefix_Some in E. exists "", rest. exact E.
    + destruct (strip_prefix sub (String c s)) as [rest|] eqn:E.
      * intros _. apply ReFacts.strip_prefix_Some in E. exists "", rest. exact E.
      * intros (a & b & ->)%IH. exists (String c a), b. reflexivity.
  - intros (a & b & ->). induction a as [|c a IH].
    + rewrite str_app_nil_l.
      destruct (sub +:+ b) eqn:E; cbn [Builtin.contains]; rewrite <- E;
        rewrite ReFacts.strip_prefix_app; reflexivity.
    + rewrite str_app_cons. cbn [Builtin.contains]. rewrite IH.
      destruct (strip_prefix _ _); reflexivity.
Qed.

(** If [d] is no prefix of a text at least as long, it is no prefix of the
    text extended. *)
Lemma strip_prefix_none_ext d u w :
  strip_prefix d u = None →
  String.length d ≤ String.length u →
  strip_prefix d (u +:+ w) = None.
Proof.
  revert u. induction d as [|c d IH]; intros u; [discriminate|].
  destruct u as [|a u]; simpl; [lia|].
  destruct (Ascii.eqb a c); [|reflexivity].
  intros H Hl. apply IH; [exact H|lia].
Qed.

(** ** Facts about the larger matcher *)

Module Re2Facts.
Import Re2.

Lemma greedy_sound {A} m s (k : string → option A) x :
  star m s k = Some x →
  ∃ p t, s = p +:+ t ∧ all_chars m p = true ∧ k t = Some x.
Proof.
  induction s as [|c s IH]; simpl.
  - intros Hk. exists "", "". auto.
  - destruct (m c) eqn:Hc.
    + destruct (star m s k) as [y|] eqn:Hs.
      * intros [= ->]. destruct (IH eq_refl) as (p & t & -> & Hp & Hk).
        exists (String c p), t. simpl. rewrite Hc, Hp. auto.
      * intros Hk. exists "", (String c s). auto.
    + intros Hk. exists "", (String c s). auto.
Qed.

(** The greedy repetition stops after [p] when the continuation succeeds
    there and fails after every longer run. *)
Lemma greedy_stops {A} m p t (k : string → option A) x :
  all_chars m p = true →
  k t = Some x →
  (∀ p1 t', t = p1 +:+ t' → p1 ≠ "" → all_chars m p1 = true → k t' = None) →
  star m (p +:+ t) k = Some x.
Proof.
  intros Hp Hk Hlong. induction p as [|c p IH].
  - rewrite str_app_nil_l. destruct t as [|c t]; simpl; [exact Hk|].
    destruct (m c) eqn:Hc; [|exact Hk].
    destruct (star m t k) as [y|] eqn:Hs; [|exact Hk].
    apply greedy_sound in Hs as (p1 & t' & -> & Hp1 & Hk').
    rewrite (Hlong (String c p1) t') in Hk'; [discriminate|reflexivity|discriminate|].
    simpl. rewrite Hc, Hp1. reflexivity.
  - simpl in Hp. apply andb_true_iff in Hp as [Hc Hp].
    rewrite str_app_cons. simpl. rewrite Hc, (IH Hp). reflexivity.
Qed.

Lemma star_lazy_sound {A} m s (k : string → option A) x :
  star_lazy m s k = Some x →
  ∃ p t, s = p +:+ t ∧ all_chars m p = true ∧ k t = Some x.
Proof.
  induction s as [|c s IH]; simpl.
  - destruct (k "") eqn:Hk; [|discriminate]. intros [= ->]. exists "", "". auto.
  - destruct (k (String c s)) eqn:Hk.
    + intros [= ->]. exists "", (String c s). auto.
    + destruct (m c) eqn:Hc; [|discriminate].
      intros (p & t & -> & Hp & Hk')%IH.
      exists (String c p), t. simpl. rewrite Hc, Hp. auto.
Qed.

(** The lazy repetition stops after [p] when the continuation succeeds
    there and fails after every shorter run. *)
Lemma star_lazy_first {A} m p t (k : string → option A) x :
  all_chars m p = true →
  k t = Some x →
  (∀ p1 p2, p = p1 +:+ p2 → p2 ≠ "" → k (p2 +:+ t) = None) →
  star_lazy m (p +:+ t) k = Some x.
Proof.
  intros Hp Hk Hshort. induction p as [|c p IH].
  - rewrite str_app_nil_l. destruct t; simpl; rewrite Hk; reflexivity.
  - simpl in Hp. apply andb_true_iff in Hp as [Hc Hp].
    rewrite str_app_cons. simpl.
    rewrite <- str_app_cons, (Hshort "" (String c p) eq_refl ltac:(discriminate)).
    rewrite Hc. apply IH; [exact Hp|].
    intros p1 p2 -> Hne. apply (Hshort (String c p1) p2); [reflexivity|exact Hne].
Qed.

Lemma run_seq r1 r2 s caps k :
  run (RSeq r1 r2) s caps k = run r1 s caps (λ s' caps', run r2 s' caps' k).
Proof. reflexivity. Qed.

Lemma run_star a s caps k :
  run (RStar a) s caps k = star (atom_match a) s (λ s', k s' caps).
Proof. reflexivity. Qed.

Lemma run_lazy a s caps k :
  run (RLazy a) s caps k = star_lazy (atom_match a) s (λ s', k s' caps).
Proof. reflexivity. Qed.

Lemma run_char c s caps k :
  run (RAtom (AChar c)) s caps k =
  match s with
  | String a s' => if Ascii.eqb a c then k s' caps else None
  | EmptyString => None
  end.
Proof. reflexivity. Qed.

Lemma literal_run d s caps k :
  run (literal d) s caps k =
  match strip_prefix d s with
  | Some rest => k rest caps
  | None => None
  end.
Proof.
  revert s. induction d as [|c d IH]; intros s; simpl; [reflexivity|].
  destruct s as [|a s]; [reflexivity|]. simpl.
  destruct (Ascii.eqb a c); [apply IH|reflexivity].
Qed.

(** A group of one or more digits takes all the digits [d] when what
    follows does not begin with a digit. *)
Lemma run_digits_group d t caps k x :
  digits d = true →
  (∀ c t1, t = String c t1 → Builtin.is_digit c = false) →
  k t (caps ++ [d]) = Some x →
  run (RGroup (RPlus ADigit)) (d +:+ t) caps k = Some x.
Proof.
  intros (c & d' & -> & Hc & Hd')%digits_inv Ht Hk.
  rewrite str_app_cons. simpl. rewrite Hc.
  apply greedy_stops.
  - exact Hd'.
  - rewrite <- str_app_cons, consumed_app. exact Hk.
  - intros p1 t' -> Hne Hp1. destruct p1 as [|c1 p1]; [contradiction|].
    simpl in Hp1. apply andb_true_iff in Hp1 as [Hc1 _].
    rewrite (Ht c1 (p1 +:+ t') eq_refl) in Hc1. discriminate.
Qed.


Lemma search_hit r s g : re_match r s = Some g → search r s = Some g.
Proof. intros H. destruct s; simpl; rewrite H; reflexivity. Qed.

(** [search] goes past a prefix at no position of which the pattern
    matches. *)
Lemma search_skip r pre t :
  (∀ a b, pre = a +:+ b → b ≠ "" → re_match r (b +:+ t) = None) →
  search r (pre +:+ t) = search r t.
Proof.
  induction pre as [|c pre IH]; intros H; [reflexivity|].
  rewrite str_app_cons. simpl. rewrite <- str_app_cons.
  rewrite (H "" (String c pre) eq_refl ltac:(discriminate)).
  apply IH. intros a b -> Hb. apply (H (String c a) b); [reflexivity|exact Hb].
Qed.


(** The text [lit] does not begin at any position of [pre] in
    [pre + lit + w], when it does not occur in [pre] followed by [lit0],
    which is [lit] without its last character. *)
Lemma no_occurrence_before lit0 c pre w a b :
  Builtin.contains (lit0 +:+ String c "") (pre +:+ lit0) = false →
  pre = a +:+ b → b ≠ "" →
  strip_prefix (lit0 +:+ String c "") (b +:+ (lit0 +:+ String c "") +:+ w) = None.
Proof.
  intros Hc -> Hb. rewrite str_app_assoc in Hc.
  induction a as [|x a IH].
  - rewrite str_app_nil_l in Hc. destruct b as [|y b]; [contradiction|].
    rewrite str_app_cons in Hc. apply contains_cons_false in Hc as [Hs _].
    rewrite <- str_app_cons in Hs.
    replace (String y b +:+ (lit0 +:+ String c "") +:+ w)
      with ((String y b +:+ lit0) +:+ (String c "" +:+ w))
      by (rewrite !str_app_assoc; reflexivity).
    apply strip_prefix_none_ext; [exact Hs|].
    rewrite !str_length_app. simpl. lia.
  - rewrite str_app_cons in Hc. apply contains_cons_false in Hc as [_ Hc].
    exact (IH Hc).
Qed.

End Re2Facts.

(** ** The version of bowtie *)

Lemma no_newline_cons c s : no_newline (String c s) = true → no_newline s = true.
Proof. unfold no_newline. simpl. intros [_ ?]%andb_true_iff. assumption. Qed.

(** No space follows a newline-free text [q] inside a space-free text [D]
    that ends its line. *)
Lemma space_not_after D rest q y :
  has_char " " D = false → ends_line rest = true → no_newline q = true →
  D +:+ rest = q +:+ String " " y → False.
Proof.
  intros HD Hrest. revert q. induction D as [|d D IH]; intros q Hq H.
  - rewrite str_app_nil_l in H. subst rest.
    destruct q as [|c q]; simpl in Hrest; [discriminate|].
    unfold no_newline in Hq. simpl in Hq. rewrite Hrest in Hq. discriminate.
  - simpl in HD. apply orb_false_iff in HD as [Hd HD].
    destruct q as [|c q].
    + rewrite str_app_nil_l, str_app_cons in H. injection H as -> _.
      discriminate.
    + rewrite !str_app_cons in H. injection H as _ H.
      exact (IH HD q (no_newline_cons _ _ Hq) H).
Qed.

(** After the version number that ends its line, the text [ version ] does
    not begin again on the same line. *)
Lemma no_later_version major tail rest p1 t' :
  digits major = true →
  has_char " " (major +:+ tail) = false →
  ends_line rest = true →
  " version " +:+ (major +:+ tail) +:+ rest = p1 +:+ t' →
  p1 ≠ "" → no_newline p1 = true →
  strip_prefix " version " t' = None.
Proof.
  intros Hmajor Hsp Hrest H Hne Hnn.
  destruct (strip_prefix " version " t') as [z|] eqn:E; [exfalso|reflexivity].
  apply ReFacts.strip_prefix_Some in E as ->.
  destruct p1 as [|c1 p1]; [contradiction|].
  apply no_newline_cons in Hnn. simpl in H. injection H as _ H.
  do 7 (destruct p1 as [|? p1]; [discriminate H|];
        apply no_newline_cons in Hnn; simpl in H; injection H as _ H).
  destruct p1 as [|c p1].
  - simpl in H. injection H as H.
    apply digits_inv in Hmajor as (d & m' & -> & Hd & _).
    simpl in H. injection H as -> _. vm_compute in Hd. discriminate.
  - apply no_newline_cons in Hnn. simpl in H. injection H as _ H.
    exact (space_not_after _ _ _ _ Hsp Hrest Hnn H).
Qed.

Lemma ends_line_no_digit rest c t1 :
  ends_line rest = true → rest = String c t1 → Builtin.is_digit c = false.
Proof.
  intros H ->. simpl in H. apply Ascii.eqb_eq in H as ->. reflexivity.
Qed.

Lemma digits_no_space s : digits s = true → has_char " " s = false.
Proof.
  intros H%digits_all. apply (all_chars_has_char Builtin.is_digit); auto.
Qed.

(** On an output whose first [bowtie2] is followed, on the same line, by
    [ version ] and a version number that ends the line, the pattern finds
    the three numbers. *)
Lemma bowtie_search pre mid major minor patch rest :
  Builtin.contains "bowtie2" (pre +:+ "bowtie") = false →
  no_newline mid = true →
  digits major = true → digits minor = true → digits patch = true →
  ends_line rest = true →
  Re2.search Utils.BOWTIE_VERSION_REGEX
    (pre +:+ "bowtie2" +:+ mid +:+ " version "
       +:+ major +:+ "." +:+ minor +:+ "." +:+ patch +:+ rest)
  = Some [major; minor; patch].
Proof.
  intros Hpre Hmid HM Hm Hp Hrest.
  rewrite Re2Facts.search_skip.
  2:{ intros a b Hab Hb. unfold Re2.re_match, Utils.BOWTIE_VERSION_REGEX.
      rewrite Re2Facts.run_seq, Re2Facts.literal_run.
      rewrite (Re2Facts.no_occurrence_before "bowtie" "2" pre _ a b Hpre Hab Hb).
      reflexivity. }
  apply Re2Facts.search_hit.
  unfold Re2.re_match, Utils.BOWTIE_VERSION_REGEX.
  rewrite Re2Facts.run_seq, Re2Facts.literal_run, ReFacts.strip_prefix_app.
  rewrite Re2Facts.run_seq, Re2Facts.run_star.
  apply Re2Facts.greedy_stops.
  - rewrite <- no_newline_all_chars. exact Hmid.
  - rewrite Re2Facts.run_seq, Re2Facts.literal_run, ReFacts.strip_prefix_app.
    rewrite Re2Facts.run_seq.
    apply Re2Facts.run_digits_group; [exact HM|intros c t1 [= <- _]; reflexivity|].
    rewrite Re2Facts.run_seq, Re2Facts.run_char, str_app_cons, str_app_nil_l.
    rewrite Ascii.eqb_refl, Re2Facts.run_seq.
    apply Re2Facts.run_digits_group; [exact Hm|intros c t1 [= <- _]; reflexivity|].
    rewrite Re2Facts.run_seq, Re2Facts.run_char, str_app_cons, str_app_nil_l.
    rewrite Ascii.eqb_refl.
    apply Re2Facts.run_digits_group;
      [exact Hp|intros c t1; apply ends_line_no_digit; exact Hrest|].
    reflexivity.
  - intros p1 t' Heq Hne Hp1.
    rewrite Re2Facts.run_seq, Re2Facts.literal_run.
    rewrite (no_later_version major ("." +:+ minor +:+ "." +:+ patch) rest p1 t');
      [reflexivity|exact HM| |exact Hrest| |exact Hne|].
    + rewrite !has_char_app, (digits_no_space _ HM), (digits_no_space _ Hm),
        (digits_no_space _ Hp). reflexivity.
    + rewrite <- Heq, !str_app_assoc. reflexivity.
    + rewrite no_newline_all_chars. exact Hp1.
Qed.


Lemma check_bowtie_version_checked outcome out :
  command_stdout outcome = Some out →
  Utils.check_bowtie_version outcome =
  match Utils.bowtie_checker out with
  | None => ([], Utils.ValueError)
  | Some (logged, true) => (logged, Utils.Returns)
  | Some (logged, false) => bowtie_rejected logged
  end.
Proof.
  destruct outcome; intros [= <-]; unfold Utils.check_bowtie_version,
    Utils.check_command_version;
    destruct (Utils.bowtie_checker _) as [[logged [|]]|]; reflexivity.
Qed.

Lemma bowtie_checker_groups out major minor patch M m p :
  Re2.search Utils.BOWTIE_VERSION_REGEX out = Some [major; minor; patch] →
  Builtin.int major = Some M → Builtin.int minor = Some m →
  Builtin.int patch = Some p →
  Utils.bowtie_checker out =
  Some ([], Builtin.tuple3_ge (M, m, p) Utils.MINIMUM_BOWTIE_VERSION).
Proof.
  intros Hs HM Hm Hp. unfold Utils.bowtie_checker. rewrite Hs.
  change (Re2.group 1 [major; minor; patch]) with major.
  change (Re2.group 2 [major; minor; patch]) with minor.
  change (Re2.group 3 [major; minor; patch]) with patch.
  rewrite HM, Hm, Hp. reflexivity.
Qed.

(** X9: the verdict of [check_bowtie_version] on a well-formed output.
    When the first [bowtie2] of the output is followed on its line by
    [ version ] and by three numbers separated by periods that end the
    line, the numbers are read as integers and compared with (2, 1, 0) in
    lexicographic order: the call returns, logging nothing, exactly when
    the major number exceeds 2, or is 2 with a minor number of at least 1;
    otherwise it logs two messages and exits with -1. The exit status of
    [bowtie2 --version] plays no role. *)
Theorem check_bowtie_version_verdict pre mid major minor patch rest :
  Builtin.contains "bowtie2" (pre +:+ "bowtie") = false →
  no_newline mid = true →
  digits major = true → digits minor = true → digits patch = true →
  ends_line rest = true →
  ∃ M m p,
    Builtin.int major = Some M ∧ Builtin.int minor = Some m
    ∧ Builtin.int patch = Some p
    ∧ ∀ outcome,
        command_stdout outcome
        = Some (bowtie_output pre mid major minor patch rest) →
        Utils.check_bowtie_version outcome =
        if decide (2 < M ∨ (M = 2 ∧ 1 ≤ m))%Z then ([], Utils.Returns)
        else bowtie_rejected [].
Proof.
  intros Hpre Hmid HM Hm Hp Hrest.
  destruct (int_digits _ HM) as (M & EM & _).
  destruct (int_digits _ Hm) as (m & Em & _).
  destruct (int_digits _ Hp) as (p & Ep & Hp0).
  exists M, m, p. split_and!; [exact EM|exact Em|exact Ep|].
  intros outcome Hout.
  rewrite (check_bowtie_version_checked _ _ Hout). unfold bowtie_output.
  rewrite (bowtie_checker_groups _ _ _ _ _ _ _
             (bowtie_search _ _ _ _ _ _ Hpre Hmid HM Hm Hp Hrest) EM Em Ep).
  pose proof (tuple3_ge_minimum M m p Hp0) as Hge.
  destruct (Builtin.tuple3_ge _ _); case_decide; try reflexivity.
  - exfalso. tauto.
  - exfalso. assert (false = true) by tauto. discriminate.
Qed.

(** The output of bowtie2 2.0.6, which is too old, with a non-zero exit
    status. *)
Lemma check_bowtie_version_verdict_witness :
  Utils.check_bowtie_version
    (Utils.CalledProcessError 1
       (bowtie_output "/usr/bin/" "-align" "2" "0" "6"
          (String Re.newline "64-bit")))
  = bowtie_rejected [].
Proof.
  destruct (check_bowtie_version_verdict "/usr/bin/" "-align" "2" "0" "6"
              (String Re.newline "64-bit"))
    as (M & m & p & EM & Em & Ep & H); [reflexivity..|].
  rewrite (H (Utils.CalledProcessError 1
                (bowtie_output "/usr/bin/" "-align" "2" "0" "6"
                   (String Re.newline "64-bit"))) eq_refl).
  vm_compute in EM, Em. injection EM as <-. injection Em as <-.
  reflexivity.
Defined.


Lemma search_literal_absent lit r s :
  Builtin.contains lit s = false →
  Re2.search (Re2.RSeq (Re2.literal lit) r) s = None.
Proof.
  induction s as [|c s IH]; cbn [Builtin.contains Re2.search];
    unfold Re2.re_match; rewrite Re2Facts.run_seq, Re2Facts.literal_run.
  - destruct (strip_prefix lit ""); [discriminate|reflexivity].
  - destruct (strip_prefix lit (String c s)); [discriminate|]. exact IH.
Qed.

(** X11: when the captured output does not contain the text [bowtie2],
    [check_bowtie_version] logs that it cannot find the version number,
    then the two messages of a wrong version, and exits with -1. *)
Theorem check_bowtie_version_not_found outcome out :
  command_stdout outcome = Some out →
  Builtin.contains "bowtie2" out = false →
  Utils.check_bowtie_version outcome =
  bowtie_rejected
    ["Cannot find bowtie version number in output of bowtie2 --version"].
Proof.
  intros Hout Hno. rewrite (check_bowtie_version_checked _ _ Hout).
  unfold Utils.bowtie_checker, Utils.BOWTIE_VERSION_REGEX.
  rewrite (search_literal_absent _ _ _ Hno). reflexivity.
Qed.

(** The shell finds another program. *)
Lemma check_bowtie_version_not_found_witness :
  Utils.check_bowtie_version (Utils.Output "bowtie version 1.0.0")
  = bowtie_rejected
      ["Cannot find bowtie version number in output of bowtie2 --version"].
Proof.
  apply (check_bowtie_version_not_found _ "bowtie version 1.0.0"); reflexivity.
Defined.

(** ** The version of samtools *)

(** X12: [check_samtools_version] returns, logging nothing, exactly when
    the captured output contains the text [Version: 0.1.18] somewhere,
    whatever the exit status of [samtools] and whatever follows the text
    (a longer number that begins with these characters passes); in every
    other case it exits with -1. *)
Theorem check_samtools_version_accepts outcome :
  (Utils.check_samtools_version outcome = ([], Utils.Returns)
   ↔ ∃ a b, command_stdout outcome = Some (a +:+ "Version: 0.1.18" +:+ b))
  ∧ (Utils.check_samtools_version outcome = ([], Utils.Returns)
     ∨ (Utils.check_samtools_version outcome).2 = Utils.SystemExit (-1)).
Proof.
  assert (Hrun : ∀ out, command_stdout outcome = Some out →
            Utils.check_samtools_version outcome =
            if Builtin.contains "Version: 0.1.18" out then ([], Utils.Returns)
            else (["Incorrect version of samtools installed.";
                   "samtools version 0.1.18 is required by SRST2."],
                  Utils.SystemExit (-1))).
  { intros out Hout. destruct outcome; try discriminate Hout;
      injection Hout as <-;
      unfold Utils.check_samtools_version, Utils.check_command_version_literal,
        Utils.check_command_version;
      change ("Version: " +:+ Utils.SAMTOOLS_VERSION_STR) with "Version: 0.1.18";
      destruct (Builtin.contains _ _); reflexivity. }
  destruct (command_stdout outcome) as [out|] eqn:Hout.
  - rewrite (Hrun out eq_refl).
    destruct (Builtin.contains "Version: 0.1.18" out) eqn:Hc.
    + split; [|left; reflexivity]. split; [|reflexivity].
      intros _. apply contains_spec in Hc as (a & b & ->). eauto.
    + split; [|right; reflexivity]. split; [discriminate|].
      intros (a & b & [= ->]).
      assert (Builtin.contains "Version: 0.1.18" (a +:+ "Version: 0.1.18" +:+ b)
              = true) by (apply contains_spec; eauto).
      congruence.
  - destruct outcome; try discriminate.
    split; [|right; reflexivity].
    split; [discriminate|]. intros (a & b & [=]).
Qed.

(** * [srst2_gui.py] *)

Example main_db_examples :
  main_db (Some "--mlst_db mlst.fasta --mlst_definitions st.txt --gene_db a.fasta b.fasta")
  = Some ["mlst.fasta"; "a.fasta"; "b.fasta"]
  ∧ main_db (Some "--gene_db a.fasta b.fasta --mlst_db mlst.fasta")
    = Some ["a.fasta"; "b.fasta"]
  ∧ main_db (Some "--gene_db a.fasta --mlst_db mlst.fasta --mlst_delimiter _")
    = Some ["mlst.fasta"; "a.fasta"]
  ∧ main_db None = None.
Proof. vm_compute. split_and!; reflexivity. Qed.

Example gui_examples :
  Gui.get_one_file (Gui.VStr "  db.fasta ") = Some "db.fasta"
  ∧ Gui.get_filenames_tuple (Gui.VStr "a.fq")
    = Some [Gui.VStr "a"; Gui.VStr "."; Gui.VStr "f"; Gui.VStr "q"]
  ∧ Gui.get_filenames_tuple (Gui.VTuple [Gui.VStr "a.fq"; Gui.VStr "b.fq"])
    = Some [Gui.VStr "a.fq"; Gui.VStr "b.fq"].
Proof. vm_compute. split_and!; reflexivity. Qed.

(** ** Facts about [strip] *)

Lemma lstrip_head s :
  Builtin.lstrip s = ""
  ∨ ∃ c t, Builtin.lstrip s = String c t ∧ Builtin.is_space c = false.
Proof.
  induction s as [|c s IH]; simpl; [auto|].
  destruct (Builtin.is_space c) eqn:Hc; [exact IH|]. right. eauto.
Qed.

Lemma lstrip_blank s :
  Builtin.lstrip s = "" ↔ all_chars Builtin.is_space s = true.
Proof.
  induction s as [|c s IH]; simpl; [tauto|].
  destruct (Builtin.is_space c); simpl; [exact IH|].
  split; discriminate.
Qed.

Lemma lstrip_fixed c t :
  Builtin.is_space c = false → Builtin.lstrip (String c t) = String c t.
Proof. intros H. simpl. rewrite H. reflexivity. Qed.

Lemma rstrip_cons c s :
  Builtin.rstrip (String c s) =
  match Builtin.rstrip s with
  | EmptyString => if Builtin.is_space c then EmptyString else String c EmptyString
  | r => String c r
  end.
Proof. reflexivity. Qed.

Lemma rstrip_blank s :
  Builtin.rstrip s = "" ↔ all_chars Builtin.is_space s = true.
Proof.
  induction s as [|c s IH]; [simpl; tauto|].
  rewrite rstrip_cons. cbn [all_chars].
  destruct (Builtin.rstrip s) as [|a r].
  - destruct (Builtin.is_space c); simpl.
    + split; [intros _; apply IH; reflexivity|reflexivity].
    + split; discriminate.
  - split; [discriminate|].
    intros [_ Hs]%andb_true_iff. apply IH in Hs. discriminate.
Qed.

Lemma rstrip_idem s : Builtin.rstrip (Builtin.rstrip s) = Builtin.rstrip s.
Proof.
  induction s as [|c s IH]; [reflexivity|].
  rewrite rstrip_cons.
  destruct (Builtin.rstrip s) as [|a r] eqn:E.
  - destruct (Builtin.is_space c) eqn:Hc; [reflexivity|].
    rewrite rstrip_cons. simpl. rewrite Hc. reflexivity.
  - rewrite rstrip_cons, IH. reflexivity.
Qed.

(** [rstrip] keeps a first character that is not a blank. *)
Lemma rstrip_head c t :
  Builtin.is_space c = false →
  ∃ t', Builtin.rstrip (String c t) = String c t'.
Proof.
  intros Hc. rewrite rstrip_cons.
  destruct (Builtin.rstrip t); rewrite ?Hc; eauto.
Qed.

Lemma strip_blank s :
  Builtin.strip s = "" ↔ all_chars Builtin.is_space s = true.
Proof.
  unfold Builtin.strip. rewrite <- lstrip_blank.
  destruct (lstrip_head s) as [->|(c & t & -> & Hc)]; [tauto|].
  destruct (rstrip_head c t Hc) as [t' ->]. split; discriminate.
Qed.

Lemma strip_idem s : Builtin.strip (Builtin.strip s) = Builtin.strip s.
Proof.
  unfold Builtin.strip at 2 3.
  destruct (lstrip_head s) as [->|(c & t & -> & Hc)]; [reflexivity|].
  destruct (rstrip_head c t Hc) as [t' Ht]. unfold Builtin.strip.
  rewrite Ht, (lstrip_fixed _ _ Hc), <- Ht. apply rstrip_idem.
Qed.

Lemma length_pos_nonempty s :
  (0 <? String.length s)%nat = negb (String.eqb s "").
Proof. destruct s; reflexivity. Qed.

(** ** The helpers *)

(** X13: [get_one_file] returns [None] exactly when the value is not a
    [str] or is a [str] made of blanks only; otherwise it returns the text
    without its leading and trailing blanks, which is not empty and which
    the function maps to itself. *)
Theorem get_one_file_result v :
  (Gui.get_one_file v = None
   ↔ ∀ s, v = Gui.VStr s → all_chars Builtin.is_space s = true)
  ∧ ∀ r, Gui.get_one_file v = Some r →
      (∃ s, v = Gui.VStr s ∧ r = Builtin.strip s)
      ∧ r ≠ "" ∧ Builtin.strip r = r
      ∧ Gui.get_one_file (Gui.VStr r) = Some r.
Proof.
  destruct v as [s| |]; simpl.
  2,3: split; [split; [intros _ s; discriminate|reflexivity]|discriminate].
  rewrite length_pos_nonempty.
  destruct (String.eqb_spec (Builtin.strip s) "") as [He|Hne]; simpl.
  - split; [|discriminate]. split; [|reflexivity].
    intros _ s' [= <-]. apply strip_blank. exact He.
  - split.
    + split; [discriminate|]. intros H. exfalso. apply Hne, strip_blank.
      exact (H s eq_refl).
    + intros r [= <-]. split_and!; [eauto|exact Hne|apply strip_idem|].
      rewrite strip_idem, length_pos_nonempty.
      destruct (String.eqb_spec (Builtin.strip s) ""); [contradiction|reflexivity].
Qed.

Lemma tuple_of_str_items s :
  Forall (λ x, ∃ c, x = Gui.VStr (String c "")) (Gui.tuple_of_str s)
  ∧ length (Gui.tuple_of_str s) = String.length s.
Proof.
  unfold Gui.tuple_of_str. induction s as [|c s [IH1 IH2]]; simpl.
  - split; [constructor|reflexivity].
  - split; [constructor; eauto|f_equal; exact IH2].
Qed.

(** X14: [get_filenames_tuple] hands a tuple over unchanged. From a [str]
    it makes [None] exactly when the text is made of blanks only; otherwise
    it makes a tuple of the characters of the stripped text, as many items
    as the text has characters and each of length one: a path typed into
    the field is not kept as one file name. *)
Theorem get_filenames_tuple_result :
  (∀ items, Gui.get_filenames_tuple (Gui.VTuple items) = Some items)
  ∧ ∀ s,
      (Gui.get_filenames_tuple (Gui.VStr s) = None
       ↔ all_chars Builtin.is_space s = true)
      ∧ ∀ items, Gui.get_filenames_tuple (Gui.VStr s) = Some items →
          length items = String.length (Builtin.strip s)
          ∧ items ≠ []
          ∧ Forall (λ x, ∃ c, x = Gui.VStr (String c "")) items.
Proof.
  split; [reflexivity|]. intros s. simpl.
  rewrite length_pos_nonempty.
  destruct (String.eqb_spec (Builtin.strip s) "") as [He|Hne]; simpl.
  - split; [|discriminate]. split; [|reflexivity].
    intros _. apply strip_blank. exact He.
  - split.
    + split; [discriminate|]. intros H. exfalso. apply Hne, strip_blank, H.
    + intros items [= <-].
      destruct (tuple_of_str_items (Builtin.strip s)) as [Hall Hlen].
      split_and!; [exact Hlen| |exact Hall].
      intros Hnil. rewrite Hnil in Hlen. simpl in Hlen.
      destruct (Builtin.strip s); [contradiction|discriminate].
Qed.

(** * [main]: the databases to index *)

Lemma str_app_split a b u v :
  a +:+ b = u +:+ v →
  String.length b ≤ String.length v →
  ∃ w, v = w +:+ b.
Proof.
  revert u. induction a as [|c a IH]; intros u H Hl.
  - rewrite str_app_nil_l in H. subst b. rewrite str_length_app in Hl.
    destruct u; [exists ""; reflexivity|simpl in Hl; lia].
  - destruct u as [|c' u].
    + rewrite str_app_nil_l in H. subst v. eauto.
    + rewrite !str_app_cons in H. injection H as _ H. exact (IH u H Hl).
Qed.

Lemma run_group r s caps k :
  Re2.run (Re2.RGroup r) s caps k =
  Re2.run r s caps (λ s' caps', k s' (caps' ++ [Re.consumed s s'])).
Proof. reflexivity. Qed.

(** The greedy [.*] at the end of a pattern matches whatever follows. *)
Lemma star_always {A} m s (x : A) : Re2.star m s (λ _, Some x) = Some x.
Proof.
  induction s as [|c s IH]; simpl; [reflexivity|].
  rewrite IH. destruct (m c); reflexivity.
Qed.

Lemma search_none r s :
  (∀ a b, s = a +:+ b → Re2.re_match r b = None) → Re2.search r s = None.
Proof.
  induction s as [|c s IH]; intros H; simpl.
  - rewrite (H "" "" eq_refl). reflexivity.
  - rewrite (H "" (String c s) eq_refl). apply IH.
    intros a b ->. exact (H (String c a) b eq_refl).
Qed.

(** A pattern that opens with the option name in a group and a space,
    matched at the start of [b]: what is left of [b] for the rest of the
    pattern. *)
Lemma option_name_run lit r b caps k :
  Re2.run (Re2.RSeq (Re2.RGroup (Re2.literal lit))
             (Re2.RSeq (Re2.RAtom (Re2.AChar " ")) r)) b caps k =
  match strip_prefix (lit +:+ " ") b with
  | Some rest => Re2.run r rest (caps ++ [lit]) k
  | None => None
  end.
Proof.
  rewrite Re2Facts.run_seq, run_group, Re2Facts.literal_run.
  destruct (strip_prefix lit b) as [rest|] eqn:E.
  - apply ReFacts.strip_prefix_Some in E as ->.
    rewrite consumed_app, Re2Facts.run_seq, Re2Facts.run_char.
    destruct rest as [|c rest].
    + destruct (strip_prefix (lit +:+ " ") (lit +:+ "")) eqn:E2; [|reflexivity].
      apply ReFacts.strip_prefix_Some in E2.
      apply (f_equal String.length) in E2.
      rewrite !str_length_app in E2. simpl in E2. lia.
    + destruct (Ascii.eqb_spec c " ") as [->|Hne].
      * replace (lit +:+ String " " rest) with ((lit +:+ " ") +:+ rest)
          by (rewrite str_app_assoc; reflexivity).
        rewrite ReFacts.strip_prefix_app. reflexivity.
      * destruct (strip_prefix (lit +:+ " ") (lit +:+ String c rest)) eqn:E2;
          [|reflexivity].
        apply ReFacts.strip_prefix_Some in E2.
        rewrite str_app_assoc in E2.
        assert (E3 : strip_prefix lit (lit +:+ String c rest)
                     = Some (" " +:+ s)) by (apply ReFacts.strip_prefix_Some, E2).
        rewrite ReFacts.strip_prefix_app in E3. injection E3 as E3 _.
        contradiction.
  - destruct (strip_prefix (lit +:+ " ") b) eqn:E2; [|reflexivity].
    apply ReFacts.strip_prefix_Some in E2. rewrite str_app_assoc in E2.
    assert (E3 : strip_prefix lit b = Some (" " +:+ s))
      by (apply ReFacts.strip_prefix_Some, E2).
    congruence.
Qed.

(** Where the option name with its space can begin in a text in which it
    first occurs after [pre]: not inside [pre]; and when it begins later
    than that first occurrence, what follows it is the end of [tail]. *)
Lemma option_name_positions lit0 c pre tail a b rest :
  Builtin.contains (lit0 +:+ String c "") (pre +:+ lit0) = false →
  pre +:+ (lit0 +:+ String c "") +:+ " " +:+ tail = a +:+ b →
  strip_prefix ((lit0 +:+ String c "") +:+ " ") b = Some rest →
  String.length pre ≤ String.length a
  ∧ ((a = pre ∧ rest = tail)
     ∨ (∃ w, w ≠ "" ∧ tail = w +:+ rest)).
Proof.
  intros Hpre Hab Hb. apply ReFacts.strip_prefix_Some in Hb as ->.
  set (lit := lit0 +:+ String c "") in *.
  destruct (decide (String.length a < String.length pre)) as [Hlt|Hge];
    [|split; [lia|]].
  - exfalso.
    assert (Hs : ∃ b', pre = a +:+ b' ∧ b' ≠ "").
    { clear Hpre. revert a Hab Hlt. induction pre as [|x pre IH]; intros a Hab Hlt.
      - simpl in Hlt. lia.
      - destruct a as [|y a].
        + exists (String x pre). split; [reflexivity|discriminate].
        + rewrite !str_app_cons in Hab. injection Hab as -> Hab.
          simpl in Hlt. destruct (IH a Hab ltac:(lia)) as (b' & -> & Hb').
          exists b'. split; [reflexivity|exact Hb']. }
    destruct Hs as (b' & -> & Hb').
    rewrite str_app_assoc in Hab.
    assert (Hab' : b' +:+ lit +:+ " " +:+ tail = (lit +:+ " ") +:+ rest).
    { clear -Hab. induction a as [|y a IH]; [exact Hab|].
      rewrite !str_app_cons in Hab. injection Hab as Hab. exact (IH Hab). }
    pose proof (Re2Facts.no_occurrence_before lit0 c (a +:+ b') (" " +:+ tail)
                  a b' Hpre eq_refl Hb') as Hno.
    fold lit in Hno. rewrite Hab', str_app_assoc in Hno.
    rewrite ReFacts.strip_prefix_app in Hno. discriminate.
  - assert (Hlen : String.length rest ≤ String.length tail).
    { apply (f_equal String.length) in Hab.
      rewrite !str_length_app in Hab. simpl in Hab. lia. }
    replace (pre +:+ lit +:+ " " +:+ tail)
      with ((pre +:+ lit +:+ " ") +:+ tail) in Hab
      by (rewrite !str_app_assoc; reflexivity).
    replace (a +:+ (lit +:+ " ") +:+ rest)
      with ((a +:+ lit +:+ " ") +:+ rest) in Hab
      by (rewrite !str_app_assoc; reflexivity).
    symmetry in Hab.
    destruct (str_app_split _ _ _ _ Hab Hlen) as [w ->].
    destruct w as [|x w].
    + left. split; [|reflexivity]. rewrite str_app_nil_l in Hab.
      assert (Hl : String.length a = String.length pre).
      { apply (f_equal String.length) in Hab.
        rewrite !str_length_app in Hab. lia. }
      clear -Hab Hl. revert pre Hab Hl.
      induction a as [|y a IH]; intros [|x pre] Hab Hl; simpl in Hl; try lia.
      * reflexivity.
      * rewrite !str_app_cons in Hab. injection Hab as -> Hab.
        f_equal. apply IH; [exact Hab|lia].
    + right. exists (String x w). split; [discriminate|reflexivity].
Qed.

Lemma contains_false_suffix sub w r :
  Builtin.contains sub (w +:+ r) = false → Builtin.contains sub r = false.
Proof.
  induction w as [|c w IH]; [rewrite str_app_nil_l; auto|].
  rewrite str_app_cons. intros [_ H]%contains_cons_false. exact (IH H).
Qed.

Lemma has_char_suffix c w r :
  has_char c (w +:+ r) = false → has_char c r = false.
Proof. rewrite has_char_app. intros [_ ?]%orb_false_elim. assumption. Qed.

(** In a text where the option name first occurs after [pre], followed by
    a space and [tail]: at every position, what a match of the option
    name and its space leaves is the end of [tail]. *)
Lemma option_name_rest lit0 c pre tail a b rest :
  Builtin.contains (lit0 +:+ String c "") (pre +:+ lit0) = false →
  pre +:+ (lit0 +:+ String c "") +:+ " " +:+ tail = a +:+ b →
  strip_prefix ((lit0 +:+ String c "") +:+ " ") b = Some rest →
  ∃ w, tail = w +:+ rest.
Proof.
  intros Hpre Hab Hb.
  destruct (option_name_positions _ _ _ _ _ _ _ Hpre Hab Hb)
    as [_ [[_ ->]|(w & _ & ->)]]; [exists ""; reflexivity|eauto].
Qed.

(** [search] goes past [pre]: the option name does not begin inside it. *)
Lemma option_name_skip lit0 c r pre tail :
  Builtin.contains (lit0 +:+ String c "") (pre +:+ lit0) = false →
  Re2.search (Re2.RSeq (Re2.RGroup (Re2.literal (lit0 +:+ String c "")))
                (Re2.RSeq (Re2.RAtom (Re2.AChar " ")) r))
    (pre +:+ (lit0 +:+ String c "") +:+ " " +:+ tail)
  = Re2.search (Re2.RSeq (Re2.RGroup (Re2.literal (lit0 +:+ String c "")))
                  (Re2.RSeq (Re2.RAtom (Re2.AChar " ")) r))
      ((lit0 +:+ String c "") +:+ " " +:+ tail).
Proof.
  intros Hpre. apply Re2Facts.search_skip. intros a b -> Hb.
  unfold Re2.re_match. rewrite option_name_run.
  destruct (strip_prefix _ _) as [rest|] eqn:E; [exfalso|reflexivity].
  assert (Hab : (a +:+ b) +:+ (lit0 +:+ String c "") +:+ " " +:+ tail
                = a +:+ (b +:+ (lit0 +:+ String c "") +:+ " " +:+ tail))
    by (rewrite str_app_assoc; reflexivity).
  destruct (option_name_positions _ _ _ _ _ _ _ Hpre Hab E) as [Hl _].
  rewrite str_length_app in Hl. destruct b; [contradiction|simpl in Hl; lia].
Qed.

Lemma option_name_hit lit r tail g :
  Re2.run r tail [lit] (λ _ caps, Some caps) = Some g →
  Re2.search (Re2.RSeq (Re2.RGroup (Re2.literal lit))
                (Re2.RSeq (Re2.RAtom (Re2.AChar " ")) r))
    (lit +:+ " " +:+ tail)
  = Some g.
Proof.
  intros H. apply Re2Facts.search_hit. unfold Re2.re_match.
  rewrite option_name_run.
  replace (lit +:+ " " +:+ tail) with ((lit +:+ " ") +:+ tail)
    by (rewrite str_app_assoc; reflexivity).
  rewrite ReFacts.strip_prefix_app. exact H.
Qed.

Lemma first_char_not c s t :
  has_char c s = false → s ≠ "" →
  match s +:+ t with
  | String a _ => Ascii.eqb a c = false
  | EmptyString => False
  end.
Proof.
  destruct s as [|a s]; [contradiction|]. simpl.
  intros [? _]%orb_false_elim _. assumption.
Qed.

(** ** The three searches *)

Lemma mlst_search_found pre name rest :
  Builtin.contains "--mlst_db" (pre +:+ "--mlst_d") = false →
  has_char " " name = false →
  no_newline name = true →
  Re2.search mlst_db_pattern (pre +:+ "--mlst_db " +:+ name +:+ " " +:+ rest)
  = Some ["--mlst_db"; name].
Proof.
  intros Hpre Hsp Hnl. unfold mlst_db_pattern.
  change (pre +:+ "--mlst_db " +:+ name +:+ " " +:+ rest)
    with (pre +:+ ("--mlst_d" +:+ "b") +:+ " " +:+ (name +:+ " " +:+ rest)).
  change "--mlst_db" with ("--mlst_d" +:+ "b") in Hpre |- *.
  rewrite (option_name_skip _ _ _ _ _ Hpre).
  apply option_name_hit.
  rewrite Re2Facts.run_seq, run_group, Re2Facts.run_lazy.
  apply Re2Facts.star_lazy_first.
  - rewrite <- no_newline_all_chars. exact Hnl.
  - rewrite Re2Facts.run_seq, Re2Facts.run_char, str_app_cons, str_app_nil_l.
    rewrite Ascii.eqb_refl, Re2Facts.run_star, star_always.
    rewrite <- (str_app_nil_l rest), <- str_app_cons, consumed_app. reflexivity.
  - intros p1 p2 -> Hne. rewrite Re2Facts.run_seq, Re2Facts.run_char.
    apply has_char_suffix in Hsp.
    pose proof (first_char_not " " p2 (" " +:+ rest) Hsp Hne) as Hc.
    destruct (p2 +:+ " " +:+ rest); [reflexivity|]. rewrite Hc. reflexivity.
Qed.

Lemma mlst_search_last pre name :
  Builtin.contains "--mlst_db" (pre +:+ "--mlst_d") = false →
  has_char " " name = false →
  Re2.search mlst_db_pattern (pre +:+ "--mlst_db " +:+ name) = None.
Proof.
  intros Hpre Hsp. apply search_none. intros a b Hab.
  unfold Re2.re_match, mlst_db_pattern. rewrite option_name_run.
  destruct (strip_prefix _ b) as [rest|] eqn:E; [|reflexivity].
  destruct (option_name_rest "--mlst_d" "b" pre name a b rest Hpre Hab E)
    as [w ->].
  apply has_char_suffix in Hsp.
  destruct (Re2.run _ rest _ _) as [g|] eqn:Hrun; [exfalso|reflexivity].
  rewrite Re2Facts.run_seq, run_group, Re2Facts.run_lazy in Hrun.
  apply Re2Facts.star_lazy_sound in Hrun as (p & t & -> & _ & Hk).
  rewrite Re2Facts.run_seq, Re2Facts.run_char in Hk.
  apply has_char_suffix in Hsp.
  destruct t as [|x t]; [discriminate|]. simpl in Hsp.
  apply orb_false_elim in Hsp as [Hx _]. rewrite Hx in Hk. discriminate.
Qed.

Lemma gene_dashes_found pre files rest :
  Builtin.contains "--gene_db" (pre +:+ "--gene_d") = false →
  no_newline files = true →
  Builtin.contains " --" (files +:+ " -") = false →
  Re2.search gene_db_dashes_pattern
    (pre +:+ "--gene_db " +:+ files +:+ " --" +:+ rest)
  = Some ["--gene_db"; files].
Proof.
  intros Hpre Hnl Hfirst. unfold gene_db_dashes_pattern.
  change (pre +:+ "--gene_db " +:+ files +:+ " --" +:+ rest)
    with (pre +:+ ("--gene_d" +:+ "b") +:+ " " +:+ (files +:+ " --" +:+ rest)).
  change "--gene_db" with ("--gene_d" +:+ "b") in Hpre |- *.
  rewrite (option_name_skip _ _ _ _ _ Hpre).
  apply option_name_hit.
  rewrite Re2Facts.run_seq, run_group, Re2Facts.run_lazy.
  apply Re2Facts.star_lazy_first.
  - rewrite <- no_newline_all_chars. exact Hnl.
  - rewrite Re2Facts.literal_run, ReFacts.strip_prefix_app, consumed_app.
    reflexivity.
  - intros p1 p2 Hp Hne. rewrite Re2Facts.literal_run.
    pose proof (Re2Facts.no_occurrence_before " -" "-" files rest p1 p2
                  Hfirst Hp Hne) as Hno.
    change (" -" +:+ "-") with " --" in Hno. rewrite Hno. reflexivity.
Qed.

Lemma gene_dashes_none pre files :
  Builtin.contains "--gene_db" (pre +:+ "--gene_d") = false →
  Builtin.contains " --" files = false →
  Re2.search gene_db_dashes_pattern (pre +:+ "--gene_db " +:+ files) = None.
Proof.
  intros Hpre Hno. apply search_none. intros a b Hab.
  unfold Re2.re_match, gene_db_dashes_pattern. rewrite option_name_run.
  destruct (strip_prefix _ b) as [rest|] eqn:E; [|reflexivity].
  destruct (option_name_rest "--gene_d" "b" pre files a b rest Hpre Hab E)
    as [w ->].
  apply contains_false_suffix in Hno.
  destruct (Re2.run _ rest _ _) as [g|] eqn:Hrun; [exfalso|reflexivity].
  rewrite Re2Facts.run_seq, run_group, Re2Facts.run_lazy in Hrun.
  apply Re2Facts.star_lazy_sound in Hrun as (p & t & -> & _ & Hk).
  rewrite Re2Facts.literal_run in Hk.
  destruct (strip_prefix " --" t) as [z|] eqn:Et; [|discriminate].
  apply ReFacts.strip_prefix_Some in Et as ->.
  assert (Builtin.contains " --" (p +:+ " --" +:+ z) = true)
    by (apply contains_spec; eauto).
  congruence.
Qed.

Lemma star_lazy_all {A} m p (k : string → option A) x :
  all_chars m p = true →
  k "" = Some x →
  (∀ p1 p2, p = p1 +:+ p2 → p2 ≠ "" → k p2 = None) →
  Re2.star_lazy m p k = Some x.
Proof.
  intros Hp Hk Hshort. rewrite <- (str_app_nil_r p).
  apply Re2Facts.star_lazy_first; [exact Hp|exact Hk|].
  intros p1 p2 Heq Hne. rewrite str_app_nil_r. exact (Hshort p1 p2 Heq Hne).
Qed.

Lemma gene_end_found pre files :
  Builtin.contains "--gene_db" (pre +:+ "--gene_d") = false →
  no_newline files = true →
  Re2.search gene_db_end_pattern (pre +:+ "--gene_db " +:+ files)
  = Some ["--gene_db"; files].
Proof.
  intros Hpre Hnl. unfold gene_db_end_pattern.
  change (pre +:+ "--gene_db " +:+ files)
    with (pre +:+ ("--gene_d" +:+ "b") +:+ " " +:+ files).
  change "--gene_db" with ("--gene_d" +:+ "b") in Hpre |- *.
  rewrite (option_name_skip _ _ _ _ _ Hpre).
  apply option_name_hit.
  rewrite Re2Facts.run_seq, run_group, Re2Facts.run_lazy.
  apply star_lazy_all.
  - rewrite <- no_newline_all_chars. exact Hnl.
  - rewrite consumed_all. reflexivity.
  - intros p1 p2 -> Hne.
    unfold no_newline in Hnl. rewrite ReFacts.all_match_app in Hnl.
    apply andb_true_iff in Hnl as [_ Hnl].
    destruct p2 as [|x p2]; [contradiction|]. simpl in Hnl.
    apply andb_true_iff in Hnl as [Hx _]. apply negb_true_iff in Hx.
    cbn [Re2.run]. destruct p2; simpl; rewrite ?Hx; reflexivity.
Qed.

Lemma main_db_parts other_args :
  main_db (Some other_args) =
  Some (match Re2.search mlst_db_pattern other_args with
        | Some m => [Re2.group 2 m]
        | None => []
        end ++ gene_db_of other_args).
Proof.
  unfold main_db, gene_db_of. simpl.
  destruct (Re2.search mlst_db_pattern other_args);
    destruct (Re2.search gene_db_dashes_pattern other_args);
    try destruct (Re2.search gene_db_end_pattern other_args);
    rewrite ?app_nil_r; reflexivity.
Qed.

(** ** The list of databases *)

(** X15: when the first [--mlst_db] of [--other_args] is followed by a
    space, a name without space or newline, and another space, the name is
    the first database of the list that [main] has indexed; the databases
    that the [--gene_db] patterns find come after it. *)
Theorem main_db_mlst_found pre name rest :
  Builtin.contains "--mlst_db" (pre +:+ "--mlst_d") = false →
  has_char " " name = false →
  no_newline name = true →
  main_db (Some (pre +:+ "--mlst_db " +:+ name +:+ " " +:+ rest))
  = Some (name :: gene_db_of (pre +:+ "--mlst_db " +:+ name +:+ " " +:+ rest)).
Proof.
  intros Hpre Hsp Hnl.
  rewrite main_db_parts, (mlst_search_found _ _ _ Hpre Hsp Hnl). reflexivity.
Qed.

Lemma main_db_mlst_found_witness :
  main_db (Some ("--log " +:+ "--mlst_db " +:+ "mlst.fasta" +:+ " "
                   +:+ "--mlst_definitions st.txt"))
  = Some ["mlst.fasta"].
Proof.
  rewrite (main_db_mlst_found "--log " "mlst.fasta" "--mlst_definitions st.txt");
    reflexivity.
Defined.

(** X16: a [--mlst_db] option that comes last in [--other_args] is not
    found. When the first [--mlst_db] is followed by a space and by a name
    without space that ends the text, the pattern, which asks for a space
    after the name, matches nowhere: the list holds the databases of
    [--gene_db] only, and the MLST database is not indexed unless it is
    named there too. *)
Theorem main_db_mlst_last pre name :
  Builtin.contains "--mlst_db" (pre +:+ "--mlst_d") = false →
  has_char " " name = false →
  main_db (Some (pre +:+ "--mlst_db " +:+ name))
  = Some (gene_db_of (pre +:+ "--mlst_db " +:+ name)).
Proof.
  intros Hpre Hsp.
  rewrite main_db_parts, (mlst_search_last _ _ Hpre Hsp). reflexivity.
Qed.

Lemma main_db_mlst_last_witness :
  main_db (Some ("--gene_db genes.fasta " +:+ "--mlst_db " +:+ "mlst.fasta"))
  = Some ["genes.fasta"].
Proof.
  rewrite (main_db_mlst_last "--gene_db genes.fasta " "mlst.fasta"); reflexivity.
Defined.

(** X17: when the first [--gene_db] of [--other_args] is followed by a
    space, a text without newline, and then for the first time a space and
    two dashes, the databases added to the list are the blank-separated
    words of that text; at most one database, that of [--mlst_db], comes
    before them. *)
Theorem main_db_gene_before_option pre files rest :
  Builtin.contains "--gene_db" (pre +:+ "--gene_d") = false →
  no_newline files = true →
  Builtin.contains " --" (files +:+ " -") = false →
  ∃ mlst, length mlst ≤ 1
    ∧ main_db (Some (pre +:+ "--gene_db " +:+ files +:+ " --" +:+ rest))
      = Some (mlst ++ Builtin.split files).
Proof.
  intros Hpre Hnl Hfirst. rewrite main_db_parts. unfold gene_db_of.
  rewrite (gene_dashes_found _ _ _ Hpre Hnl Hfirst).
  change (Re2.group 2 ["--gene_db"; files]) with files.
  eexists. split; [|reflexivity].
  destruct (Re2.search mlst_db_pattern _); simpl; lia.
Qed.

Lemma main_db_gene_before_option_witness :
  ∃ mlst,
    main_db (Some ("" +:+ "--gene_db " +:+ "a.fasta b.fasta" +:+ " --"
                     +:+ "mlst_db mlst.fasta --mlst_delimiter _"))
    = Some (mlst ++ ["a.fasta"; "b.fasta"]).
Proof.
  destruct (main_db_gene_before_option "" "a.fasta b.fasta"
              "mlst_db mlst.fasta --mlst_delimiter _")
    as (mlst & _ & H); [reflexivity..|].
  exists mlst. exact H.
Defined.

(** X18: when the first [--gene_db] of [--other_args] is followed by a
    space and by a text without newline that ends [--other_args] and holds
    no space followed by two dashes, the databases added to the list are
    the blank-separated words of that text. *)
Theorem main_db_gene_last pre files :
  Builtin.contains "--gene_db" (pre +:+ "--gene_d") = false →
  no_newline files = true →
  Builtin.contains " --" files = false →
  ∃ mlst, length mlst ≤ 1
    ∧ main_db (Some (pre +:+ "--gene_db " +:+ files))
      = Some (mlst ++ Builtin.split files).
Proof.
  intros Hpre Hnl Hno. rewrite main_db_parts. unfold gene_db_of.
  rewrite (gene_dashes_none _ _ Hpre Hno), (gene_end_found _ _ Hpre Hnl).
  change (Re2.group 2 ["--gene_db"; files]) with files.
  eexists. split; [|reflexivity].
  destruct (Re2.search mlst_db_pattern _); simpl; lia.
Qed.

Lemma main_db_gene_last_witness :
  ∃ mlst,
    main_db (Some ("--mlst_db mlst.fasta --mlst_definitions st.txt "
                     +:+ "--gene_db " +:+ "a.fasta b.fasta"))
    = Some (mlst ++ ["a.fasta"; "b.fasta"]).
Proof.
  destruct (main_db_gene_last "--mlst_db mlst.fasta --mlst_definitions st.txt "
              "a.fasta b.fasta")
    as (mlst & _ & H); [reflexivity..|].
  exists mlst. exact H.
Defined.

